(** * Agent execution engine of telegram-ai-bot: a shallow embedding

    The development follows the Go sources: the streaming decoder and the
    [thinkFilter] of the chat client, the token budget ([estimateTokens],
    [capMaxTokens]), the two tool-calling loops ([doSubAgentWithTools] and
    [runQuery]) and the MCP client of [mcp.go] ([parseSSE], [rpcCall],
    [rpcNotify]).

    Conventions.
    - A Go [string] is a sequence of bytes: [gostring] is [list ascii].
      Slicing [s[:i]] is [take i s], [s[i:]] is [drop i s], [len] is
      [length], [+] is [++].
    - A Go [int] is a 64-bit two's-complement integer: a [Z] with the
      wrap-around [wrap64] written at every addition and subtraction.
    - An [error] is the text [err.Error()] returns.
    - The network and the tools are the outside world: the loops thread a
      state of an abstract type through every exchange. *)

From Stdlib Require Import ZArith List Ascii String Lia Bool.
From stdpp Require Import base option list gmap strings pretty.
Import ListNotations.

Abbreviation gostring := (list ascii).

(** ** The few functions of Go's [strings] package the sources call *)

Module strings.

(** [strings.HasPrefix]: [len(s) >= len(prefix) && s[:len(prefix)] == prefix]. *)
Definition HasPrefix (s prefix : gostring) : bool :=
  (length prefix <=? length s) && bool_decide (take (length prefix) s = prefix).

(** [strings.HasSuffix]: [len(s) >= len(suffix) && s[len(s)-len(suffix):] == suffix]. *)
Definition HasSuffix (s suffix : gostring) : bool :=
  (length suffix <=? length s)
  && bool_decide (drop (length s - length suffix) s = suffix).

(** [strings.Index]: the byte offset of the first instance of [substr] in
    [s]; [None] stands for Go's [-1]. *)
Fixpoint Index (s substr : gostring) : option nat :=
  if HasPrefix s substr then Some 0
  else match s with
       | [] => None
       | _ :: s' => S <$> Index s' substr
       end.

(** [strings.TrimPrefix]. *)
Definition TrimPrefix (s prefix : gostring) : gostring :=
  if HasPrefix s prefix then drop (length prefix) s else s.

End strings.

(** [sub] occurs in [s] at offset [i]. *)
Definition occurs_at (s sub : gostring) (i : nat) : Prop :=
  take (length sub) (drop i s) = sub.

(** [n] bytes at the end of [s] are the first [n] bytes of [tag], and
    [tag] is longer than that. *)
Definition border (s tag : gostring) (n : nat) : Prop :=
  n < length tag ∧ n ≤ length s ∧ drop (length s - n) s = take n tag.

(** ** thinkFilter *)

(** The four callbacks of a [thinkFilter] are its only effect: a call of
    [process] or [flush] is modelled by the new filter state and the list
    of callback invocations it made, in order. *)
Inductive emit :=
| writeThink (s : gostring)
| writeContent (s : gostring)
| onThinkStart
| onThinkEnd.

Record thinkFilter := {
  active : bool;        (* inside <think> block *)
  pending : gostring    (* buffer for partial tag matching *)
}.

Definition tagOpen : gostring := list_ascii_of_string "<think>".
Definition tagClose : gostring := list_ascii_of_string "</think>".

(** The loop [for n := max; n > 0; n--] of [partialSuffix]. *)
Fixpoint partialSuffix_from (s tag : gostring) (n : nat) : nat :=
  match n with
  | O => O
  | S n' => if strings.HasSuffix s (take n tag) then n
            else partialSuffix_from s tag n'
  end.

Definition partialSuffix (s tag : gostring) : nat :=
  let max := length tag - 1 in
  let max := if length s <? max then length s else max in
  partialSuffix_from s tag max.

(** The loop [for f.pending != ""] of [process]. An iteration either
    returns, or empties [pending], or cuts a whole tag off it, so the
    length of [pending] is enough fuel ([process_total]); [None] is
    the loop still running when the fuel is spent. *)
Fixpoint process_loop (fuel : nat) (f : thinkFilter)
  : option (thinkFilter * list emit) :=
  match pending f with
  | [] => Some (f, [])
  | _ :: _ =>
    match fuel with
    | O => None
    | S fuel' =>
      let p := pending f in
      if negb (active f) then
        match strings.Index p tagOpen with
        | Some idx =>
          let w := if 0 <? idx then [writeContent (take idx p)] else [] in
          '(f', out) ← process_loop fuel'
               {| active := true; pending := drop (idx + length tagOpen) p |};
          Some (f', w ++ onThinkStart :: out)
        | None =>
          let n := partialSuffix p tagOpen in
          if 0 <? n then
            Some ({| active := false; pending := drop (length p - n) p |},
                  [writeContent (take (length p - n) p)])
          else
            '(f', out) ← process_loop fuel' {| active := false; pending := [] |};
            Some (f', writeContent p :: out)
        end
      else
        match strings.Index p tagClose with
        | Some idx =>
          let w := if 0 <? idx then [writeThink (take idx p)] else [] in
          '(f', out) ← process_loop fuel'
               {| active := false; pending := drop (idx + length tagClose) p |};
          Some (f', w ++ onThinkEnd :: out)
        | None =>
          let n := partialSuffix p tagClose in
          if 0 <? n then
            let safe := take (length p - n) p in
            let w := if bool_decide (safe = []) then [] else [writeThink safe] in
            Some ({| active := true; pending := drop (length p - n) p |}, w)
          else
            '(f', out) ← process_loop fuel' {| active := true; pending := [] |};
            Some (f', writeThink p :: out)
        end
    end
  end.

Definition process (f : thinkFilter) (chunk : gostring)
  : option (thinkFilter * list emit) :=
  let f := {| active := active f; pending := pending f ++ chunk |} in
  process_loop (length (pending f)) f.

Definition flush (f : thinkFilter) : thinkFilter * list emit :=
  match pending f with
  | [] => (f, [])
  | _ :: _ =>
    let w := if active f then [writeThink (pending f); onThinkEnd]
             else [writeContent (pending f)] in
    ({| active := false; pending := [] |}, w)
  end.

(** What reached [writeContent], concatenated in call order. *)
Fixpoint visible (out : list emit) : gostring :=
  match out with
  | [] => []
  | writeContent s :: out' => s ++ visible out'
  | _ :: out' => visible out'
  end.

(** A stream pushed through a filter: [process] on every chunk in turn,
    then [flush], as [doStream] and [doSubAgentStream] drive it. *)
Fixpoint process_all (f : thinkFilter) (chunks : list gostring)
  : option (thinkFilter * list emit) :=
  match chunks with
  | [] => Some (f, [])
  | c :: cs =>
    '(f1, o1) ← process f c;
    '(f2, o2) ← process_all f1 cs;
    Some (f2, o1 ++ o2)
  end.

Definition run_filter (chunks : list gostring) : option (list emit) :=
  '(f1, o1) ← process_all {| active := false; pending := [] |} chunks;
  Some (o1 ++ (flush f1).2).

(** The tag [process] looks for in each mode, and what a write in that
    mode contributes to the visible text. *)
Definition tag_of (a : bool) : gostring := if a then tagClose else tagOpen.
Definition keep (a : bool) (s : gostring) : gostring := if a then [] else s.

(** The loop of [process] seen from outside: the state it leaves and the
    visible text it wrote. *)
Definition vis_loop (fuel : nat) (f : thinkFilter)
  : option (thinkFilter * gostring) :=
  (λ r, (r.1, visible r.2)) <$> process_loop fuel f.

(** The same with the fuel [process] gives it. *)
Definition scan (a : bool) (p : gostring) : option (thinkFilter * gostring) :=
  vis_loop (length p) {| active := a; pending := p |}.

(** A proper prefix of a tag: what may be left in [pending]. *)
Definition proper_prefix (p tag : gostring) : Prop :=
  length p < length tag ∧ take (length p) tag = p.


(** ** Messages and the chunks of a streamed completion *)

(** FuncCall holds the function name and serialized arguments. *)
Record FuncCall := {
  Name : gostring;
  Arguments : gostring
}.

(** ToolCall represents a tool invocation requested by the model. *)
Record ToolCall := {
  ID : gostring;
  Type_ : gostring;
  Function : FuncCall
}.

(** Message represents a chat message in OpenAI format. *)
Record Message := {
  Role : gostring;
  Content : gostring;
  ToolCalls : list ToolCall;
  ToolCallID : gostring
}.

(** StreamResult holds the accumulated response from streaming. *)
Record StreamResult := {
  result_Content : gostring;
  result_ToolCalls : list ToolCall
}.

Module stream.

Record streamFuncCall := {
  Name : gostring;
  Arguments : gostring
}.

Record streamToolCall := {
  Index : Z;
  ID : gostring;
  Type_ : gostring;
  Function : streamFuncCall
}.

(** [Content] and [ReasoningContent] are [*string]: [None] is [nil]. *)
Record streamDelta := {
  Role : gostring;
  Content : option gostring;
  ReasoningContent : option gostring;
  ToolCalls : list streamToolCall
}.

Record streamChoice := {
  Delta : streamDelta;
  FinishReason : option gostring
}.

Record streamChunk := {
  Choices : list streamChoice
}.

End stream.

(** ** doStream: the decoding loop *)

(** What the loop over the body lines of [doStream] carries from line to
    line and returns: [result.Content] and [tcMap]. The writes to the
    terminal (the reasoning text, the [thinkFilter] output) change
    neither and are left out. *)
Record decoder := {
  dec_Content : gostring;
  tcMap : gmap Z ToolCall
}.

(** The body of [for _, tc := range ch.Delta.ToolCalls]. *)
Definition accumToolCall (m : gmap Z ToolCall) (tc : stream.streamToolCall)
  : gmap Z ToolCall :=
  match m !! stream.Index tc with
  | Some existing =>
    let id := if bool_decide (stream.ID tc ≠ []) then stream.ID tc
              else ID existing in
    let name := if bool_decide (stream.Name (stream.Function tc) ≠ [])
                then stream.Name (stream.Function tc)
                else Name (Function existing) in
    <[stream.Index tc :=
        {| ID := id; Type_ := Type_ existing;
           Function := {| Name := name;
                          Arguments := Arguments (Function existing)
                                       ++ stream.Arguments (stream.Function tc) |} |}]> m
  | None =>
    <[stream.Index tc :=
        {| ID := stream.ID tc; Type_ := stream.Type_ tc;
           Function := {| Name := stream.Name (stream.Function tc);
                          Arguments := stream.Arguments (stream.Function tc) |} |}]> m
  end.

(** The body of [for _, ch := range chunk.Choices]. *)
Definition decodeChoice (d : decoder) (ch : stream.streamChoice) : decoder :=
  let content :=
    match stream.Content (stream.Delta ch) with
    | Some c => if bool_decide (c ≠ []) then dec_Content d ++ c else dec_Content d
    | None => dec_Content d
    end in
  {| dec_Content := content;
     tcMap := foldl accumToolCall (tcMap d) (stream.ToolCalls (stream.Delta ch)) |}.

Definition decodeChunk (d : decoder) (chunk : stream.streamChunk) : decoder :=
  foldl decodeChoice d (stream.Choices chunk).

(** The final loop [for i := 0; i < len(tcMap); i++]. *)
Definition finalize (m : gmap Z ToolCall) : list ToolCall :=
  omap (λ i : nat, m !! Z.of_nat i) (seq 0 (size m)).

Definition decodeChunks (chunks : list stream.streamChunk) : StreamResult :=
  let d := foldl decodeChunk {| dec_Content := []; tcMap := ∅ |} chunks in
  {| result_Content := dec_Content d; result_ToolCalls := finalize (tcMap d) |}.

(** The lines of the body the loop decodes: a line without the prefix
    ["data: "] is skipped, the payload ["[DONE]"] ends the loop, a payload
    [json.Unmarshal] rejects is skipped. *)
Fixpoint dataChunks (unmarshal : gostring → option stream.streamChunk)
    (lines : list gostring) : list stream.streamChunk :=
  match lines with
  | [] => []
  | line :: rest =>
    if negb (strings.HasPrefix line (list_ascii_of_string "data: ")) then
      dataChunks unmarshal rest
    else
      let data := strings.TrimPrefix line (list_ascii_of_string "data: ") in
      if bool_decide (data = list_ascii_of_string "[DONE]") then []
      else match unmarshal data with
           | None => dataChunks unmarshal rest
           | Some chunk => chunk :: dataChunks unmarshal rest
           end
  end.

(** *** Fragmented tool calls *)

(** The tool-call fragments of a stream, in arrival order. *)
Definition fragments (chunks : list stream.streamChunk)
  : list stream.streamToolCall :=
  chunk ← chunks; ch ← stream.Choices chunk; stream.ToolCalls (stream.Delta ch).

(** The fragments that arrived for slot [i]. *)
Definition slot (i : Z) (fs : list stream.streamToolCall)
  : list stream.streamToolCall :=
  filter (λ f, stream.Index f = i) fs.

(** What a finalized call is compared by: id, name, arguments. *)
Definition call_view (tc : ToolCall) : gostring * gostring * gostring :=
  (ID tc, Name (Function tc), Arguments (Function tc)).

(** [s] was cut into [parts]. *)
Definition cut_into (parts : list gostring) (s : gostring) : Prop :=
  concat parts = s.

(** [s] arrived whole: every part is empty or is [s], and one is [s]. *)
Definition whole_in (parts : list gostring) (s : gostring) : Prop :=
  Forall (λ x, x = [] ∨ x = s) parts ∧ s ∈ parts.

(** Every call arrives in one fragment: no slot index twice. *)
Definition atomic (fa : list stream.streamToolCall) : Prop :=
  NoDup (stream.Index <$> fa).

(** [fs] delivers the calls [fa] in fragments, the way the sentence of the
    specification has it: the fragments of a slot may come in any number
    and anywhere in the stream, its id arrives whole, its name and its
    arguments are cut into pieces. *)
Definition fragmented_as_claimed (fa fs : list stream.streamToolCall) : Prop :=
  Forall (λ f, stream.Index f ∈ stream.Index <$> fa) fs
  ∧ Forall (λ a,
      let piece := slot (stream.Index a) fs in
      whole_in (stream.ID <$> piece) (stream.ID a)
      ∧ cut_into ((stream.Name ∘ stream.Function) <$> piece)
                 (stream.Name (stream.Function a))
      ∧ cut_into ((stream.Arguments ∘ stream.Function) <$> piece)
                 (stream.Arguments (stream.Function a))) fa.

(** The same with the name arriving whole, as the id does; only the
    arguments are cut into pieces. *)
Definition fragmented (fa fs : list stream.streamToolCall) : Prop :=
  Forall (λ f, stream.Index f ∈ stream.Index <$> fa) fs
  ∧ Forall (λ a,
      let piece := slot (stream.Index a) fs in
      whole_in (stream.ID <$> piece) (stream.ID a)
      ∧ whole_in ((stream.Name ∘ stream.Function) <$> piece)
                 (stream.Name (stream.Function a))
      ∧ cut_into ((stream.Arguments ∘ stream.Function) <$> piece)
                 (stream.Arguments (stream.Function a))) fa.


(** The two branches of [accumToolCall]: the entry a first fragment
    creates, and an entry updated by a later fragment. *)
Definition fresh_call (tc : stream.streamToolCall) : ToolCall :=
  {| ID := stream.ID tc; Type_ := stream.Type_ tc;
     Function := {| Name := stream.Name (stream.Function tc);
                    Arguments := stream.Arguments (stream.Function tc) |} |}.

Definition merge_call (existing : ToolCall) (tc : stream.streamToolCall) : ToolCall :=
  {| ID := if bool_decide (stream.ID tc ≠ []) then stream.ID tc else ID existing;
     Type_ := Type_ existing;
     Function :=
       {| Name := if bool_decide (stream.Name (stream.Function tc) ≠ [])
                  then stream.Name (stream.Function tc)
                  else Name (Function existing);
          Arguments := Arguments (Function existing)
                       ++ stream.Arguments (stream.Function tc) |} |}.

Definition slot_step (o : option ToolCall) (tc : stream.streamToolCall)
  : option ToolCall :=
  Some (match o with Some e => merge_call e tc | None => fresh_call tc end).

(** The last non-empty string of [xs], or [init]. *)
Definition last_nonempty (init : gostring) (xs : list gostring) : gostring :=
  foldl (λ acc x, if bool_decide (x ≠ []) then x else acc) init xs.


(** *** Sample streams *)

Definition frag (i : Z) (id name args : string) : stream.streamToolCall :=
  {| stream.Index := i;
     stream.ID := list_ascii_of_string id;
     stream.Type_ := list_ascii_of_string
                       (if bool_decide (id = EmptyString) then "" else "function");
     stream.Function := {| stream.Name := list_ascii_of_string name;
                           stream.Arguments := list_ascii_of_string args |} |}.

Definition chunk_of (fs : list stream.streamToolCall) : stream.streamChunk :=
  {| stream.Choices :=
       [ {| stream.Delta := {| stream.Role := []; stream.Content := None;
                               stream.ReasoningContent := None;
                               stream.ToolCalls := fs |};
            stream.FinishReason := None |} ] |}.

(** Two calls, slot 1 first, the arguments of each in two pieces, the
    pieces of the two slots interleaved. *)
Definition sample_fragmented : list stream.streamChunk :=
  [ chunk_of [frag 1 "b" "search" "{q:"];
    chunk_of [frag 0 "a" "fetch" "{u"];
    chunk_of [frag 1 "" "" "1}"; frag 0 "" "" ":2}"] ].

Definition sample_atomic : list stream.streamChunk :=
  [ chunk_of [frag 0 "a" "fetch" "{u:2}"; frag 1 "b" "search" "{q:1}"] ].

(** One call, its name in two pieces. *)
Definition sample_split_name : list stream.streamChunk :=
  [ chunk_of [frag 0 "a" "get_" "{"]; chunk_of [frag 0 "" "weather" "}"] ].

Definition sample_whole_name : list stream.streamChunk :=
  [ chunk_of [frag 0 "a" "get_weather" "{}"] ].


(** ** Token budget *)

(** Arithmetic on Go's [int]: the result of an operation, reduced to the
    64-bit two's-complement range. *)
Definition wrap64 (z : Z) : Z := ((z + 2 ^ 63) `mod` 2 ^ 64 - 2 ^ 63)%Z.

(** [len(s)]. *)
Definition len (s : gostring) : Z := Z.of_nat (length s).

(** estimateTokens gives a rough upper-bound token estimate for messages.
    Uses ~3 chars per token. Go's [/] on [int] truncates toward zero. *)
Definition estimateTokens (messages : list Message) : Z :=
  let chars :=
    foldl (λ chars m,
      let chars :=
        wrap64 (chars + wrap64 (wrap64 (len (Content m) + len (Role m)) + 4)) in
      foldl (λ chars tc,
               wrap64 (chars
                       + wrap64 (wrap64 (len (Name (Function tc))
                                         + len (Arguments (Function tc))) + 20)))
            chars (ToolCalls m))
      0%Z messages in
  wrap64 (chars `quot` 3 + 50).

(** capMaxTokens adjusts maxTokens so input+output fits within
    contextLimit. *)
Definition capMaxTokens (contextLimit maxTokens : Z) (messages : list Message) : Z :=
  if (contextLimit <=? 0)%Z then maxTokens
  else
    let estimated := estimateTokens messages in
    let available := wrap64 (contextLimit - estimated) in
    let minOutput := 256%Z in
    if (available <? minOutput)%Z then minOutput
    else if (available <? maxTokens)%Z then available
    else maxTokens.

(** The characters [estimateTokens] counts, as a mathematical integer. *)
Definition call_chars (tc : ToolCall) : Z :=
  (len (Name (Function tc)) + len (Arguments (Function tc)) + 20)%Z.

Definition message_chars (m : Message) : Z :=
  (len (Content m) + len (Role m) + 4
   + foldr (λ tc acc, call_chars tc + acc) 0 (ToolCalls m))%Z.

Definition raw_chars (messages : list Message) : Z :=
  foldr (λ m acc, message_chars m + acc)%Z 0%Z messages.

(** A user message with [n] bytes of content. *)
Definition user_message (n : nat) : Message :=
  {| Role := list_ascii_of_string "user";
     Content := replicate n "a"%char;
     ToolCalls := []; ToolCallID := [] |}.


(** ** The model server and the tools *)

Abbreviation str := list_ascii_of_string.

(** An [error] value, by the text [err.Error()] returns. *)
Abbreviation error := gostring.

(** A Go result pair [(v, err)]: [Err e] when [err != nil]. *)
Inductive result (A : Type) : Type :=
| Ok (a : A)
| Err (e : error).
Arguments Ok {A} a.
Arguments Err {A} e.

Module tools.

(** Function describes a callable function exposed as a tool;
    [Parameters] is its JSON Schema, serialized. *)
Record Function := {
  Name : gostring;
  Description : gostring;
  Parameters : gostring
}.

(** Definition is an OpenAI-compatible tool definition. *)
Record Definition_ := {
  Type_ : gostring;
  Function_ : Function
}.

End tools.

Record chatRequest := {
  Model : gostring;
  Messages : list Message;
  Tools : list tools.Definition_;   (* nil and empty are both omitted *)
  Stream : bool;
  MaxTokens : Z
}.

(** The response to the POST of [doStream], as the function reads it:
    the status code, the whole body as [io.ReadAll] returns it (read on a
    status other than 200 only), the lines [bufio.Scanner] yields, and
    what [scanner.Err()] reports after the loop. *)
Record chatResponse := {
  StatusCode : Z;
  body_text : gostring;
  body_lines : list gostring;
  body_err : option error
}.

Record limitConfig := {
  Context : Z;
  Output : Z
}.

Record modelConfig := {
  cfg_Name : gostring;
  BaseURL : gostring;
  Limit : limitConfig
}.

(** [\s] of Go's [regexp]: tab, newline, form feed, carriage return, space. *)
Definition is_re_space (c : ascii) : bool :=
  bool_decide (c ∈ ["009"; "010"; "012"; "013"; " "]%char).

Fixpoint skip_re_space (s : gostring) : gostring :=
  match s with
  | c :: s' => if is_re_space c then skip_re_space s' else s
  | [] => []
  end.

(** [reThinkTags.ReplaceAllString(s, "")] for
    [reThinkTags = (?s)<think>.*?</think>\s*]: every leftmost match, from
    a ["<think>"] to the first ["</think>"] after it and the white space
    that follows, is cut out. A match takes at least 15 bytes, so the
    length of [s] is enough fuel. *)
Fixpoint cutThinkTags (fuel : nat) (s : gostring) : gostring :=
  match fuel with
  | O => s
  | S fuel' =>
    match strings.Index s tagOpen with
    | None => s
    | Some i =>
      let rest := drop (i + length tagOpen) s in
      match strings.Index rest tagClose with
      | None => s
      | Some j =>
        take i s
        ++ cutThinkTags fuel' (skip_re_space (drop (j + length tagClose) rest))
      end
    end
  end.

(** [toolResult[:maxToolResultChars] + "\n[...truncated]"] when the result
    is longer than a positive [maxToolResultChars]. *)
Definition truncateToolResult (maxToolResultChars : Z) (toolResult : gostring)
  : gostring :=
  if bool_decide (0 < maxToolResultChars)%Z
     && bool_decide (maxToolResultChars < len toolResult)%Z
  then take (Z.to_nat maxToolResultChars) toolResult
       ++ "010"%char :: str "[...truncated]"
  else toolResult.

(** [toolResult] of the two loops: the result, or ["error: "] and the
    text of the error. *)
Definition toolResultText (r : result gostring) : gostring :=
  match r with
  | Err execErr => str "error: " ++ execErr
  | Ok res => res
  end.

(** What a loop did, seen from outside: what it returned, the requests it
    sent to the model in order, and the conversation and the world it
    ended with. *)
Record run (R W : Type) := {
  run_result : R;
  run_requests : list chatRequest;
  run_messages : list Message;
  run_world : W
}.
Arguments run_result {R W} r.
Arguments run_requests {R W} r.
Arguments run_messages {R W} r.
Arguments run_world {R W} r.

(** The requests [sent] went out before what [r] tells. *)
Definition after_requests {R W} (sent : list chatRequest) (r : run R W) : run R W :=
  {| run_result := run_result r;
     run_requests := sent ++ run_requests r;
     run_messages := run_messages r;
     run_world := run_world r |}.

Section Engine.
(** The state of everything outside the process: the model server, the
    tools and what they reach. *)
Context {World : Type}.

(** toolExecFunc dispatches a tool call by name. Returns result text or
    error. *)
Definition toolExecFunc : Type :=
  gostring → gostring → World → result gostring * World.

(** [json.Marshal] of a chat request: the payload, or its error. *)
Variable marshal : chatRequest → result gostring.
(** The error of [http.NewRequest] on a URL, if it has one. *)
Variable NewRequest_error : gostring → option error.
(** [http.DefaultClient.Do] on the POST of a payload to a URL: the
    response, or the error of the transport. *)
Variable post : gostring → gostring → World → result chatResponse * World.
(** [json.Unmarshal] into a [streamChunk]; [None] is an error. *)
Variable unmarshal : gostring → option stream.streamChunk.
(** [strings.TrimSpace]. *)
Variable TrimSpace : gostring → gostring.
(** [tools.Get]: the [Execute] of the registered tool of that name. *)
Variable tools_Get : gostring → option (gostring → World → result gostring * World).
(** The verb [%q] of [fmt]: [strconv.Quote]. *)
Variable quote : gostring → gostring.

Definition chatRequest_of (model : gostring) (messages : list Message)
    (toolDefs : list tools.Definition_) (maxTokens : Z) : chatRequest :=
  {| Model := model; Messages := messages; Tools := toolDefs;
     Stream := true; MaxTokens := maxTokens |}.

(** doStream sends a streaming chat completion request. If toolDefs is
    nil, the request is sent without tools (pure generation). Beside what
    the source returns stands what was handed to the HTTP client: the
    request, or nothing when [json.Marshal] or [http.NewRequest] failed
    before. *)
Definition doStream (baseURL model : gostring) (messages : list Message)
    (toolDefs : list tools.Definition_) (maxTokens : Z) (w : World)
  : result StreamResult * list chatRequest * World :=
  let reqBody := chatRequest_of model messages toolDefs maxTokens in
  match marshal reqBody with
  | Err err => (Err err, [], w)
  | Ok payload =>
    match NewRequest_error (baseURL ++ str "/chat/completions") with
    | Some err => (Err err, [], w)
    | None =>
      match post (baseURL ++ str "/chat/completions") payload w with
      | (Err err, w) => (Err (str "request failed: " ++ err), [reqBody], w)
      | (Ok resp, w) =>
        if bool_decide (StatusCode resp ≠ 200%Z) then
          (Err (str "API error " ++ str (pretty (StatusCode resp)) ++ str ": "
                ++ body_text resp), [reqBody], w)
        else
          let result := decodeChunks (dataChunks unmarshal (body_lines resp)) in
          match body_err resp with
          | Some err => (Err (str "stream read error: " ++ err), [reqBody], w)
          | None => (Ok result, [reqBody], w)
          end
      end
    end
  end.

(** The error [doStream] returns before anything is sent: that of
    [json.Marshal] or that of [http.NewRequest]. *)
Definition requestError (baseURL : gostring) (reqBody : chatRequest)
  : option error :=
  match marshal reqBody with
  | Err err => Some err
  | Ok _ => NewRequest_error (baseURL ++ str "/chat/completions")
  end.

Definition stripThinkTags (s : gostring) : gostring :=
  TrimSpace (cutThinkTags (length s) s).

(** defaultToolExec dispatches to built-in tools only. *)
Definition defaultToolExec : toolExecFunc :=
  λ name args w,
    match tools_Get name with
    | Some execute => execute args w
    | None => (Err (str "unknown tool " ++ quote name), w)
    end.

(** The loop [for _, tc := range result.ToolCalls] of the two
    tool-calling loops, the same in both but for what becomes of
    [toolResult] before it is appended: [finish] is the truncation in
    [doSubAgentWithTools] and nothing in [runQuery]. The calls to [logf]
    are left out. *)
Fixpoint execToolCalls (finish : gostring → gostring) (exec : toolExecFunc)
    (calls : list ToolCall) (messages : list Message) (w : World)
  : list Message * World :=
  match calls with
  | [] => (messages, w)
  | tc :: calls' =>
    let '(r, w) := exec (Name (Function tc)) (Arguments (Function tc)) w in
    let toolResult := finish (toolResultText r) in
    let messages :=
      messages ++ [ {| Role := str "tool"; Content := toolResult;
                       ToolCalls := []; ToolCallID := ID tc |} ] in
    execToolCalls finish exec calls' messages w
  end.

Section SubAgent.
Variables (baseURL model : gostring) (toolDefs : list tools.Definition_).
Variables (maxTokens contextLimit maxToolResultChars : Z).
Variable execTool : option toolExecFunc.   (* [None] is [nil] *)

(** The forced final call of [doSubAgentWithTools], after the loop. *)
Definition subAgentFinal (messages : list Message) (w : World)
  : run (result gostring) World :=
  let effectiveMax := capMaxTokens contextLimit maxTokens messages in
  match doStream baseURL model messages [] effectiveMax w with
  | (Err err, sent, w) =>
    {| run_result := Err (str "final round: " ++ err);
       run_requests := sent; run_messages := messages; run_world := w |}
  | (Ok result, sent, w) =>
    {| run_result := Ok (stripThinkTags (result_Content result));
       run_requests := sent; run_messages := messages; run_world := w |}
  end.

(** The loop [for round := 0; round < maxRounds; round++], [n] rounds
    from [round] on, and what follows it. *)
Fixpoint subAgentRounds (n : nat) (round : Z) (messages : list Message)
    (w : World) : run (result gostring) World :=
  match n with
  | O => subAgentFinal messages w
  | S n' =>
    let effectiveMax := capMaxTokens contextLimit maxTokens messages in
    match doStream baseURL model messages toolDefs effectiveMax w with
    | (Err err, sent, w) =>
      {| run_result := Err (str "round " ++ str (pretty round) ++ str ": " ++ err);
         run_requests := sent; run_messages := messages; run_world := w |}
    | (Ok result, sent, w) =>
      if bool_decide (length (result_ToolCalls result) = 0) then
        {| run_result := Ok (stripThinkTags (result_Content result));
           run_requests := sent; run_messages := messages; run_world := w |}
      else
        (* Add assistant message with tool calls *)
        let messages :=
          messages ++ [ {| Role := str "assistant";
                           Content := result_Content result;
                           ToolCalls := result_ToolCalls result;
                           ToolCallID := [] |} ] in
        (* Execute each tool call *)
        let exec := default defaultToolExec execTool in
        let '(messages, w) :=
          execToolCalls (truncateToolResult maxToolResultChars) exec
                        (result_ToolCalls result) messages w in
        after_requests sent (subAgentRounds n' (round + 1)%Z messages w)
    end
  end.

(** doSubAgentWithTools runs a silent tool-calling loop for a
    sub-agent. It executes tool calls automatically for up to
    maxRounds iterations. After maxRounds, one final call is made
    WITHOUT tools to force a text response. *)
Definition doSubAgentWithTools (maxRounds : Z) (messages : list Message)
    (w : World) : run (result gostring) World :=
  subAgentRounds (Z.to_nat maxRounds) 0 messages w.
End SubAgent.

Section Query.
Variables (cfg : modelConfig) (modelID : gostring).
(** [toolDefs] and [execTool] are what the first lines of [runQuery]
    build from the registry and the MCP manager. *)
Variables (toolDefs : list tools.Definition_) (execTool : toolExecFunc).

(** The loop [for { ... }] of [runQuery]: it has no exit but its two
    [return]s. [fuel] bounds the iterations looked at; a result of
    [None] is the loop still running after that many. *)
Fixpoint runQuery_loop (fuel : nat) (messages : list Message) (w : World)
  : run (option (result gostring)) World :=
  match fuel with
  | O => {| run_result := None; run_requests := [];
            run_messages := messages; run_world := w |}
  | S fuel' =>
    match doStream (BaseURL cfg) modelID messages toolDefs
                   (Output (Limit cfg)) w with
    | (Err err, sent, w) =>
      {| run_result := Some (Err err);
         run_requests := sent; run_messages := messages; run_world := w |}
    | (Ok result, sent, w) =>
      if bool_decide (length (result_ToolCalls result) = 0) then
        {| run_result := Some (Ok (result_Content result));
           run_requests := sent; run_messages := messages; run_world := w |}
      else
        let messages :=
          messages ++ [ {| Role := str "assistant";
                           Content := result_Content result;
                           ToolCalls := result_ToolCalls result;
                           ToolCallID := [] |} ] in
        let '(messages, w) :=
          execToolCalls id execTool (result_ToolCalls result) messages w in
        after_requests sent (runQuery_loop fuel' messages w)
    end
  end.

Definition runQuery (systemPrompt query : gostring) (fuel : nat) (w : World)
  : run (option (result gostring)) World :=
  let messages :=
    [ {| Role := str "system"; Content := systemPrompt;
         ToolCalls := []; ToolCallID := [] |};
      {| Role := str "user"; Content := query;
         ToolCalls := []; ToolCallID := [] |} ] in
  runQuery_loop fuel messages w.
End Query.

End Engine.


(** *** Rounds of a conversation *)

(** The assistant message a loop appends for a turn with tool calls. *)
Definition assistantMessage (result : StreamResult) : Message :=
  {| Role := str "assistant"; Content := result_Content result;
     ToolCalls := result_ToolCalls result; ToolCallID := [] |}.

(** [m] is the tool-role message of the call [tc]: it carries its id. *)
Definition answers (tc : ToolCall) (m : Message) : Prop :=
  Role m = str "tool" ∧ ToolCallID m = ID tc.

(** A stretch of conversation in which every message with tool calls is
    an assistant message followed at once by the tool-role messages of
    its calls, one for each and in their order, and no tool-role message
    stands anywhere else. *)
Inductive well_paired : list Message → Prop :=
| wp_nil : well_paired []
| wp_plain m ms :
    Role m ≠ str "tool" → ToolCalls m = [] →
    well_paired ms → well_paired (m :: ms)
| wp_round m tms ms :
    Role m = str "assistant" → ToolCalls m ≠ [] →
    Forall2 answers (ToolCalls m) tms →
    well_paired ms → well_paired (m :: tms ++ ms).

(** The calls of a turn are dispatched one after the other from the world
    [w]: each call is executed once, in the world the call before it
    left, and answered by one tool-role message with the id of the call,
    whose content is [finish] of the result of that execution or, when it
    failed, of ["error: "] and the text of the failure; [w'] is the world
    the last call left. *)
Inductive dispatched {World : Type} (finish : gostring → gostring)
    (exec : gostring → gostring → World → result gostring * World)
  : World → list ToolCall → list Message → World → Prop :=
| dispatched_nil w : dispatched finish exec w [] [] w
| dispatched_cons w tc calls r w1 tms w2 :
    exec (Name (Function tc)) (Arguments (Function tc)) w = (r, w1) →
    dispatched finish exec w1 calls tms w2 →
    dispatched finish exec w (tc :: calls)
      ({| Role := str "tool";
          Content := finish (match r with
                             | Ok res => res
                             | Err e => str "error: " ++ e
                             end);
          ToolCalls := []; ToolCallID := ID tc |} :: tms) w2.

(** The conversation [final] is [messages] grown by whole rounds. *)
Definition whole_rounds (messages final : list Message) : Prop :=
  ∃ ext, final = messages ++ ext ∧ well_paired ext.

(** *** A scripted model server *)

Definition text_chunk (s : string) : stream.streamChunk :=
  {| stream.Choices :=
       [ {| stream.Delta := {| stream.Role := []; stream.Content := Some (str s);
                               stream.ReasoningContent := None;
                               stream.ToolCalls := [] |};
            stream.FinishReason := None |} ] |}.

(** A decoder for three payloads. *)
Definition toy_unmarshal (data : gostring) : option stream.streamChunk :=
  if bool_decide (data = str "one") then
    Some (chunk_of [frag 0 "a" "lookup" "{}"])
  else if bool_decide (data = str "two") then
    Some (chunk_of [frag 0 "a" "lookup" "{}"; frag 1 "b" "fail" "{}"])
  else if bool_decide (data = str "text") then Some (text_chunk "done")
  else None.

(** The world is the number of requests served so far; the server answers
    request [w] with status 200 and the lines [script w]. *)
Definition toy_post (script : nat → list gostring)
  : gostring → gostring → nat → result chatResponse * nat :=
  λ _ _ w, (Ok {| StatusCode := 200; body_text := []; body_lines := script w;
                  body_err := None |}, S w).

(** The tool [fail] fails, every other tool finds something. *)
Definition toy_exec : gostring → gostring → nat → result gostring * nat :=
  λ name _ w,
    if bool_decide (name = str "fail") then (Err (str "boom"), w)
    else (Ok (str "found"), w).


(** A model that asks for two tools, then answers. *)
Definition two_then_text : nat → list gostring :=
  λ w, match w with
       | O => [str ": keep-alive"; str "data: two"; str "data: [DONE]"]
       | S _ => [str "data: text"]
       end.

Definition toy_cfg : modelConfig :=
  {| cfg_Name := str "toy"; BaseURL := str "http://localhost";
     Limit := {| Context := 1000; Output := 500 |} |}.

Definition toy_tools : list tools.Definition_ :=
  [ {| tools.Type_ := str "function";
       tools.Function_ := {| tools.Name := str "lookup";
                             tools.Description := str "looks things up";
                             tools.Parameters := str "{}" |} |} ].


(** *** What the claims about the loops speak of *)


(** [req] carries the conversation [messages], grown by whole rounds. *)
Definition grown_by_rounds (messages : list Message) (req : chatRequest) : Prop :=
  ∃ ext, Messages req = messages ++ ext ∧ well_paired ext.

(** The two messages [runQuery] starts from. *)
Definition initialMessages (systemPrompt query : gostring) : list Message :=
  [ {| Role := str "system"; Content := systemPrompt;
       ToolCalls := []; ToolCallID := [] |};
    {| Role := str "user"; Content := query;
       ToolCalls := []; ToolCallID := [] |} ].


(** [json.Marshal] and [http.NewRequest] of the scripted world: the
    payload is the name of the model, and every URL is accepted. *)
Definition toy_marshal : chatRequest → result gostring := λ req, Ok (Model req).
Definition toy_NewRequest_error : gostring → option error := λ _, None.

(** The two loops against the scripted server. *)
Definition toy_subAgent (script : nat → list gostring)
    (maxRounds maxToolResultChars : Z) (messages : list Message) (w : nat)
  : run (result gostring) nat :=
  doSubAgentWithTools toy_marshal toy_NewRequest_error (toy_post script)
    toy_unmarshal id (λ _, None) id
    (str "http://localhost") (str "m") toy_tools 500 1000 maxToolResultChars
    (Some toy_exec) maxRounds messages w.

Definition toy_runQuery (script : nat → list gostring) (query : gostring)
    (fuel : nat) : run (option (result gostring)) nat :=
  runQuery toy_marshal toy_NewRequest_error (toy_post script) toy_unmarshal
    toy_cfg (str "m") toy_tools toy_exec (str "sys") query fuel 0.

(** The first turn of [two_then_text], decoded. *)
Definition toy_turn : StreamResult :=
  decodeChunks (dataChunks toy_unmarshal (two_then_text 0)).


(** ** The MCP client *)

Module mcp.

(** MCPServerConfig holds the configuration for a single MCP server. *)
Record MCPServerConfig := {
  URL : gostring;
  Enabled : bool;
  Headers : gmap gostring gostring
}.

Record mcpTool := {
  Name : gostring;
  Description : gostring;
  InputSchema : gostring
}.

(** MCPServer represents a connection to a single MCP server. The mutex
    is left out: one exchange at a time. *)
Record MCPServer := {
  name : gostring;
  cfg : MCPServerConfig;
  inited : bool;
  sessionID : gostring;
  tools : list mcpTool
}.

(** [ID] is [*int]: [None] is [nil], a request without an id or a
    response whose id is absent or null. [Params] is the value to be
    serialized. *)
Record jsonRPCRequest := {
  JSONRPC : gostring;
  ID : option Z;
  Method : gostring;
  Params : gostring
}.

Record jsonRPCError := {
  Code : Z;
  Message : gostring
}.

Module response.
Record jsonRPCResponse := {
  JSONRPC : gostring;
  ID : option Z;
  Result : gostring;
  Error : option jsonRPCError
}.
End response.

(** An [http.Request] as the client builds it and an [http.Response] as
    it reads it. A header is keyed by its canonical name; the body of a
    response is there whole ([io.ReadAll], [json.NewDecoder]) and as the
    lines [bufio.Scanner] yields, with what [scanner.Err()] reports after
    them. *)
Record httpRequest := {
  req_URL : gostring;
  req_Header : gmap gostring gostring;
  req_Body : gostring
}.

Record httpResponse := {
  StatusCode : Z;
  Header : gmap gostring gostring;
  body_text : gostring;
  body_lines : list gostring;
  body_err : option error
}.

(** What one exchange did: what the function returned, the server
    connection after it, the request that went out and the response that
    came back, if any, and the world after it. *)
Record exchange (R W : Type) := {
  ex_result : R;
  ex_server : MCPServer;
  ex_sent : option httpRequest;
  ex_response : option httpResponse;
  ex_world : W
}.
Arguments ex_result {R W} e.
Arguments ex_server {R W} e.
Arguments ex_sent {R W} e.
Arguments ex_response {R W} e.
Arguments ex_world {R W} e.

Definition set_sessionID (s : MCPServer) (sid : gostring) : MCPServer :=
  {| name := name s; cfg := cfg s; inited := inited s; sessionID := sid;
     tools := tools s |}.

Section Client.
Context {World : Type}.

(** [http.DefaultClient.Do]. *)
Variable Do : httpRequest → World → result httpResponse * World.
(** [json.Marshal] of a request. *)
Variable marshal : jsonRPCRequest → result gostring.
(** The error of [http.NewRequest] on a URL, if it has one. *)
Variable NewRequest_error : gostring → option error.
(** [textproto.CanonicalMIMEHeaderKey], which [Header.Set] and
    [Header.Get] apply to the name of a header. *)
Variable canon : gostring → gostring.
(** [json.Unmarshal] into a [jsonRPCResponse]; [None] is an error. *)
Variable unmarshal : gostring → option response.jsonRPCResponse.
(** [json.NewDecoder(body).Decode] into a [jsonRPCResponse]. *)
Variable decode : gostring → result response.jsonRPCResponse.

Definition Header_Set (k v : gostring) (h : gmap gostring gostring)
  : gmap gostring gostring :=
  <[canon k := v]> h.

Definition Header_Get (h : gmap gostring gostring) (k : gostring) : gostring :=
  default [] (h !! canon k).

(** The loop of [parseSSE] over the scanned lines. *)
Fixpoint parseSSE_lines (lines : list gostring)
  : option response.jsonRPCResponse :=
  match lines with
  | [] => None
  | line :: rest =>
    if negb (strings.HasPrefix line (str "data: ")) then parseSSE_lines rest
    else
      let data := strings.TrimPrefix line (str "data: ") in
      match unmarshal data with
      | None => parseSSE_lines rest
      | Some rpcResp =>
        (* Return the first valid JSON-RPC response with an ID (skip
           notifications) *)
        match response.ID rpcResp with
        | Some _ => Some rpcResp
        | None => parseSSE_lines rest
        end
      end
  end.

Definition parseSSE (body : httpResponse) : result response.jsonRPCResponse :=
  match parseSSE_lines (body_lines body) with
  | Some rpcResp => Ok rpcResp
  | None =>
    match body_err body with
    | Some err => Err (str "SSE read: " ++ err)
    | None => Err (str "no JSON-RPC response found in SSE stream")
    end
  end.

(** The request [rpcCall] and [rpcNotify] build, the same in both. *)
Definition newRequest (s : MCPServer) (payload : gostring) : httpRequest :=
  let h := Header_Set (str "Content-Type") (str "application/json") ∅ in
  let h := Header_Set (str "Accept") (str "application/json, text/event-stream") h in
  let h := map_fold Header_Set h (Headers (cfg s)) in
  let h := if bool_decide (sessionID s ≠ [])
           then Header_Set (str "Mcp-Session-Id") (sessionID s) h else h in
  {| req_URL := URL (cfg s); req_Header := h; req_Body := payload |}.

Definition rpcCall (s : MCPServer) (req : jsonRPCRequest) (w : World)
  : exchange (result response.jsonRPCResponse) World :=
  let failed err :=
    {| ex_result := Err err; ex_server := s; ex_sent := None;
       ex_response := None; ex_world := w |} in
  match marshal req with
  | Err err => failed err
  | Ok payload =>
    match NewRequest_error (URL (cfg s)) with
    | Some err => failed err
    | None =>
      let httpReq := newRequest s payload in
      match Do httpReq w with
      | (Err err, w) =>
        {| ex_result := Err err; ex_server := s; ex_sent := Some httpReq;
           ex_response := None; ex_world := w |}
      | (Ok resp, w) =>
        if bool_decide (StatusCode resp ≠ 200%Z) then
          {| ex_result := Err (str "HTTP " ++ str (pretty (StatusCode resp))
                               ++ str ": " ++ body_text resp);
             ex_server := s; ex_sent := Some httpReq;
             ex_response := Some resp; ex_world := w |}
        else
          (* Save session ID *)
          let sid := Header_Get (Header resp) (str "Mcp-Session-Id") in
          let s := if bool_decide (sid ≠ []) then set_sessionID s sid else s in
          let ct := Header_Get (Header resp) (str "Content-Type") in
          let r :=
            if strings.HasPrefix ct (str "text/event-stream") then parseSSE resp
            else match decode (body_text resp) with
                 | Err err => Err (str "decode response: " ++ err)
                 | Ok rpcResp => Ok rpcResp
                 end in
          {| ex_result := r; ex_server := s; ex_sent := Some httpReq;
             ex_response := Some resp; ex_world := w |}
      end
    end
  end.

(** [rpcNotify] returns an error or [nil]; the response is read to its
    end and dropped. *)
Definition rpcNotify (s : MCPServer) (req : jsonRPCRequest) (w : World)
  : exchange (option error) World :=
  let failed err :=
    {| ex_result := Some err; ex_server := s; ex_sent := None;
       ex_response := None; ex_world := w |} in
  match marshal req with
  | Err err => failed err
  | Ok payload =>
    match NewRequest_error (URL (cfg s)) with
    | Some err => failed err
    | None =>
      let httpReq := newRequest s payload in
      match Do httpReq w with
      | (Err err, w) =>
        {| ex_result := Some err; ex_server := s; ex_sent := Some httpReq;
           ex_response := None; ex_world := w |}
      | (Ok resp, w) =>
        {| ex_result := None; ex_server := s; ex_sent := Some httpReq;
           ex_response := Some resp; ex_world := w |}
      end
    end
  end.

(** *** Sequences of exchanges *)

Inductive call :=
| Call (req : jsonRPCRequest)
| Notify (req : jsonRPCRequest).

(** One exchange of a sequence, as logged: the call, the session token
    the connection held before it, the request that went out and the
    response that came back, if any. *)
Record logged := {
  lg_call : call;
  lg_stored : gostring;
  lg_sent : option httpRequest;
  lg_response : option httpResponse
}.

(** The connection performs the calls one after the other. *)
Fixpoint exchanges (s : MCPServer) (calls : list call) (w : World)
  : list logged * MCPServer * World :=
  match calls with
  | [] => ([], s, w)
  | c :: calls' =>
    let '(sent, resp, s', w') :=
      match c with
      | Call req =>
        let e := rpcCall s req w in
        (ex_sent e, ex_response e, ex_server e, ex_world e)
      | Notify req =>
        let e := rpcNotify s req w in
        (ex_sent e, ex_response e, ex_server e, ex_world e)
      end in
    let '(log, s'', w'') := exchanges s' calls' w' in
    ({| lg_call := c; lg_stored := sessionID s; lg_sent := sent;
        lg_response := resp |} :: log, s'', w'')
  end.

(** The session token a request carries. *)
Definition session_of (r : httpRequest) : option gostring :=
  req_Header r !! canon (str "Mcp-Session-Id").

(** The session token an exchange received, [[]] for none: the header
    of its response, whatever the call and the status. *)
Definition received (e : logged) : gostring :=
  match lg_response e with
  | Some resp => Header_Get (Header resp) (str "Mcp-Session-Id")
  | None => []
  end.

(** The session token an exchange made the connection store, [[]] for
    none: the header of the response to an [rpcCall], when its status
    is 200. *)
Definition accepted (e : logged) : gostring :=
  match lg_call e, lg_response e with
  | Call _, Some resp =>
    if bool_decide (StatusCode resp = 200%Z)
    then Header_Get (Header resp) (str "Mcp-Session-Id") else []
  | _, _ => []
  end.

(** A line of an event stream that carries a response: it starts with
    ["data: "], the rest parses, and the id is not null. *)
Definition carried (line : gostring) : option response.jsonRPCResponse :=
  if strings.HasPrefix line (str "data: ") then
    rpcResp ← unmarshal (drop (length (str "data: ")) line);
    if bool_decide (response.ID rpcResp ≠ None) then Some rpcResp else None
  else None.

End Client.

End mcp.


(** *** The scanner of an event stream *)

Module bufio.





End bufio.






(** *** A scripted MCP server *)


(** Frames: [n] is a notification (no id), [r] the response with id 1. *)
Definition toy_rpc_unmarshal (data : gostring) : option mcp.response.jsonRPCResponse :=
  if bool_decide (data = str "n") then
    Some {| mcp.response.JSONRPC := str "2.0"; mcp.response.ID := None;
            mcp.response.Result := []; mcp.response.Error := None |}
  else if bool_decide (data = str "r") then
    Some {| mcp.response.JSONRPC := str "2.0"; mcp.response.ID := Some 1%Z;
            mcp.response.Result := str "{}"; mcp.response.Error := None |}
  else None.

(** The server answers the first exchange with status 200 and the session
    token [S1], every later one with status 202 and the token [S2]. *)
Definition toy_Do : mcp.httpRequest → nat → result mcp.httpResponse * nat :=
  λ _ w,
    (Ok {| mcp.StatusCode := match w with O => 200 | S _ => 202 end;
           mcp.Header :=
             {[ str "Mcp-Session-Id" := match w with O => str "S1" | S _ => str "S2" end;
                str "Content-Type" := str "text/event-stream" ]};
           mcp.body_text := [];
           mcp.body_lines := [str "data: r"];
           mcp.body_err := None |}, S w).

Definition toy_server : mcp.MCPServer :=
  {| mcp.name := str "toy";
     mcp.cfg := {| mcp.URL := str "http://localhost/mcp"; mcp.Enabled := true;
                   mcp.Headers := {[ str "Authorization" := str "Bearer t" ]} |};
     mcp.inited := false; mcp.sessionID := []; mcp.tools := [] |}.

Definition toy_request (id : option Z) (method : string) : mcp.jsonRPCRequest :=
  {| mcp.JSONRPC := str "2.0"; mcp.ID := id; mcp.Method := str method;
     mcp.Params := [] |}.

(** The three exchanges of [initialize]. *)
Definition toy_handshake : list mcp.call :=
  [ mcp.Call (toy_request (Some 1%Z) "initialize");
    mcp.Notify (toy_request None "notifications/initialized");
    mcp.Call (toy_request (Some 2%Z) "tools/list") ].

Definition toy_exchanges (s : mcp.MCPServer) (calls : list mcp.call)
  : list mcp.logged * mcp.MCPServer * nat :=
  mcp.exchanges toy_Do (λ req, Ok (mcp.Method req)) (λ _, None) id
    toy_rpc_unmarshal (λ _, Err (str "not JSON")) s calls 0.


(** ** Further definitions for the properties beyond the claims *)

(** The text a callback stands for: a write its argument, [onThinkStart]
    and [onThinkEnd] the tag that was recognized. *)
Definition render_emit (e : emit) : gostring :=
  match e with
  | writeThink s => s
  | writeContent s => s
  | onThinkStart => tagOpen
  | onThinkEnd => tagClose
  end.

Definition render (out : list emit) : gostring := concat (render_emit <$> out).

(** The callbacks follow the protocol of the two modes: content is
    written outside a think block, thinking inside, and a block is opened
    only outside and closed only inside. [Some a] is the mode after
    [out], started in mode [a0]. *)
Fixpoint protocol (a0 : bool) (out : list emit) : option bool :=
  match out with
  | [] => Some a0
  | writeContent _ :: out' => if a0 then None else protocol false out'
  | writeThink _ :: out' => if a0 then protocol true out' else None
  | onThinkStart :: out' => if a0 then None else protocol true out'
  | onThinkEnd :: out' => if a0 then protocol false out' else None
  end.


(** The content deltas of a stream, in arrival order. *)
Definition content_deltas (chunks : list stream.streamChunk) : list gostring :=
  chunk ← chunks; ch ← stream.Choices chunk;
  match stream.Content (stream.Delta ch) with
  | Some c => [c]
  | None => []
  end.


(** A tool without state that records each call in the world: the world
    is the list of the calls made, as pairs of name and arguments. *)
Definition recording_exec (answer : gostring → gostring → result gostring)
  : gostring → gostring → list (gostring * gostring)
    → result gostring * list (gostring * gostring) :=
  λ name args w, (answer name args, w ++ [(name, args)]).

(** The tool-role message of a call with a given content. *)
Definition toolMessage (content : gostring) (tc : ToolCall) : Message :=
  {| Role := str "tool"; Content := content; ToolCalls := [];
     ToolCallID := ID tc |}.


(** The map [doStream] holds after one call streamed under slot 1. *)
Definition tcMap_of_sample : gmap Z ToolCall :=
  foldl accumToolCall ∅ (fragments [chunk_of [frag 1 "a" "lookup" "{}"]]).


(** ** prefixWriter *)

(** [strings.IndexByte]: the offset of the first [c] in [s]; [None] stands
    for Go's [-1]. *)
Fixpoint IndexByte (s : gostring) (c : ascii) : option nat :=
  match s with
  | [] => None
  | x :: s' => if bool_decide (x = c) then Some 0 else S <$> IndexByte s' c
  end.

(** prefixWriter writes to w, prepending prefix at the start of every
    line. The writer [w] is what was written to it so far; the errors of
    [io.WriteString] are dropped as in the source. *)
Record prefixWriter := {
  pw_w : gostring;
  pw_prefix : gostring;
  bol : bool          (* at beginning of line *)
}.

(** The loop [for len(s) > 0] of [WriteString]: an iteration writes a
    line break or returns, so the length of [s] is enough fuel. *)
Fixpoint WriteString_loop (fuel : nat) (pw : prefixWriter) (s : gostring)
  : option prefixWriter :=
  match s with
  | [] => Some pw
  | _ :: _ =>
    match fuel with
    | O => None
    | S fuel' =>
      let pw := if bol pw
                then {| pw_w := pw_w pw ++ pw_prefix pw; pw_prefix := pw_prefix pw;
                        bol := false |}
                else pw in
      match IndexByte s "010"%char with
      | None =>
        Some {| pw_w := pw_w pw ++ s; pw_prefix := pw_prefix pw; bol := bol pw |}
      | Some idx =>
        WriteString_loop fuel'
          {| pw_w := pw_w pw ++ take (idx + 1) s; pw_prefix := pw_prefix pw;
             bol := true |}
          (drop (idx + 1) s)
      end
    end
  end.

Definition WriteString (pw : prefixWriter) (s : gostring) : option prefixWriter :=
  WriteString_loop (length s) pw s.

(** Byte by byte: the prefix goes before every byte that starts a line. *)
Fixpoint prefixed (prefix : gostring) (b : bool) (s : gostring) : gostring * bool :=
  match s with
  | [] => ([], b)
  | c :: s' =>
    let '(out, b') := prefixed prefix (bool_decide (c = "010"%char)) s' in
    ((if b then prefix else []) ++ c :: out, b')
  end.

(** ** dedup *)

(** One of the two loops of [dedup]; [seen[s]] of a missing key is
    [false]. *)
Fixpoint dedup_loop (seen : gmap gostring bool) (result : list gostring)
    (l : list gostring) : gmap gostring bool * list gostring :=
  match l with
  | [] => (seen, result)
  | s :: l' =>
    if negb (default false (seen !! s))
    then dedup_loop (<[s := true]> seen) (result ++ [s]) l'
    else dedup_loop seen result l'
  end.

(** dedup merges two name lists, removing duplicates. *)
Definition dedup (a b : list gostring) : list gostring :=
  let '(seen, result) := dedup_loop ∅ [] a in
  (dedup_loop seen result b).2.

(** What the two loops of [dedup] keep: [seen] holds exactly the names of
    [result], which has no duplicate. *)
Definition dedup_inv (seen : gmap gostring bool) (result : list gostring) : Prop :=
  (∀ x, default false (seen !! x) = true ↔ x ∈ result) ∧ NoDup result.

(** ** splitTelegramMessage *)

Definition telegramMaxLen : nat := 4096.

(** The loop [for i := cut - 1; i > 0; i--] from [i] down: the cut after
    the last line break at an offset of [1 .. i], or [cut] when there is
    none. *)
Fixpoint cutBefore (text : gostring) (cut i : nat) : nat :=
  match i with
  | O => cut
  | S i' => if bool_decide (text !! i = Some "010"%char) then i + 1
            else cutBefore text cut i'
  end.

(** The loop [for len(text) > 0]: every iteration but the last cuts at
    least one byte off, so the length of the text is enough fuel. *)
Fixpoint split_loop (fuel : nat) (chunks : list gostring) (text : gostring)
  : option (list gostring) :=
  match text with
  | [] => Some chunks
  | _ :: _ =>
    match fuel with
    | O => None
    | S fuel' =>
      if length text <=? telegramMaxLen then Some (chunks ++ [text])
      else
        (* Find last newline before the limit *)
        let cut := cutBefore text telegramMaxLen (telegramMaxLen - 1) in
        split_loop fuel' (chunks ++ [take cut text]) (drop cut text)
    end
  end.

Definition splitTelegramMessage (text : gostring) : option (list gostring) :=
  if length text <=? telegramMaxLen then Some [text]
  else split_loop (length text) [] text.

(** A chunk that was cut off: as long as the limit, or up to a line break. *)
Definition cut_chunk (c : gostring) : Prop :=
  length c = telegramMaxLen ∨ last c = Some "010"%char.


(** ** The MCP manager *)

Module manager.

(** [strings.SplitN(s, sep, 2)] for a [sep] that is not empty: [s] cut at
    the first [sep], or [s] alone. *)
Definition SplitN2 (s sep : gostring) : list gostring :=
  match strings.Index s sep with
  | None => [s]
  | Some i => [take i s; drop (i + length sep) s]
  end.

(** [strings.Contains]. *)
Definition Contains (s substr : gostring) : bool :=
  bool_decide (strings.Index s substr ≠ None).

(** [strings.Join]. *)
Definition Join (elems : list gostring) (sep : gostring) : gostring :=
  match elems with
  | [] => []
  | e :: rest => e ++ concat ((λ x, sep ++ x) <$> rest)
  end.

(** The result of [tools/call], as [callTool] decodes it. *)
Record contentItem := {
  Type_ : gostring;
  Text : gostring
}.

Record callResult := {
  Content : list contentItem;
  IsError : bool
}.

(** MCPManager manages multiple MCP servers. The map holds pointers: what
    a call does to a server is seen through the manager. *)
Record MCPManager := {
  servers : gmap gostring mcp.MCPServer
}.

(** What a call of the manager did: what it returned, the manager or the
    server after it, the requests that went out in order, and the world
    after it. *)
Record ran (R S W : Type) := {
  ran_result : R;
  ran_state : S;
  ran_sent : list mcp.httpRequest;
  ran_world : W
}.
Arguments ran_result {R S W} r.
Arguments ran_state {R S W} r.
Arguments ran_sent {R S W} r.
Arguments ran_world {R S W} r.

Definition set_tools (s : mcp.MCPServer) (ts : list mcp.mcpTool) : mcp.MCPServer :=
  {| mcp.name := mcp.name s; mcp.cfg := mcp.cfg s; mcp.inited := true;
     mcp.sessionID := mcp.sessionID s; mcp.tools := ts |}.

(** The definitions [ActiveToolDefs] makes of the tools of a server. *)
Definition defs_of (name : gostring) (srv : mcp.MCPServer) : list tools.Definition_ :=
  (λ t, {| tools.Type_ := str "function";
           tools.Function_ :=
             {| tools.Name := name ++ str "__" ++ mcp.Name t;
                tools.Description :=
                  str "[" ++ name ++ str "] " ++ mcp.Description t;
                tools.Parameters := mcp.InputSchema t |} |}) <$> mcp.tools srv.

Section Manager.
Context {World : Type}.

Variable Do : mcp.httpRequest → World → result mcp.httpResponse * World.
Variable marshal : mcp.jsonRPCRequest → result gostring.
Variable NewRequest_error : gostring → option error.
Variable canon : gostring → gostring.
Variable unmarshal : gostring → option mcp.response.jsonRPCResponse.
Variable decode : gostring → result mcp.response.jsonRPCResponse.
(** The [Params] of the [initialize] request and of a [tools/call]
    request for a tool and its arguments, as values to be serialized. *)
Variable initialize_params : gostring.
Variable call_params : gostring → gostring → gostring.
(** [json.Unmarshal] into the [callResult] of [callTool] and into the
    [listResult] of [initialize]. *)
Variable unmarshalCallResult : gostring → result callResult.
Variable unmarshalTools : gostring → result (list mcp.mcpTool).
(** [tools.Get]: the [Execute] of the registered tool of that name. *)
Variable tools_Get : gostring → option (gostring → World → result gostring * World).
(** The verb [%q] of [fmt]: [strconv.Quote]. *)
Variable quote : gostring → gostring.

Local Abbreviation rpcCall :=
  (mcp.rpcCall Do marshal NewRequest_error canon unmarshal decode).
Local Abbreviation rpcNotify :=
  (mcp.rpcNotify Do marshal NewRequest_error canon).

Definition after_exchange {R R' : Type} (e : mcp.exchange R World) (r : R')
  : ran R' mcp.MCPServer World :=
  {| ran_result := r; ran_state := mcp.ex_server e;
     ran_sent := option_list (mcp.ex_sent e); ran_world := mcp.ex_world e |}.

Definition initialize (s : mcp.MCPServer) (w : World)
  : ran (option error) mcp.MCPServer World :=
  if mcp.inited s then
    {| ran_result := None; ran_state := s; ran_sent := []; ran_world := w |}
  else
    (* Step 1: initialize *)
    let e1 := rpcCall s {| mcp.JSONRPC := str "2.0"; mcp.ID := Some 1%Z;
                           mcp.Method := str "initialize";
                           mcp.Params := initialize_params |} w in
    match mcp.ex_result e1 with
    | Err err => after_exchange e1 (Some (str "initialize: " ++ err))
    | Ok initResp =>
      match mcp.response.Error initResp with
      | Some er => after_exchange e1 (Some (str "initialize: " ++ mcp.Message er))
      | None =>
        (* Step 2: notifications/initialized *)
        let e2 := rpcNotify (mcp.ex_server e1)
                    {| mcp.JSONRPC := str "2.0"; mcp.ID := None;
                       mcp.Method := str "notifications/initialized";
                       mcp.Params := [] |} (mcp.ex_world e1) in
        (* Step 3: tools/list *)
        let e3 := rpcCall (mcp.ex_server e2)
                    {| mcp.JSONRPC := str "2.0"; mcp.ID := Some 2%Z;
                       mcp.Method := str "tools/list";
                       mcp.Params := [] |} (mcp.ex_world e2) in
        let sent := option_list (mcp.ex_sent e1) ++ option_list (mcp.ex_sent e2)
                    ++ option_list (mcp.ex_sent e3) in
        let ret err srv :=
          {| ran_result := err; ran_state := srv; ran_sent := sent;
             ran_world := mcp.ex_world e3 |} in
        match mcp.ex_result e3 with
        | Err err => ret (Some (str "tools/list: " ++ err)) (mcp.ex_server e3)
        | Ok listResp =>
          match mcp.response.Error listResp with
          | Some er =>
            ret (Some (str "tools/list: " ++ mcp.Message er)) (mcp.ex_server e3)
          | None =>
            match unmarshalTools (mcp.response.Result listResp) with
            | Err err =>
              ret (Some (str "tools/list decode: " ++ err)) (mcp.ex_server e3)
            | Ok ts => ret None (set_tools (mcp.ex_server e3) ts)
            end
          end
        end
      end
    end.

(** The loop of [callTool] over the content of the result. *)
Definition texts_of (content : list contentItem) : list gostring :=
  Text <$> filter (λ c, Type_ c = str "text") content.

Definition callTool (s : mcp.MCPServer) (toolName args : gostring) (w : World)
  : ran (result gostring) mcp.MCPServer World :=
  let e := rpcCall s {| mcp.JSONRPC := str "2.0"; mcp.ID := Some 1%Z;
                        mcp.Method := str "tools/call";
                        mcp.Params := call_params toolName args |} w in
  match mcp.ex_result e with
  | Err err => after_exchange e (Err err)
  | Ok resp =>
    match mcp.response.Error resp with
    | Some er => after_exchange e (Err (str "MCP error: " ++ mcp.Message er))
    | None =>
      match unmarshalCallResult (mcp.response.Result resp) with
      | Err err => after_exchange e (Err (str "decode result: " ++ err))
      | Ok callResult =>
        let result := Join (texts_of (Content callResult)) ["010"%char] in
        if IsError callResult
        then after_exchange e (Err (str "tool error: " ++ result))
        else after_exchange e (Ok result)
      end
    end
  end.

(** [serverNames]: the keys, in the order of the iteration over the map,
    which Go leaves open. *)
Definition serverNames (m : MCPManager) : list gostring :=
  (map_to_list (servers m)).*1.

Definition unknown_server (m : MCPManager) (name : gostring) : error :=
  str "unknown MCP server " ++ quote name ++ str " (available: "
  ++ Join (serverNames m) (str ", ") ++ str ")".

(** InitServers initializes specific servers by name (lazy init for
    on-demand). *)
Fixpoint InitServers (m : MCPManager) (names : list gostring) (w : World)
  : ran (option error) MCPManager World :=
  match names with
  | [] => {| ran_result := None; ran_state := m; ran_sent := []; ran_world := w |}
  | name :: names' =>
    match servers m !! name with
    | None =>
      {| ran_result := Some (unknown_server m name); ran_state := m;
         ran_sent := []; ran_world := w |}
    | Some srv =>
      let r := initialize srv w in
      let m' := {| servers := <[name := ran_state r]> (servers m) |} in
      match ran_result r with
      | Some err =>
        {| ran_result := Some (str "MCP " ++ name ++ str ": " ++ err);
           ran_state := m'; ran_sent := ran_sent r; ran_world := ran_world r |}
      | None =>
        let r' := InitServers m' names' (ran_world r) in
        {| ran_result := ran_result r'; ran_state := ran_state r';
           ran_sent := ran_sent r ++ ran_sent r'; ran_world := ran_world r' |}
      end
    end
  end.

(** ValidateNames checks that all given names exist in config. *)
Fixpoint ValidateNames (m : MCPManager) (names : list gostring) : option error :=
  match names with
  | [] => None
  | name :: names' =>
    match servers m !! name with
    | None => Some (unknown_server m name)
    | Some _ => ValidateNames m names'
    end
  end.

(** The names [ActiveToolDefs] goes through: the enabled servers that are
    initialized and the extra names. *)
Definition active (m : MCPManager) (extraNames : list gostring) : gset gostring :=
  dom (filter (λ kv, mcp.Enabled (mcp.cfg kv.2) = true ∧ mcp.inited kv.2 = true)
              (servers m))
  ∪ list_to_set extraNames.

(** The loop [for name := range active]; [None] is the panic of
    [srv.inited] on the nil pointer that the map gives for a name without
    a server. *)
Fixpoint defs_loop (m : MCPManager) (names : list gostring)
  : option (list tools.Definition_) :=
  match names with
  | [] => Some []
  | name :: names' =>
    match servers m !! name with
    | None => None
    | Some srv =>
      if negb (mcp.inited srv) then defs_loop m names'
      else (λ defs, defs_of name srv ++ defs) <$> defs_loop m names'
    end
  end.

(** ActiveToolDefs returns tool definitions for enabled + extra servers.
    The order of the iteration over the map is left open by Go; it is the
    order of [elements] here. *)
Definition ActiveToolDefs (m : MCPManager) (extraNames : list gostring)
  : option (list tools.Definition_) :=
  defs_loop m (elements (active m extraNames)).

(** ExecuteTool routes a qualified tool name (server__tool) to the
    correct server. *)
Definition ExecuteTool (m : MCPManager) (qualifiedName args : gostring) (w : World)
  : ran (result gostring) MCPManager World :=
  match SplitN2 qualifiedName (str "__") with
  | [serverName; toolName] =>
    match servers m !! serverName with
    | None =>
      {| ran_result := Err (str "unknown MCP server " ++ quote serverName);
         ran_state := m; ran_sent := []; ran_world := w |}
    | Some srv =>
      let r := callTool srv toolName args w in
      {| ran_result := ran_result r;
         ran_state := {| servers := <[serverName := ran_state r]> (servers m) |};
         ran_sent := ran_sent r; ran_world := ran_world r |}
    end
  | _ =>
    {| ran_result := Err (str "invalid MCP tool name " ++ quote qualifiedName);
       ran_state := m; ran_sent := []; ran_world := w |}
  end.

(** makeToolExec creates a tool executor that handles both built-in and
    MCP tools. [mcpNames] is not used by the source. *)
Definition makeToolExec (mcpMgr : option MCPManager) (mcpNames : list gostring)
    (name args : gostring) (w : World)
  : ran (result gostring) (option MCPManager) World :=
  match tools_Get name with
  | Some execute =>
    let '(r, w) := execute args w in
    {| ran_result := r; ran_state := mcpMgr; ran_sent := []; ran_world := w |}
  | None =>
    let unknown :=
      {| ran_result := Err (str "unknown tool " ++ quote name);
         ran_state := mcpMgr; ran_sent := []; ran_world := w |} in
    match mcpMgr with
    | Some m =>
      if Contains name (str "__") then
        let r := ExecuteTool m name args w in
        {| ran_result := ran_result r; ran_state := Some (ran_state r);
           ran_sent := ran_sent r; ran_world := ran_world r |}
      else unknown
    | None => unknown
    end
  end.

End Manager.

End manager.


(** What a server connection is configured with and knows of its tools:
    everything but the session token. *)
Definition config_of (s : mcp.MCPServer)
  : gostring * mcp.MCPServerConfig * bool * list mcp.mcpTool :=
  (mcp.name s, mcp.cfg s, mcp.inited s, mcp.tools s).

(** *** A scripted MCP server that answers every request *)

Definition toy_ok_Do : mcp.httpRequest → nat → result mcp.httpResponse * nat :=
  λ _ w,
    (Ok {| mcp.StatusCode := 200;
           mcp.Header := {[ str "Content-Type" := str "application/json" ]};
           mcp.body_text := str "{}";
           mcp.body_lines := [];
           mcp.body_err := None |}, S w).

Definition toy_decode (body : gostring) : result mcp.response.jsonRPCResponse :=
  Ok {| mcp.response.JSONRPC := str "2.0"; mcp.response.ID := Some 1%Z;
        mcp.response.Result := body; mcp.response.Error := None |}.

Definition toy_tool : mcp.mcpTool :=
  {| mcp.Name := str "search"; mcp.Description := str "Search the web";
     mcp.InputSchema := str "{}" |}.

Definition toy_manager : manager.MCPManager :=
  {| manager.servers := {[ str "toy" := toy_server ]} |}.

Definition toy_manager_inited : manager.MCPManager :=
  {| manager.servers := {[ str "toy" := manager.set_tools toy_server [toy_tool] ]} |}.

Definition toy_InitServers (names : list gostring)
  : manager.ran (option error) manager.MCPManager nat :=
  manager.InitServers toy_ok_Do (λ req, Ok (mcp.Method req)) (λ _, None) id
    toy_rpc_unmarshal toy_decode [] (λ _, Ok [toy_tool]) id toy_manager names 0.

Definition toy_makeToolExec (name : gostring)
  : manager.ran (result gostring) (option manager.MCPManager) nat :=
  manager.makeToolExec toy_ok_Do (λ req, Ok (mcp.Method req)) (λ _, None) id
    toy_rpc_unmarshal toy_decode (λ tool args, tool)
    (λ _, Ok {| manager.Content := [ {| manager.Type_ := str "text";
                                        manager.Text := str "found" |} ];
                manager.IsError := false |})
    (λ _, None) id (Some toy_manager_inited) [] name (str "{}") 0.

(* ================================================================== *)
(** * Proofs *)
(* ================================================================== *)

(** ** Substring search *)

Section StringFacts.
Implicit Types s t sub tag : gostring.

Lemma HasPrefix_true s sub :
  strings.HasPrefix s sub = true ↔ occurs_at s sub 0.
Proof.
  unfold strings.HasPrefix, occurs_at. rewrite drop_0.
  rewrite andb_true_iff, bool_decide_eq_true, Nat.leb_le. split.
  - tauto.
  - intros H. split; [|done].
    rewrite <- H at 1. rewrite length_take. lia.
Qed.

Lemma HasSuffix_true s sub :
  strings.HasSuffix s sub = true
  ↔ length sub ≤ length s ∧ drop (length s - length sub) s = sub.
Proof.
  unfold strings.HasSuffix.
  by rewrite andb_true_iff, bool_decide_eq_true, Nat.leb_le.
Qed.

Lemma occurs_at_S a s sub i : occurs_at (a :: s) sub (S i) ↔ occurs_at s sub i.
Proof. done. Qed.

Lemma occurs_at_length s sub i :
  0 < length sub → occurs_at s sub i → i + length sub ≤ length s.
Proof.
  unfold occurs_at. intros Hpos H.
  assert (Hl : length (take (length sub) (drop i s)) = length sub) by by rewrite H.
  rewrite length_take, length_drop in Hl. lia.
Qed.

Lemma occurs_at_app_l s r sub i :
  i + length sub ≤ length s → occurs_at (s ++ r) sub i ↔ occurs_at s sub i.
Proof.
  intros Hle. unfold occurs_at.
  rewrite drop_app_le by lia. rewrite take_app_le; [done|].
  rewrite length_drop. lia.
Qed.

Lemma occurs_at_app_r a s sub j :
  occurs_at (a ++ s) sub (length a + j) ↔ occurs_at s sub j.
Proof. unfold occurs_at. by rewrite drop_app_add. Qed.

Lemma Index_Some s sub i :
  strings.Index s sub = Some i
  ↔ occurs_at s sub i ∧ ∀ j, j < i → ¬ occurs_at s sub j.
Proof.
  revert i. induction s as [|a s IH]; intros i; simpl.
  - destruct (strings.HasPrefix [] sub) eqn:Hp.
    + apply HasPrefix_true in Hp. split.
      * intros [= <-]. split; [done|]. lia.
      * intros [_ Hmin]. destruct i as [|i]; [done|].
        destruct (Hmin 0); [lia|done].
    + split; [done|]. intros [Ho _]. exfalso.
      assert (Hn : strings.HasPrefix [] sub ≠ true) by by rewrite Hp.
      apply Hn, HasPrefix_true. unfold occurs_at in *.
      by rewrite drop_nil in Ho; rewrite drop_0.
  - destruct (strings.HasPrefix (a :: s) sub) eqn:Hp.
    + apply HasPrefix_true in Hp. split.
      * intros [= <-]. split; [done|]. lia.
      * intros [_ Hmin]. destruct i as [|i]; [done|].
        destruct (Hmin 0); [lia|done].
    + assert (Hn : ¬ occurs_at (a :: s) sub 0).
      { rewrite <- HasPrefix_true. by rewrite Hp. }
      destruct i as [|i].
      * split; [by destruct (strings.Index s sub)|]. by intros [? _].
      * rewrite occurs_at_S.
        split.
        -- intros Hi. destruct (strings.Index s sub) as [k|] eqn:Hk; [|done].
           destruct (proj1 (IH k) eq_refl) as [Ho Hmin].
           injection Hi as <-. split; [done|].
           intros [|j] Hj; [done|]. rewrite occurs_at_S. apply Hmin. lia.
        -- intros [Ho Hmin].
           assert (Hk : strings.Index s sub = Some i).
           { apply (proj2 (IH _)). split; [done|]. intros j Hj.
             rewrite <- (occurs_at_S a). apply Hmin. lia. }
           by rewrite Hk.
Qed.

Lemma Index_None s sub :
  strings.Index s sub = None ↔ ∀ j, ¬ occurs_at s sub j.
Proof.
  induction s as [|a s IH]; simpl.
  - destruct (strings.HasPrefix [] sub) eqn:Hp.
    + apply HasPrefix_true in Hp. split; [done|]. intros H. by destruct (H 0).
    + split; [|done]. intros _ j Ho.
      assert (Hn : strings.HasPrefix [] sub ≠ true) by by rewrite Hp.
      apply Hn, HasPrefix_true. unfold occurs_at in *.
      by rewrite drop_nil in Ho; rewrite drop_0.
  - destruct (strings.HasPrefix (a :: s) sub) eqn:Hp.
    + apply HasPrefix_true in Hp. split; [done|]. intros H. by destruct (H 0).
    + assert (Hn : ¬ occurs_at (a :: s) sub 0).
      { rewrite <- HasPrefix_true. by rewrite Hp. }
      destruct (strings.Index s sub) as [k|] eqn:Hk; simpl.
      * split; [done|]. intros H. exfalso.
        apply Index_Some in Hk as [Ho _]. by apply (H (S k)).
      * split; [|done]. intros _ [|j]; [done|].
        rewrite occurs_at_S. by apply IH.
Qed.

(** A match found in [s] is still the first one after more text arrives. *)
Lemma Index_app_Some s r sub i :
  0 < length sub →
  strings.Index s sub = Some i → strings.Index (s ++ r) sub = Some i.
Proof.
  intros Hpos [Ho Hmin]%Index_Some. apply Index_Some.
  pose proof (occurs_at_length _ _ _ Hpos Ho). split.
  - by apply occurs_at_app_l.
  - intros j Hj Hoj. apply (Hmin j Hj). apply occurs_at_app_l in Hoj; [done|lia].
Qed.

(** When no match starts inside [a], searching [a ++ s] is searching [s]. *)
Lemma Index_app_skip a s sub :
  (∀ i, occurs_at (a ++ s) sub i → length a ≤ i) →
  strings.Index (a ++ s) sub = (λ j, length a + j) <$> strings.Index s sub.
Proof.
  intros Hskip. destruct (strings.Index s sub) as [j|] eqn:Hj; simpl.
  - apply Index_Some in Hj as [Ho Hmin]. apply Index_Some. split.
    + by apply occurs_at_app_r.
    + intros k Hk Hok. pose proof (Hskip _ Hok).
      apply (Hmin (k - length a)); [lia|].
      apply (occurs_at_app_r a). by replace (length a + (k - length a)) with k by lia.
  - apply Index_None. intros k Hok. pose proof (Hskip _ Hok).
    rewrite Index_None in Hj. apply (Hj (k - length a)).
    apply (occurs_at_app_r a). by replace (length a + (k - length a)) with k by lia.
Qed.

Lemma partialSuffix_from_spec s tag n :
  n ≤ length s → n ≤ length tag →
  let r := partialSuffix_from s tag n in
  r ≤ n ∧ drop (length s - r) s = take r tag
  ∧ ∀ m, r < m ≤ n → drop (length s - m) s ≠ take m tag.
Proof.
  induction n as [|n IH]; intros Hs Ht; simpl.
  - split; [done|]. split; [|lia]. by rewrite Nat.sub_0_r, drop_all.
  - destruct (strings.HasSuffix s (take (S n) tag)) eqn:Hsuf.
    + apply HasSuffix_true in Hsuf as [_ Hsuf].
      rewrite length_take in Hsuf.
      replace (S n `min` length tag) with (S n) in Hsuf by lia.
      split; [done|]. split; [done|]. lia.
    + destruct IH as (Hle & Hb & Hmax); [lia..|].
      split; [lia|]. split; [done|].
      intros m Hm Heq. destruct (decide (m = S n)) as [->|]; [|apply (Hmax m); [lia|done]].
      assert (Hn : strings.HasSuffix s (take (S n) tag) ≠ true) by by rewrite Hsuf.
      apply Hn, HasSuffix_true. rewrite length_take.
      replace (S n `min` length tag) with (S n) by lia. split; [lia|done].
Qed.

Lemma partialSuffix_border s tag :
  0 < length tag → border s tag (partialSuffix s tag).
Proof.
  intros Hpos. unfold partialSuffix, border.
  set (max := if length s <? length tag - 1 then length s else length tag - 1).
  assert (max ≤ length s ∧ max ≤ length tag - 1) as [H1 H2].
  { unfold max. destruct (Nat.ltb_spec (length s) (length tag - 1)); lia. }
  destruct (partialSuffix_from_spec s tag max) as (Hle & Hb & _); [lia..|].
  split; [lia|]. split; [lia|done].
Qed.

Lemma partialSuffix_longest s tag m :
  border s tag m → m ≤ partialSuffix s tag.
Proof.
  intros (Hm1 & Hm2 & Hm3). unfold partialSuffix.
  set (max := if length s <? length tag - 1 then length s else length tag - 1).
  assert (max ≤ length s ∧ max ≤ length tag - 1 ∧ m ≤ max) as (H1 & H2 & H3).
  { unfold max. destruct (Nat.ltb_spec (length s) (length tag - 1)); lia. }
  destruct (partialSuffix_from_spec s tag max) as (Hle & _ & Hmax); [lia..|].
  destruct (decide (m ≤ partialSuffix_from s tag max)); [done|].
  destruct (Hmax m); [lia|done].
Qed.

Lemma partialSuffix_unique s tag n :
  border s tag n → (∀ m, border s tag m → m ≤ n) → partialSuffix s tag = n.
Proof.
  intros Hb Hmax. assert (0 < length tag) by (destruct Hb; lia).
  pose proof (partialSuffix_longest _ _ _ Hb).
  pose proof (Hmax _ (partialSuffix_border s tag ltac:(done))). lia.
Qed.

(** A match of [tag] in [t ++ r], when [t] holds none, starts no earlier
    than the border of [t]. *)
Lemma occurs_after_border t r tag i :
  strings.Index t tag = None →
  occurs_at (t ++ r) tag i → length t - partialSuffix t tag ≤ i.
Proof.
  intros Hnone Ho.
  assert (Hpos : 0 < length tag).
  { destruct tag; [|simpl; lia]. by destruct t. }
  rewrite Index_None in Hnone.
  destruct (decide (length t - partialSuffix t tag ≤ i)) as [|Hlt]; [done|].
  exfalso. destruct (decide (i + length tag ≤ length t)) as [Hin|Hout].
  - apply (Hnone i). by apply occurs_at_app_l in Ho.
  - assert (Hb : border t tag (length t - i)).
    { split; [lia|]. split; [lia|].
      replace (length t - (length t - i)) with i by lia.
      unfold occurs_at in Ho. rewrite drop_app_le in Ho by lia.
      assert (He : take (length t - i) (take (length tag) (drop i t ++ r))
                   = take (length t - i) tag) by by rewrite Ho.
      rewrite <- He, take_take.
      replace ((length t - i) `min` length tag) with (length t - i) by lia.
      rewrite take_app_length'; [done|]. rewrite length_drop. lia. }
    apply partialSuffix_longest in Hb. lia.
Qed.

(** Only the border of [t] matters for the border of [t ++ r]. *)
Lemma partialSuffix_app t r tag :
  0 < length tag →
  partialSuffix (t ++ r) tag
  = partialSuffix (drop (length t - partialSuffix t tag) t ++ r) tag.
Proof.
  intros Hpos.
  pose proof (partialSuffix_border t tag Hpos) as (Hn1 & Hn2 & Hn3).
  set (n := partialSuffix t tag) in *.
  set (x := drop (length t - n) t ++ r).
  assert (Hx : length x = n + length r).
  { unfold x. rewrite length_app, length_drop. lia. }
  assert (Ht : t ++ r = take (length t - n) t ++ x).
  { unfold x. by rewrite app_assoc, take_drop. }
  assert (Ha : length (take (length t - n) t) = length t - n).
  { rewrite length_take. lia. }
  pose proof (partialSuffix_border x tag Hpos) as (Hx1 & Hx2 & Hx3).
  apply partialSuffix_unique.
  - split; [done|]. split; [rewrite length_app; lia|].
    rewrite <- Hx3, Ht.
    replace (length (take (length t - n) t ++ x) - partialSuffix x tag)
      with (length (take (length t - n) t) + (length x - partialSuffix x tag))
      by (rewrite length_app; lia).
    by rewrite drop_app_add.
  - intros m (Hm1 & Hm2 & Hm3). rewrite length_app in Hm2, Hm3.
    destruct (decide (m ≤ length x)) as [Hle|Hgt].
    + apply partialSuffix_longest. split; [done|]. split; [done|].
      rewrite <- Hm3, Ht.
      replace (length t + length r - m)
        with (length (take (length t - n) t) + (length x - m)) by lia.
      by rewrite drop_app_add.
    + exfalso.
      assert (Hb : border t tag (m - length r)).
      { split; [lia|]. split; [lia|].
        replace (length t - (m - length r)) with (length t + length r - m) by lia.
        rewrite drop_app_le in Hm3 by lia.
        assert (He : take (m - length r) (drop (length t + length r - m) t ++ r)
                     = take (m - length r) (take m tag)) by by rewrite Hm3.
        rewrite take_take in He.
        replace ((m - length r) `min` m) with (m - length r) in He by lia.
        rewrite <- He. rewrite take_app_length'; [done|].
        rewrite length_drop. lia. }
      apply partialSuffix_longest in Hb. fold n in Hb. lia.
Qed.

End StringFacts.

(** ** thinkFilter: the loop of [process] *)

Section ThinkFilterFacts.
Implicit Types (a : bool) (p t r : gostring) (f : thinkFilter).
Local Arguments partialSuffix : simpl never.
Local Arguments strings.Index : simpl never.

Lemma tag_of_length a : 0 < length (tag_of a) ≤ 8.
Proof. destruct a; simpl; lia. Qed.

Lemma visible_app o1 o2 : visible (o1 ++ o2) = visible o1 ++ visible o2.
Proof.
  induction o1 as [|[] o1 IH]; simpl; [done|done| |done|done].
  by rewrite IH, app_assoc.
Qed.

Lemma keep_app a s1 s2 : keep a (s1 ++ s2) = keep a s1 ++ keep a s2.
Proof. by destruct a. Qed.

Lemma process_loop_nil fuel a :
  process_loop fuel {| active := a; pending := [] |}
  = Some ({| active := a; pending := [] |}, []).
Proof. by destruct fuel. Qed.

Lemma vis_loop_nil fuel a :
  vis_loop fuel {| active := a; pending := [] |}
  = Some ({| active := a; pending := [] |}, []).
Proof. unfold vis_loop. by rewrite process_loop_nil. Qed.

(** One iteration, the two modes told apart only by [tag_of] and [keep]. *)
Lemma vis_loop_step fuel a p :
  p ≠ [] →
  vis_loop (S fuel) {| active := a; pending := p |}
  = match strings.Index p (tag_of a) with
    | Some idx =>
      '(f', v) ← vis_loop fuel {| active := negb a;
                                  pending := drop (idx + length (tag_of a)) p |};
      Some (f', keep a (take idx p) ++ v)
    | None =>
      let n := partialSuffix p (tag_of a) in
      Some ({| active := a; pending := drop (length p - n) p |},
            keep a (take (length p - n) p))
    end.
Proof.
  intros Hp. destruct p as [|c p]; [done|]. unfold vis_loop.
  destruct a; cbn [process_loop pending active negb tag_of keep].
  - destruct (strings.Index (c :: p) tagClose) as [idx|] eqn:Hidx.
    + destruct (process_loop fuel _) as [[f' out]|]; [|done].
      cbn. rewrite visible_app. by destruct idx.
    + cbv zeta. destruct (Nat.ltb_spec 0 (partialSuffix (c :: p) tagClose)) as [Hn|Hn].
      * cbn. by destruct (bool_decide _).
      * replace (partialSuffix (c :: p) tagClose) with 0 by lia.
        by rewrite process_loop_nil, Nat.sub_0_r, drop_all.
  - destruct (strings.Index (c :: p) tagOpen) as [idx|] eqn:Hidx.
    + destruct (process_loop fuel _) as [[f' out]|]; [|done].
      cbn. rewrite visible_app. destruct idx; [done|].
      cbn. by rewrite app_nil_r.
    + cbv zeta. destruct (Nat.ltb_spec 0 (partialSuffix (c :: p) tagOpen)) as [Hn|Hn].
      * cbn. by rewrite app_nil_r.
      * replace (partialSuffix (c :: p) tagOpen) with 0 by lia.
        rewrite process_loop_nil, Nat.sub_0_r, drop_all, firstn_all.
        cbn. by rewrite app_nil_r.
Qed.

Lemma vis_loop_fuel fuel1 fuel2 a p :
  length p ≤ fuel1 → length p ≤ fuel2 →
  vis_loop fuel1 {| active := a; pending := p |}
  = vis_loop fuel2 {| active := a; pending := p |}.
Proof.
  revert fuel2 a p. induction fuel1 as [|fuel1 IH]; intros fuel2 a p H1 H2.
  - destruct p; [|simpl in H1; lia]. by rewrite !vis_loop_nil.
  - destruct (decide (p = [])) as [->|Hp]; [by rewrite !vis_loop_nil|].
    destruct fuel2 as [|fuel2]; [destruct p; [done|simpl in H2; lia]|].
    rewrite !vis_loop_step by done.
    destruct (strings.Index p (tag_of a)) as [idx|]; [|done].
    pose proof (tag_of_length a).
    assert (length p ≠ 0) by by destruct p.
    rewrite (IH fuel2); [done|rewrite length_drop; lia..].
Qed.

Lemma scan_nil a : scan a [] = Some ({| active := a; pending := [] |}, []).
Proof. apply vis_loop_nil. Qed.

Lemma scan_step a p :
  p ≠ [] →
  scan a p
  = match strings.Index p (tag_of a) with
    | Some idx =>
      '(f', v) ← scan (negb a) (drop (idx + length (tag_of a)) p);
      Some (f', keep a (take idx p) ++ v)
    | None =>
      let n := partialSuffix p (tag_of a) in
      Some ({| active := a; pending := drop (length p - n) p |},
            keep a (take (length p - n) p))
    end.
Proof.
  intros Hp. unfold scan at 1.
  rewrite (vis_loop_fuel (length p) (S (length p))) by lia.
  rewrite vis_loop_step by done.
  destruct (strings.Index p (tag_of a)) as [idx|]; [|done].
  pose proof (tag_of_length a). unfold scan.
  rewrite (vis_loop_fuel (length p) (length (drop (idx + length (tag_of a)) p)));
    [done|rewrite length_drop; lia|lia].
Qed.

(** With no tag in sight the loop writes all but the border and stops. *)
Lemma scan_None a p :
  strings.Index p (tag_of a) = None →
  let n := partialSuffix p (tag_of a) in
  scan a p = Some ({| active := a; pending := drop (length p - n) p |},
                   keep a (take (length p - n) p)).
Proof.
  intros Hnone. destruct (decide (p = [])) as [->|Hp].
  - rewrite scan_nil. simpl. by destruct a.
  - rewrite scan_step by done. by rewrite Hnone.
Qed.

(** The loop of [process] always returns. *)
Lemma scan_total a p : is_Some (scan a p).
Proof.
  remember (length p) as k eqn:Hk. revert a p Hk.
  induction k as [k IH] using lt_wf_ind. intros a p ->.
  destruct (decide (p = [])) as [->|Hp]; [by rewrite scan_nil|].
  rewrite scan_step by done.
  destruct (strings.Index p (tag_of a)) as [idx|]; [|done].
  pose proof (tag_of_length a). assert (length p ≠ 0) by by destruct p.
  assert (Hlt : length (drop (idx + length (tag_of a)) p) < length p)
    by (rewrite length_drop; lia).
  destruct (IH _ Hlt (negb a) _ eq_refl) as [[f' v] ->].
  done.
Qed.

(** What the loop leaves in [pending] is a proper prefix of the tag of
    the mode it stops in. *)
Lemma scan_pending a p f v :
  scan a p = Some (f, v) → proper_prefix (pending f) (tag_of (active f)).
Proof.
  remember (length p) as k eqn:Hk. revert a p f v Hk.
  induction k as [k IH] using lt_wf_ind. intros a p f v -> Hs.
  destruct (decide (p = [])) as [->|Hp].
  - rewrite scan_nil in Hs. injection Hs as <- <-.
    pose proof (tag_of_length a). split; cbn [pending active length]; [lia|done].
  - rewrite scan_step in Hs by done.
    pose proof (tag_of_length a). assert (length p ≠ 0) by by destruct p.
    destruct (strings.Index p (tag_of a)) as [idx|].
    + destruct (scan (negb a) _) as [[f' v']|] eqn:Hs'; [|done].
      injection Hs as <- <-.
      assert (Hlt : length (drop (idx + length (tag_of a)) p) < length p)
        by (rewrite length_drop; lia).
      exact (IH _ Hlt _ _ _ _ eq_refl Hs').
    + injection Hs as <- <-. unfold proper_prefix. cbn [pending active].
      destruct (partialSuffix_border p (tag_of a)) as (Hn1 & Hn2 & Hn3); [lia|].
      rewrite length_drop.
      replace (length p - (length p - partialSuffix p (tag_of a)))
        with (partialSuffix p (tag_of a)) by lia.
      split; [done|]. by rewrite Hn3.
Qed.

(** More text after [t] only continues from where the loop stopped on
    [t]: the state it left, with the new text behind its [pending]. *)
Lemma scan_app a t r f v :
  scan a t = Some (f, v) →
  scan a (t ++ r)
  = (λ '(f2, v2), (f2, v ++ v2)) <$> scan (active f) (pending f ++ r).
Proof.
  remember (length t) as k eqn:Hk. revert a t f v Hk.
  induction k as [k IH] using lt_wf_ind. intros a t f v -> Hs.
  pose proof (tag_of_length a) as Htag.
  destruct (decide (t = [])) as [->|Ht].
  { rewrite scan_nil in Hs. injection Hs as <- <-. simpl.
    by destruct (scan a r) as [[??]|]. }
  assert (length t ≠ 0) by by destruct t.
  rewrite scan_step in Hs by done.
  destruct (strings.Index t (tag_of a)) as [idx|] eqn:Hidx.
  - destruct (scan (negb a) _) as [[f' v']|] eqn:Hs'; [|done].
    injection Hs as <- <-.
    apply Index_Some in Hidx as Hocc. destruct Hocc as [Hocc _].
    apply occurs_at_length in Hocc; [|lia].
    rewrite scan_step by by destruct t.
    rewrite (Index_app_Some _ r _ _ (proj1 Htag) Hidx).
    rewrite drop_app_le, take_app_le by lia.
    assert (Hlt : length (drop (idx + length (tag_of a)) t) < length t)
      by (rewrite length_drop; lia).
    rewrite (IH _ Hlt _ _ _ _ eq_refl Hs').
    destruct (scan (active f') _) as [[f2 v2]|]; [|done].
    simpl. by rewrite app_assoc.
  - injection Hs as <- <-. simpl.
    set (n := partialSuffix t (tag_of a)).
    destruct (partialSuffix_border t (tag_of a)) as (Hn1 & Hn2 & Hn3); [lia|].
    fold n in Hn1, Hn2, Hn3.
    set (x := drop (length t - n) t ++ r).
    assert (Hx : length x = n + length r).
    { unfold x. rewrite length_app, length_drop. lia. }
    assert (Ha : length (take (length t - n) t) = length t - n).
    { rewrite length_take. lia. }
    assert (Htr : t ++ r = take (length t - n) t ++ x).
    { unfold x. by rewrite app_assoc, take_drop. }
    destruct (decide (length t - n = 0)) as [H0|H0].
    { unfold x. rewrite H0, drop_0, take_0. unfold keep.
      destruct (scan a (t ++ r)) as [[??]|]; by destruct a. }
    assert (Hskip : strings.Index (t ++ r) (tag_of a)
                    = (λ j, length (take (length t - n) t) + j)
                        <$> strings.Index x (tag_of a)).
    { rewrite Htr. apply Index_app_skip. intros i Ho. rewrite <- Htr in Ho.
      rewrite Ha. by apply (occurs_after_border t r). }
    rewrite scan_step by by destruct t.
    rewrite Hskip.
    destruct (strings.Index x (tag_of a)) as [j|] eqn:Hj; simpl.
    + apply Index_Some in Hj as Hocc. destruct Hocc as [Hocc _].
      apply occurs_at_length in Hocc; [|lia].
      rewrite (scan_step a x) by (intros ->; simpl in *; lia).
      rewrite Hj, Htr.
      rewrite <- Nat.add_assoc, drop_app_add, take_app_add.
      destruct (scan (negb a) _) as [[f2 v2]|]; [|done].
      simpl. by rewrite keep_app, app_assoc.
    + rewrite (scan_None a x Hj). simpl.
      rewrite (partialSuffix_app t r (tag_of a)) by lia. fold n x.
      destruct (partialSuffix_border x (tag_of a)) as (Hm1 & Hm2 & Hm3); [lia|].
      set (m := partialSuffix x (tag_of a)) in *.
      assert (Hlen : length (t ++ r) - m
                     = length (take (length t - n) t) + (length x - m)).
      { rewrite Htr, length_app. lia. }
      rewrite Hlen, Htr. clear Hlen.
      by rewrite drop_app_add, take_app_add, keep_app.
Qed.

Lemma scan_proper_prefix a p :
  proper_prefix p (tag_of a) →
  scan a p = Some ({| active := a; pending := p |}, []).
Proof.
  intros [Hlen Hpre]. pose proof (tag_of_length a) as Htag.
  assert (Hnone : strings.Index p (tag_of a) = None).
  { apply Index_None. intros j Ho. apply occurs_at_length in Ho; lia. }
  assert (Hn : partialSuffix p (tag_of a) = length p).
  { apply partialSuffix_unique.
    - split; [done|]. split; [done|]. by rewrite Nat.sub_diag, drop_0.
    - by intros m (_ & ? & _). }
  rewrite (scan_None a p Hnone). simpl. rewrite Hn, Nat.sub_diag, drop_0.
  by destruct a.
Qed.

Lemma process_scan f c :
  (λ res, (res.1, visible res.2)) <$> process f c
  = scan (active f) (pending f ++ c).
Proof. done. Qed.

Lemma process_total f c : is_Some (process f c).
Proof.
  pose proof (scan_total (active f) (pending f ++ c)) as Hs.
  rewrite <- process_scan in Hs. by apply fmap_is_Some in Hs.
Qed.

(** Chunk after chunk, the filter is where one pass of the loop over the
    whole text would be, and has written the same visible text. *)
Lemma process_all_scan a p cs :
  proper_prefix p (tag_of a) →
  ∃ f1 o1,
    process_all {| active := a; pending := p |} cs = Some (f1, o1)
    ∧ scan a (p ++ concat cs) = Some (f1, visible o1).
Proof.
  revert a p. induction cs as [|c cs IH]; intros a p Hp.
  - exists {| active := a; pending := p |}, []. split; [done|].
    simpl. rewrite app_nil_r. by apply scan_proper_prefix.
  - destruct (process_total {| active := a; pending := p |} c) as [[f1 o1] Hproc].
    pose proof (process_scan {| active := a; pending := p |} c) as Hsc.
    rewrite Hproc in Hsc. cbn in Hsc. symmetry in Hsc.
    pose proof (scan_pending _ _ _ _ Hsc) as Hp1.
    destruct f1 as [a1 p1]. cbn [active pending] in Hp1.
    destruct (IH a1 p1 Hp1) as (f2 & o2 & Hall & Hs2).
    exists f2, (o1 ++ o2). split.
    + cbn [process_all]. rewrite Hproc. cbn. by rewrite Hall.
    + cbn [concat]. rewrite app_assoc, (scan_app _ _ _ _ _ Hsc).
      cbn [active pending]. rewrite Hs2. cbn. by rewrite visible_app.
Qed.

End ThinkFilterFacts.

(** C4. For every text and every way of cutting it into contiguous chunks,
    pushing the chunks through [process] one by one and then calling
    [flush] passes to [writeContent], in all, the same text in the same
    order as pushing the whole text in one [process] call and then calling
    [flush]; both runs return. *)
Theorem thinkFilter_chunking_invariant (text : gostring) (chunks : list gostring) :
  concat chunks = text →
  ∃ out1 out2,
    run_filter chunks = Some out1
    ∧ run_filter [text] = Some out2
    ∧ visible out1 = visible out2.
Proof.
  intros <-.
  assert (Hp0 : proper_prefix [] (tag_of false)) by (split; [simpl; lia|done]).
  destruct (process_all_scan false [] chunks Hp0) as (f1 & o1 & Hall1 & Hs1).
  destruct (process_all_scan false [] [concat chunks] Hp0) as (f2 & o2 & Hall2 & Hs2).
  cbn [concat] in Hs2. rewrite app_nil_r in Hs2. rewrite Hs1 in Hs2.
  injection Hs2 as <- Hv.
  exists (o1 ++ (flush f1).2), (o2 ++ (flush f1).2).
  unfold run_filter. rewrite Hall1, Hall2. cbn.
  split; [done|]. split; [done|]. by rewrite !visible_app, Hv.
Qed.

Lemma thinkFilter_chunking_invariant_witness :
  ∃ out1 out2,
    run_filter (list_ascii_of_string <$> ["a<th"; "ink>b</thi"; "nk>c<"]%string)
    = Some out1
    ∧ run_filter [list_ascii_of_string "a<think>b</think>c<"] = Some out2
    ∧ visible out1 = visible out2.
Proof.
  apply (thinkFilter_chunking_invariant
           (list_ascii_of_string "a<think>b</think>c<")
           (list_ascii_of_string <$> ["a<th"; "ink>b</thi"; "nk>c<"]%string)).
  reflexivity.
Defined.

(** C10. Every call of [process] returns, and leaves in [pending] a proper
    prefix of the tag of the mode the filter is then in, hence of one of
    the two markers: at most 7 bytes, the length of the longer marker
    minus one, whatever state the filter was in and however long the chunk
    is. *)
Theorem process_pending_bounded (f : thinkFilter) (chunk : gostring) :
  ∃ f' out,
    process f chunk = Some (f', out)
    ∧ length (pending f') ≤ 7
    ∧ length (pending f') ≤ length tagClose - 1
    ∧ proper_prefix (pending f') (if active f' then tagClose else tagOpen)
    ∧ (proper_prefix (pending f') tagOpen ∨ proper_prefix (pending f') tagClose).
Proof.
  destruct (process_total f chunk) as [[f' out] Hproc].
  exists f', out. split; [done|].
  pose proof (process_scan f chunk) as Hsc. rewrite Hproc in Hsc.
  cbn in Hsc. symmetry in Hsc. apply scan_pending in Hsc.
  destruct Hsc as [Hlen Hpre]. unfold proper_prefix.
  destruct (active f'); cbn [tag_of] in *; simpl length in *.
  - repeat split; try lia; try done. right. split; [simpl; lia|done].
  - repeat split; try lia; try done. left. split; [simpl; lia|done].
Qed.


(** ** doStream: tool calls accumulated across chunks *)

Section DecoderFacts.
Implicit Types (m : gmap Z ToolCall) (fs fa : list stream.streamToolCall).

Lemma accumToolCall_lookup m tc i :
  accumToolCall m tc !! i
  = if decide (stream.Index tc = i) then slot_step (m !! i) tc else m !! i.
Proof.
  unfold accumToolCall. case_decide as Hi.
  - subst i. destruct (m !! stream.Index tc); by rewrite lookup_insert_eq.
  - destruct (m !! stream.Index tc); by rewrite lookup_insert_ne.
Qed.

(** A slot of the map only sees the fragments of that slot. *)
Lemma accum_lookup m fs i :
  foldl accumToolCall m fs !! i = foldl slot_step (m !! i) (slot i fs).
Proof.
  revert m. induction fs as [|f fs IH]; intros m; [done|].
  cbn [foldl]. rewrite IH, accumToolCall_lookup. unfold slot.
  rewrite filter_cons. by case_decide.
Qed.

Lemma tcMap_decodeChoice (d : decoder) ch :
  tcMap (decodeChoice d ch)
  = foldl accumToolCall (tcMap d) (stream.ToolCalls (stream.Delta ch)).
Proof. done. Qed.

Lemma tcMap_decodeChunk (d : decoder) chunk :
  tcMap (decodeChunk d chunk)
  = foldl accumToolCall (tcMap d)
      (ch ← stream.Choices chunk; stream.ToolCalls (stream.Delta ch)).
Proof.
  unfold decodeChunk. revert d.
  induction (stream.Choices chunk) as [|ch chs IH]; intros d; [done|].
  cbn [foldl]. rewrite IH, tcMap_decodeChoice, bind_cons. by rewrite foldl_app.
Qed.

Lemma tcMap_decodeChunks (d : decoder) chunks :
  tcMap (foldl decodeChunk d chunks)
  = foldl accumToolCall (tcMap d) (fragments chunks).
Proof.
  unfold fragments. revert d.
  induction chunks as [|c cs IH]; intros d; [done|].
  cbn [foldl]. rewrite IH, tcMap_decodeChunk, bind_cons. by rewrite foldl_app.
Qed.

Lemma slot_fold_view (e : ToolCall) fs :
  call_view <$> foldl slot_step (Some e) fs
  = Some (last_nonempty (ID e) (stream.ID <$> fs),
          last_nonempty (Name (Function e)) ((stream.Name ∘ stream.Function) <$> fs),
          Arguments (Function e)
          ++ concat ((stream.Arguments ∘ stream.Function) <$> fs)).
Proof.
  revert e. induction fs as [|f fs IH]; intros e.
  - cbn. by rewrite app_nil_r.
  - change (foldl slot_step (Some e) (f :: fs))
      with (foldl slot_step (Some (merge_call e f)) fs).
    rewrite IH. cbn. by rewrite app_assoc.
Qed.

Lemma last_nonempty_whole (s init : gostring) (xs : list gostring) :
  whole_in (init :: xs) s → last_nonempty init xs = s.
Proof.
  revert init. induction xs as [|x xs IH]; intros init [Hall Hin].
  - cbn. by apply list_elem_of_singleton in Hin.
  - cbn [last_nonempty foldl]. apply Forall_cons in Hall as [Hinit Hall].
    apply Forall_cons in Hall as [Hx Hall].
    case_bool_decide as Hne.
    + apply IH. destruct Hx as [->| ->]; [done|].
      split; [by constructor; [right|]|]. by left.
    + subst x. apply IH. split; [by constructor|].
      apply elem_of_cons in Hin as [->|Hin]; [by left|].
      apply elem_of_cons in Hin as [->|Hin]; [|by right].
      destruct Hinit as [->| ->]; by left.
Qed.

(** The fragments of a slot whose id and name arrive whole add up to the
    call. *)
Lemma slot_fold_whole fs (i n a : gostring) :
  whole_in (stream.ID <$> fs) i →
  whole_in ((stream.Name ∘ stream.Function) <$> fs) n →
  cut_into ((stream.Arguments ∘ stream.Function) <$> fs) a →
  call_view <$> foldl slot_step None fs = Some (i, n, a).
Proof.
  intros Hi Hn Ha. destruct fs as [|f fs].
  { destruct Hi as [_ Hi]. by apply elem_of_nil in Hi. }
  change (foldl slot_step None (f :: fs))
    with (foldl slot_step (Some (fresh_call f)) fs).
  rewrite slot_fold_view. cbn.
  rewrite (last_nonempty_whole i), (last_nonempty_whole n); [|done..].
  by rewrite <- Ha.
Qed.

Lemma slot_absent fs i : i ∉ stream.Index <$> fs → slot i fs = [].
Proof.
  unfold slot. induction fs as [|f fs IH]; intros Hi; [done|].
  rewrite fmap_cons, not_elem_of_cons in Hi. destruct Hi as [Hne Hi].
  rewrite filter_cons, decide_False by done. by apply IH.
Qed.

Lemma slot_atomic fa a :
  atomic fa → a ∈ fa → slot (stream.Index a) fa = [a].
Proof.
  unfold atomic. induction fa as [|b fa IH]; intros Hnd Hin.
  { by apply elem_of_nil in Hin. }
  rewrite fmap_cons in Hnd. apply NoDup_cons in Hnd as [Hb Hnd].
  unfold slot. rewrite filter_cons.
  apply elem_of_cons in Hin as [->|Hin].
  - rewrite decide_True by done. f_equal. by apply slot_absent.
  - rewrite decide_False; [by apply IH|].
    intros Heq. apply Hb. rewrite Heq. by apply list_elem_of_fmap_2.
Qed.

(** An atomic stream fills each slot with the one fragment of its call. *)
Lemma atomic_lookup fa i :
  atomic fa →
  foldl accumToolCall ∅ fa !! i = fresh_call <$> head (slot i fa).
Proof.
  intros Hat. rewrite accum_lookup, lookup_empty.
  destruct (decide (i ∈ stream.Index <$> fa)) as [Hin|Hout].
  - apply list_elem_of_fmap in Hin as (a & -> & Hin).
    by rewrite (slot_atomic _ _ Hat Hin).
  - by rewrite (slot_absent _ _ Hout).
Qed.

Lemma accum_size m fa :
  NoDup (stream.Index <$> fa) →
  (∀ i, i ∈ stream.Index <$> fa → m !! i = None) →
  size (foldl accumToolCall m fa) = size m + length fa.
Proof.
  revert m. induction fa as [|a fa IH]; intros m Hnd Hfresh; [simpl; lia|].
  rewrite fmap_cons in Hnd, Hfresh. apply NoDup_cons in Hnd as [Ha Hnd].
  cbn [foldl length]. rewrite IH; [|done|].
  - unfold accumToolCall. rewrite (Hfresh (stream.Index a)) by by left.
    rewrite map_size_insert_None; [lia|]. apply Hfresh. by left.
  - intros i Hi. rewrite accumToolCall_lookup, decide_False.
    + apply Hfresh. by right.
    + intros Heq. apply Ha. by rewrite Heq.
Qed.

Lemma finalize_view m :
  call_view <$> finalize m
  = omap (λ i : nat, (call_view <$> m) !! Z.of_nat i)
         (seq 0 (size (call_view <$> m))).
Proof.
  unfold finalize. rewrite list_fmap_omap, map_size_fmap.
  apply list_omap_ext, Forall2_same_length_lookup_2; [done|].
  intros k i j Hi Hj. rewrite Hi in Hj. injection Hj as <-.
  by rewrite lookup_fmap.
Qed.

(** Fragmented or atomic, the map holds the same calls in the same slots. *)
Lemma fragmented_tcMap fa fs :
  atomic fa → fragmented fa fs →
  call_view <$> foldl accumToolCall ∅ fs
  = call_view <$> foldl accumToolCall ∅ fa.
Proof.
  intros Hat [Hidx Hcalls]. apply map_eq. intros i.
  rewrite !lookup_fmap, (atomic_lookup _ _ Hat), accum_lookup, lookup_empty.
  destruct (decide (i ∈ stream.Index <$> fa)) as [Hin|Hout].
  - apply list_elem_of_fmap in Hin as (a & -> & Hin).
    rewrite (slot_atomic _ _ Hat Hin).
    rewrite Forall_forall in Hcalls.
    destruct (Hcalls a Hin) as (Hi & Hn & Ha).
    by rewrite (slot_fold_whole _ _ _ _ Hi Hn Ha).
  - rewrite (slot_absent fa _ Hout), (slot_absent fs); [done|].
    intros (f & -> & Hf)%list_elem_of_fmap. apply Hout.
    rewrite Forall_forall in Hidx. by apply Hidx.
Qed.

End DecoderFacts.

(** C3 (amended). However the server fragments the tool calls across the
    chunks of a stream (slots in any order, the fragments of different
    slots interleaved, the arguments of a call cut into any number of
    pieces) as long as the id and the name of a call each arrive whole,
    [doStream] finalizes calls with the same ids, names and concatenated
    arguments, in the same order, as when every call arrives in a single
    fragment: the calls of the slots [0 .. n-1], [n] the number of calls,
    by ascending slot index. *)
Theorem decode_fragmented_tool_calls (chunks atomic_chunks : list stream.streamChunk) :
  atomic (fragments atomic_chunks) →
  fragmented (fragments atomic_chunks) (fragments chunks) →
  call_view <$> result_ToolCalls (decodeChunks chunks)
  = call_view <$> result_ToolCalls (decodeChunks atomic_chunks)
  ∧ call_view <$> result_ToolCalls (decodeChunks chunks)
    = omap (λ i : nat,
              (call_view ∘ fresh_call)
                <$> head (slot (Z.of_nat i) (fragments atomic_chunks)))
           (seq 0 (length (fragments atomic_chunks))).
Proof.
  intros Hat Hfr. unfold decodeChunks. cbn [result_ToolCalls].
  rewrite !tcMap_decodeChunks. cbn [tcMap].
  rewrite !finalize_view, (fragmented_tcMap _ _ Hat Hfr).
  split; [done|].
  rewrite map_size_fmap, accum_size; [|done|by intros; rewrite lookup_empty].
  rewrite map_size_empty, Nat.add_0_l.
  apply list_omap_ext, Forall2_same_length_lookup_2; [done|].
  intros k i j Hi Hj. rewrite Hi in Hj. injection Hj as <-.
  rewrite lookup_fmap, (atomic_lookup _ _ Hat).
  by destruct (head _).
Qed.


(** Closes the side conditions of a concrete stream, once computed. *)
Ltac solve_sample :=
  repeat first
    [ apply Forall_nil
    | apply Forall_cons; split
    | apply NoDup_nil_2
    | apply NoDup_cons_2
    | split ];
  first [ reflexivity | by left | by right | set_solver ].

Lemma decode_fragmented_tool_calls_witness :
  call_view <$> result_ToolCalls (decodeChunks sample_fragmented)
  = call_view <$> result_ToolCalls (decodeChunks sample_atomic)
  ∧ call_view <$> result_ToolCalls (decodeChunks sample_fragmented)
    = omap (λ i : nat,
              (call_view ∘ fresh_call)
                <$> head (slot (Z.of_nat i) (fragments sample_atomic)))
           (seq 0 (length (fragments sample_atomic))).
Proof.
  apply (decode_fragmented_tool_calls sample_fragmented sample_atomic).
  - unfold atomic. apply (bool_decide_unpack _). by vm_compute.
  - unfold fragmented, whole_in, cut_into. vm_compute. solve_sample.
Defined.

(** C3 as stated fails: a name that arrives in two pieces is not put
    together again, the last piece replaces the first. *)
Lemma decode_split_name_counterexample :
  atomic (fragments sample_whole_name)
  ∧ fragmented_as_claimed (fragments sample_whole_name) (fragments sample_split_name)
  ∧ call_view <$> result_ToolCalls (decodeChunks sample_split_name)
    = [(list_ascii_of_string "a", list_ascii_of_string "weather",
        list_ascii_of_string "{}")]
  ∧ call_view <$> result_ToolCalls (decodeChunks sample_whole_name)
    = [(list_ascii_of_string "a", list_ascii_of_string "get_weather",
        list_ascii_of_string "{}")]
  ∧ call_view <$> result_ToolCalls (decodeChunks sample_split_name)
    ≠ call_view <$> result_ToolCalls (decodeChunks sample_whole_name).
Proof.
  split; [|split; [|split; [|split]]].
  - unfold atomic. apply (bool_decide_unpack _). by vm_compute.
  - unfold fragmented_as_claimed, whole_in, cut_into. vm_compute. solve_sample.
  - by vm_compute.
  - by vm_compute.
  - by vm_compute.
Qed.


(** ** Token budget *)

Section BudgetFacts.
Local Open Scope Z_scope.

Lemma wrap64_small z : - 2 ^ 63 ≤ z < 2 ^ 63 → wrap64 z = z.
Proof. intros Hz. unfold wrap64. rewrite Z.mod_small; lia. Qed.

Lemma len_nonneg s : 0 ≤ len s.
Proof. unfold len. lia. Qed.

Lemma call_chars_pos tc : 0 < call_chars tc.
Proof.
  unfold call_chars.
  pose proof (len_nonneg (Name (Function tc))).
  pose proof (len_nonneg (Arguments (Function tc))). lia.
Qed.

Lemma calls_chars_nonneg tcs : 0 ≤ foldr (λ tc acc, call_chars tc + acc) 0 tcs.
Proof.
  induction tcs as [|tc tcs IH]; simpl; [lia|].
  pose proof (call_chars_pos tc). lia.
Qed.

Lemma message_chars_pos m : 0 < message_chars m.
Proof.
  unfold message_chars.
  pose proof (len_nonneg (Content m)). pose proof (len_nonneg (Role m)).
  pose proof (calls_chars_nonneg (ToolCalls m)). lia.
Qed.

Lemma raw_chars_nonneg ms : 0 ≤ raw_chars ms.
Proof.
  induction ms as [|m ms IH]; simpl; [lia|].
  pose proof (message_chars_pos m). lia.
Qed.

(** The inner loop over the tool calls of a message, when nothing wraps. *)
Lemma calls_loop_nowrap tcs acc :
  0 ≤ acc →
  acc + foldr (λ tc a, call_chars tc + a) 0 tcs < 2 ^ 63 →
  foldl (λ chars tc,
           wrap64 (chars
                   + wrap64 (wrap64 (len (Name (Function tc))
                                     + len (Arguments (Function tc))) + 20)))
        acc tcs
  = acc + foldr (λ tc a, call_chars tc + a) 0 tcs.
Proof.
  revert acc. induction tcs as [|tc tcs IH]; intros acc Hacc Hlt; simpl in *; [lia|].
  pose proof (calls_chars_nonneg tcs).
  pose proof (len_nonneg (Name (Function tc))).
  pose proof (len_nonneg (Arguments (Function tc))).
  unfold call_chars in *.
  rewrite (wrap64_small (len _ + len _)) by lia.
  rewrite (wrap64_small (len _ + len _ + 20)) by lia.
  rewrite (wrap64_small (acc + _)) by lia.
  rewrite IH; lia.
Qed.

Lemma messages_loop_nowrap ms acc :
  0 ≤ acc → acc + raw_chars ms < 2 ^ 63 →
  foldl (λ chars m,
    let chars :=
      wrap64 (chars + wrap64 (wrap64 (len (Content m) + len (Role m)) + 4)) in
    foldl (λ chars tc,
             wrap64 (chars
                     + wrap64 (wrap64 (len (Name (Function tc))
                                       + len (Arguments (Function tc))) + 20)))
          chars (ToolCalls m))
    acc ms
  = acc + raw_chars ms.
Proof.
  revert acc. induction ms as [|m ms IH]; intros acc Hacc Hlt; simpl in *; [lia|].
  pose proof (raw_chars_nonneg ms).
  pose proof (calls_chars_nonneg (ToolCalls m)).
  pose proof (len_nonneg (Content m)). pose proof (len_nonneg (Role m)).
  unfold message_chars in *.
  rewrite (wrap64_small (len _ + len _)) by lia.
  rewrite (wrap64_small (len _ + len _ + 4)) by lia.
  rewrite (wrap64_small (acc + _)) by lia.
  rewrite calls_loop_nowrap by lia.
  rewrite IH; lia.
Qed.

(** As long as the character count fits an [int], the estimate is a
    third of it, rounded down, plus 50. *)
Lemma estimateTokens_nowrap ms :
  raw_chars ms < 2 ^ 63 → estimateTokens ms = raw_chars ms `quot` 3 + 50.
Proof.
  intros Hlt. unfold estimateTokens. pose proof (raw_chars_nonneg ms).
  rewrite messages_loop_nowrap by lia. rewrite Z.add_0_l.
  apply wrap64_small. rewrite Z.quot_div_nonneg by lia.
  pose proof (Z.mul_div_le (raw_chars ms) 3 ltac:(lia)).
  pose proof (Z.div_pos (raw_chars ms) 3 ltac:(lia) ltac:(lia)). lia.
Qed.

End BudgetFacts.

(** [capMaxTokens] case by case, as long as nothing wraps. *)
Lemma capMaxTokens_cases (contextLimit maxTokens : Z) (messages : list Message) :
  (contextLimit < 2 ^ 63)%Z →
  (raw_chars messages < 2 ^ 63)%Z →
  (capMaxTokens contextLimit maxTokens messages
   = if bool_decide (contextLimit ≤ 0) then maxTokens
     else if bool_decide (contextLimit - estimateTokens messages < 256) then 256
     else maxTokens `min` (256 `max` (contextLimit - estimateTokens messages)))%Z.
Proof.
  intros Hcl Hraw. set (estimated := estimateTokens messages).
  pose proof (estimateTokens_nowrap messages Hraw) as Hest.
  pose proof (raw_chars_nonneg messages) as Hnn.
  assert (Hq : (0 ≤ 3 * (raw_chars messages `quot` 3) ≤ raw_chars messages)%Z).
  { rewrite Z.quot_div_nonneg by lia.
    pose proof (Z.mul_div_le (raw_chars messages) 3 ltac:(lia)).
    pose proof (Z.div_pos (raw_chars messages) 3 ltac:(lia) ltac:(lia)). lia. }
  fold estimated in Hest.
  unfold capMaxTokens. fold estimated.
  destruct (Z.leb_spec contextLimit 0).
  { by rewrite bool_decide_eq_true_2. }
  rewrite bool_decide_eq_false_2 by lia. cbv zeta.
  rewrite wrap64_small by lia.
  destruct (Z.ltb_spec (contextLimit - estimated) 256).
  { by rewrite bool_decide_eq_true_2. }
  rewrite bool_decide_eq_false_2 by lia.
  destruct (Z.ltb_spec (contextLimit - estimated) maxTokens); lia.
Qed.

(** C5 (amended). With a positive context limit [capMaxTokens] returns 256
    when [contextLimit − estimate] is below 256, whatever [maxTokens] is,
    and [min(maxTokens, max(256, contextLimit − estimate))] otherwise. With
    a context limit of 0 or less it returns [maxTokens] unchanged. The
    estimate is a third of the counted characters plus 50. *)
Theorem capMaxTokens_spec (contextLimit maxTokens : Z) (messages : list Message) :
  (contextLimit < 2 ^ 63)%Z →
  (raw_chars messages < 2 ^ 63)%Z →
  let estimated := estimateTokens messages in
  (estimated = raw_chars messages `quot` 3 + 50
   ∧ capMaxTokens contextLimit maxTokens messages
     = if bool_decide (contextLimit ≤ 0) then maxTokens
       else if bool_decide (contextLimit - estimated < 256) then 256
       else maxTokens `min` (256 `max` (contextLimit - estimated)))%Z.
Proof.
  intros Hcl Hraw estimated. split.
  - by apply estimateTokens_nowrap.
  - by apply capMaxTokens_cases.
Qed.

Lemma capMaxTokens_spec_witness :
  let estimated := estimateTokens [user_message 442] in
  (estimated = raw_chars [user_message 442] `quot` 3 + 50
   ∧ capMaxTokens 1000 500 [user_message 442]
     = if bool_decide (1000 ≤ 0) then 500
       else if bool_decide (1000 - estimated < 256) then 256
       else 500 `min` (256 `max` (1000 - estimated)))%Z.
Proof.
  apply (capMaxTokens_spec 1000 500 [user_message 442]).
  - reflexivity.
  - vm_compute. reflexivity.
Defined.

(** Whenever [maxTokens] is at least the floor, this is the formula
    [min(maxTokens, max(256, contextLimit − estimate))]. *)
Lemma capMaxTokens_formula (contextLimit maxTokens : Z) (messages : list Message) :
  (0 < contextLimit < 2 ^ 63)%Z →
  (raw_chars messages < 2 ^ 63)%Z →
  (256 ≤ maxTokens)%Z →
  capMaxTokens contextLimit maxTokens messages
  = (maxTokens `min` (256 `max` (contextLimit - estimateTokens messages)))%Z.
Proof.
  intros Hcl Hraw Hmt.
  rewrite capMaxTokens_cases by (lia || done).
  rewrite bool_decide_eq_false_2 by lia. case_bool_decide; lia.
Qed.

(** The two samples: limit 1000 and estimate 900 give 256; limit 1000,
    estimate 200 and [maxTokens] 500 give 500; a limit of 0 gives
    [maxTokens]. *)
Example capMaxTokens_samples :
  (estimateTokens [user_message 2542] = 900
   ∧ capMaxTokens 1000 500 [user_message 2542] = 256
   ∧ estimateTokens [user_message 442] = 200
   ∧ capMaxTokens 1000 500 [user_message 442] = 500
   ∧ capMaxTokens 0 500 [user_message 2542] = 500)%Z.
Proof. by vm_compute. Qed.

(** C5 as stated fails: with little room left the floor of 256 is returned
    even when [maxTokens] is smaller. Context limit 1000, estimate 900,
    [maxTokens] 100: the formula gives 100, the code 256. *)
Lemma capMaxTokens_floor_counterexample :
  (estimateTokens [user_message 2542] = 900
   ∧ capMaxTokens 1000 100 [user_message 2542] = 256
   ∧ 100 `min` (256 `max` (1000 - estimateTokens [user_message 2542])) = 100
   ∧ capMaxTokens 1000 100 [user_message 2542]
     ≠ 100 `min` (256 `max` (1000 - estimateTokens [user_message 2542])))%Z.
Proof. by vm_compute. Qed.


(** ** The tool-calling loops *)

Section EngineFacts.
Context {World : Type}.
Variable marshal : chatRequest → result gostring.
Variable NewRequest_error : gostring → option error.
Variable post : gostring → gostring → World → result chatResponse * World.
Variable unmarshal : gostring → option stream.streamChunk.
Variable TrimSpace : gostring → gostring.
Variable tools_Get : gostring → option (gostring → World → result gostring * World).
Variable quote : gostring → gostring.

Implicit Types (messages ext : list Message) (w : World) (n fuel : nat).

Lemma well_paired_app ms1 ms2 :
  well_paired ms1 → well_paired ms2 → well_paired (ms1 ++ ms2).
Proof.
  intros H1 H2. induction H1 as [|m ms ? ? ? IH|m tms ms ? ? ? ? IH]; [done| |].
  - by apply wp_plain.
  - rewrite <- app_comm_cons, <- app_assoc. by apply wp_round.
Qed.

Lemma whole_rounds_refl messages : whole_rounds messages messages.
Proof. exists []. split; [by rewrite app_nil_r|constructor]. Qed.

(** What [doStream] hands to the client: the request, unless it could
    not be built. *)
Lemma doStream_sent baseURL model messages tds mt w :
  (doStream marshal NewRequest_error post unmarshal baseURL model messages
            tds mt w).1.2
  = match requestError marshal NewRequest_error baseURL
            (chatRequest_of model messages tds mt) with
    | None => [chatRequest_of model messages tds mt]
    | Some _ => []
    end.
Proof.
  unfold doStream, requestError. destruct (marshal _) as [payload|err]; [|done].
  destruct (NewRequest_error _); [done|].
  destruct (post _ _ w) as [[resp|err] w1]; [|done].
  case_bool_decide; [done|]. by destruct (body_err resp).
Qed.

Lemma doStream_sent_nil baseURL model messages tds mt w :
  (doStream marshal NewRequest_error post unmarshal baseURL model messages
            tds mt w).1.2 = []
  ↔ is_Some (requestError marshal NewRequest_error baseURL
               (chatRequest_of model messages tds mt)).
Proof.
  rewrite doStream_sent. destruct (requestError _ _ _ _) as [err|].
  - split; [by eexists|done].
  - split; [done|]. by intros [? ?].
Qed.

Lemma doStream_sent_Forall (P : chatRequest → Prop) baseURL model messages tds mt w :
  P (chatRequest_of model messages tds mt) →
  Forall P (doStream marshal NewRequest_error post unmarshal baseURL model
                     messages tds mt w).1.2.
Proof.
  intros HP. rewrite doStream_sent.
  destruct (requestError _ _ _ _); by repeat constructor.
Qed.


(** A call of [doStream] that returns a turn has sent its request. *)
Lemma doStream_Ok baseURL model messages tds mt w res sent w' :
  doStream marshal NewRequest_error post unmarshal baseURL model messages
           tds mt w = (Ok res, sent, w') →
  sent = [chatRequest_of model messages tds mt]
  ∧ requestError marshal NewRequest_error baseURL
      (chatRequest_of model messages tds mt) = None.
Proof.
  unfold doStream, requestError. destruct (marshal _) as [payload|err]; [|done].
  destruct (NewRequest_error _); [done|].
  destruct (post _ _ w) as [[resp|err] w1]; [|done].
  case_bool_decide; [done|]. destruct (body_err resp); [done|].
  by intros [= _ <- _].
Qed.

(** The inner loop dispatches the calls in order, each in the world the
    call before it left, and appends one message for each. *)
Lemma execToolCalls_dispatched finish (exec : toolExecFunc) calls messages w :
  ∃ tms w',
    execToolCalls finish exec calls messages w = (messages ++ tms, w')
    ∧ dispatched finish exec w calls tms w'.
Proof.
  revert messages w. induction calls as [|tc calls IH]; intros messages w.
  - exists [], w. split; [by rewrite app_nil_r|constructor].
  - cbn [execToolCalls].
    destruct (exec (Name (Function tc)) (Arguments (Function tc)) w)
      as [r w1] eqn:Hex. cbv beta iota zeta.
    destruct (IH (messages
                    ++ [ {| Role := str "tool";
                            Content := finish (toolResultText r);
                            ToolCalls := []; ToolCallID := ID tc |} ]) w1)
      as (tms & w2 & Heq & Hdis).
    eexists (_ :: tms), w2. split.
    + rewrite Heq. by rewrite <- app_assoc.
    + exact (dispatched_cons finish exec w tc calls r w1 tms w2 Hex Hdis).
Qed.

Lemma dispatched_answers finish (exec : toolExecFunc (World:=World))
    w calls tms w' :
  dispatched finish exec w calls tms w' → Forall2 answers calls tms.
Proof. induction 1; constructor; [by split|done]. Qed.

(** One round: the assistant message and the messages of its calls. *)
Lemma round_well_paired finish (exec : toolExecFunc) result messages w :
  result_ToolCalls result ≠ [] →
  ∃ ext,
    (execToolCalls finish exec (result_ToolCalls result)
                   (messages ++ [assistantMessage result]) w).1
    = messages ++ ext
    ∧ well_paired ext.
Proof.
  intros Hcalls.
  destruct (execToolCalls_dispatched finish exec (result_ToolCalls result)
              (messages ++ [assistantMessage result]) w)
    as (tms & w' & Heq & Hdis).
  exists (assistantMessage result :: tms ++ []). split.
  - by rewrite Heq, app_nil_r, <- app_assoc.
  - apply wp_round; [done|done| |constructor].
    by apply dispatched_answers in Hdis.
Qed.

Section SubAgentFacts.
Variables (baseURL model : gostring) (toolDefs : list tools.Definition_).
Variables (maxTokens contextLimit maxToolResultChars : Z).
Variable execTool : option (toolExecFunc (World:=World)).

Local Abbreviation rounds :=
  (subAgentRounds marshal NewRequest_error post unmarshal TrimSpace tools_Get
                  quote baseURL model toolDefs maxTokens contextLimit
                  maxToolResultChars execTool).

(** A property of every request a run sent. *)
Lemma subAgentRounds_requests (P : list Message → chatRequest → Prop) :
  (∀ messages tds,
      P messages (chatRequest_of model messages tds
                    (capMaxTokens contextLimit maxTokens messages))) →
  (∀ messages ext req,
      well_paired ext → P (messages ++ ext) req → P messages req) →
  ∀ n round messages w,
    Forall (P messages) (run_requests (rounds n round messages w)).
Proof.
  intros Hreq Hext. induction n as [|n IH]; intros round messages w.
  - cbn [subAgentRounds]. unfold subAgentFinal.
    pose proof (doStream_sent_Forall (P messages) baseURL model messages []
                  (capMaxTokens contextLimit maxTokens messages) w (Hreq _ _))
      as Hs.
    by destruct (doStream _ _ _ _ _ _ _ _ _ _) as [[[res|err] sent] w1].
  - cbn [subAgentRounds].
    pose proof (doStream_sent_Forall (P messages) baseURL model messages toolDefs
                  (capMaxTokens contextLimit maxTokens messages) w (Hreq _ _))
      as Hs.
    destruct (doStream _ _ _ _ _ _ _ _ _ _) as [[[res|err] sent] w1];
      cbn [fst snd] in Hs; [|done].
    case_bool_decide as Hlen; [done|].
    assert (Hcalls : result_ToolCalls res ≠ []) by by intros Hnil; rewrite Hnil in Hlen.
    destruct (round_well_paired (truncateToolResult maxToolResultChars)
                (default (defaultToolExec tools_Get quote) execTool)
                res messages w1 Hcalls) as (ext & Heq & Hwp).
    fold (assistantMessage res).
    destruct (execToolCalls _ _ _ _ _) as [messages' w2]. cbn [fst] in Heq.
    subst messages'. cbn [after_requests run_requests].
    apply Forall_app. split; [done|].
    eapply Forall_impl; [apply IH|]. intros req. by apply Hext.
Qed.

(** The conversation a run ends with has grown by whole rounds. *)
Lemma subAgentRounds_messages n round messages w :
  whole_rounds messages (run_messages (rounds n round messages w)).
Proof.
  revert round messages w. induction n as [|n IH]; intros round messages w.
  - cbn [subAgentRounds]. unfold subAgentFinal.
    destruct (doStream _ _ _ _ _ _ _ _ _ _) as [[[res|err] sent] w1];
      apply whole_rounds_refl.
  - cbn [subAgentRounds].
    destruct (doStream _ _ _ _ _ _ _ _ _ _) as [[[res|err] sent] w1];
      [|apply whole_rounds_refl].
    case_bool_decide as Hlen; [apply whole_rounds_refl|].
    assert (Hcalls : result_ToolCalls res ≠ []) by by intros Hnil; rewrite Hnil in Hlen.
    destruct (round_well_paired (truncateToolResult maxToolResultChars)
                (default (defaultToolExec tools_Get quote) execTool)
                res messages w1 Hcalls) as (ext & Heq & Hwp).
    fold (assistantMessage res).
    destruct (execToolCalls _ _ _ _ _) as [messages' w2]. cbn [fst] in Heq.
    subst messages'. cbn [after_requests run_messages].
    destruct (IH (round + 1)%Z (messages ++ ext) w2) as (ext' & Heq' & Hwp').
    exists (ext ++ ext'). split; [by rewrite Heq', app_assoc|].
    by apply well_paired_app.
Qed.


(** A run sends nothing exactly when its first request cannot be built. *)
Lemma subAgentRounds_first n round messages w :
  run_requests (rounds n round messages w) = []
  ↔ is_Some (requestError marshal NewRequest_error baseURL
               (chatRequest_of model messages
                  (match n with O => [] | S _ => toolDefs end)
                  (capMaxTokens contextLimit maxTokens messages))).
Proof.
  destruct n as [|n]; cbn [subAgentRounds]; unfold subAgentFinal;
    rewrite <- (doStream_sent_nil baseURL model messages _ _ w).
  - by destruct (doStream _ _ _ _ _ _ _ _ _ _) as [[[res|err] sent] w1]; cbn.
  - destruct (doStream _ _ _ _ _ _ _ _ _ _) as [[[res|err] sent] w1] eqn:Hd;
      cbn [fst snd]; [|done].
    case_bool_decide; [done|].
    apply doStream_Ok in Hd as [-> _].
    by destruct (execToolCalls _ _ _ _ _) as [messages' w2].
Qed.


End SubAgentFacts.

Section QueryFacts.
Variables (cfg : modelConfig) (modelID : gostring).
Variables (toolDefs : list tools.Definition_).
Variable execTool : toolExecFunc (World:=World).

Local Abbreviation loop :=
  (runQuery_loop marshal NewRequest_error post unmarshal cfg modelID toolDefs
                 execTool).

Lemma runQuery_loop_S fuel messages w :
  loop (S fuel) messages w
  = match doStream marshal NewRequest_error post unmarshal (BaseURL cfg) modelID
                   messages toolDefs (Output (Limit cfg)) w with
    | (Err err, sent, w) =>
      {| run_result := Some (Err err);
         run_requests := sent; run_messages := messages; run_world := w |}
    | (Ok result, sent, w) =>
      if bool_decide (length (result_ToolCalls result) = 0) then
        {| run_result := Some (Ok (result_Content result));
           run_requests := sent; run_messages := messages; run_world := w |}
      else
        let '(messages, w) :=
          execToolCalls id execTool (result_ToolCalls result)
            (messages ++ [assistantMessage result]) w in
        after_requests sent (loop fuel messages w)
    end.
Proof. done. Qed.

Lemma runQuery_loop_requests (P : list Message → chatRequest → Prop) :
  (∀ messages,
      P messages (chatRequest_of modelID messages toolDefs (Output (Limit cfg)))) →
  (∀ messages ext req,
      well_paired ext → P (messages ++ ext) req → P messages req) →
  ∀ fuel messages w,
    Forall (P messages) (run_requests (loop fuel messages w)).
Proof.
  intros Hreq Hext. induction fuel as [|fuel IH]; intros messages w.
  - constructor.
  - cbn [runQuery_loop].
    pose proof (doStream_sent_Forall (P messages) (BaseURL cfg) modelID messages
                  toolDefs (Output (Limit cfg)) w (Hreq _)) as Hs.
    destruct (doStream _ _ _ _ _ _ _ _ _ _) as [[[res|err] sent] w1];
      cbn [fst snd] in Hs; [|done].
    case_bool_decide as Hlen; [done|].
    assert (Hcalls : result_ToolCalls res ≠ []) by by intros Hnil; rewrite Hnil in Hlen.
    destruct (round_well_paired id execTool res messages w1 Hcalls)
      as (ext & Heq & Hwp).
    fold (assistantMessage res).
    destruct (execToolCalls _ _ _ _ _) as [messages' w2]. cbn [fst] in Heq.
    subst messages'. cbn [after_requests run_requests].
    apply Forall_app. split; [done|].
    eapply Forall_impl; [apply IH|]. intros req. by apply Hext.
Qed.

(** The conversation the loop holds, however far it has run, has grown
    by whole rounds. *)
Lemma runQuery_loop_messages fuel messages w :
  whole_rounds messages (run_messages (loop fuel messages w)).
Proof.
  revert messages w. induction fuel as [|fuel IH]; intros messages w.
  - apply whole_rounds_refl.
  - cbn [runQuery_loop].
    destruct (doStream _ _ _ _ _ _ _ _ _ _) as [[[res|err] sent] w1];
      [|apply whole_rounds_refl].
    case_bool_decide as Hlen; [apply whole_rounds_refl|].
    assert (Hcalls : result_ToolCalls res ≠ []) by by intros Hnil; rewrite Hnil in Hlen.
    destruct (round_well_paired id execTool res messages w1 Hcalls)
      as (ext & Heq & Hwp).
    fold (assistantMessage res).
    destruct (execToolCalls _ _ _ _ _) as [messages' w2]. cbn [fst] in Heq.
    subst messages'. cbn [after_requests run_messages].
    destruct (IH (messages ++ ext) w2) as (ext' & Heq' & Hwp').
    exists (ext ++ ext'). split; [by rewrite Heq', app_assoc|].
    by apply well_paired_app.
Qed.

(** An iteration sends nothing exactly when its request cannot be
    built. *)
Lemma runQuery_loop_first fuel messages w :
  run_requests (loop (S fuel) messages w) = []
  ↔ is_Some (requestError marshal NewRequest_error (BaseURL cfg)
               (chatRequest_of modelID messages toolDefs (Output (Limit cfg)))).
Proof.
  cbn [runQuery_loop].
  rewrite <- (doStream_sent_nil (BaseURL cfg) modelID messages _ _ w).
  destruct (doStream _ _ _ _ _ _ _ _ _ _) as [[[res|err] sent] w1] eqn:Hd;
    cbn [fst snd]; [|done].
  case_bool_decide; [done|].
  apply doStream_Ok in Hd as [-> _].
  by destruct (execToolCalls _ _ _ _ _) as [messages' w2].
Qed.


End QueryFacts.

End EngineFacts.


Section AgentLoop.
Context {World : Type}.
Variable marshal : chatRequest → result gostring.
Variable NewRequest_error : gostring → option error.
Variable post : gostring → gostring → World → result chatResponse * World.
Variable unmarshal : gostring → option stream.streamChunk.
Variable TrimSpace : gostring → gostring.
Variable tools_Get : gostring → option (gostring → World → result gostring * World).
Variable quote : gostring → gostring.
(* doSubAgentWithTools *)
Variables (baseURL model : gostring) (toolDefs : list tools.Definition_).
Variables (maxTokens contextLimit maxRounds maxToolResultChars : Z).
Variable execTool : option (toolExecFunc (World:=World)).
(* runQuery *)
Variables (cfg : modelConfig) (modelID : gostring).
Variables (queryToolDefs : list tools.Definition_).
Variable queryExecTool : toolExecFunc (World:=World).
Variables (systemPrompt query : gostring).

Local Abbreviation subAgent :=
  (doSubAgentWithTools marshal NewRequest_error post unmarshal TrimSpace
     tools_Get quote baseURL model toolDefs maxTokens contextLimit
     maxToolResultChars execTool maxRounds).
Local Abbreviation topLevel :=
  (runQuery marshal NewRequest_error post unmarshal cfg modelID queryToolDefs
     queryExecTool systemPrompt query).
Local Abbreviation subAgentLoop :=
  (subAgentRounds marshal NewRequest_error post unmarshal TrimSpace tools_Get
     quote baseURL model toolDefs maxTokens contextLimit maxToolResultChars
     execTool).
Local Abbreviation queryLoop :=
  (runQuery_loop marshal NewRequest_error post unmarshal cfg modelID
     queryToolDefs queryExecTool).


(** C2. In the conversation of each request either loop sends, and in the
    conversation either loop holds when it returns (for [runQuery] also
    while it is still running), every assistant message with tool calls
    the loop added is followed at once by one tool-role message for each
    of its calls, in the order of the calls and each with the id of its
    call, and no other message stands between them or carries the tool
    role: the conversation [doSubAgentWithTools] was given, and the two
    messages [runQuery] starts from, grow by whole rounds only. *)
Theorem tool_messages_follow_their_calls (messages : list Message) (w : World)
    (fuel : nat) :
  Forall (grown_by_rounds messages) (run_requests (subAgent messages w))
  ∧ Forall (grown_by_rounds (initialMessages systemPrompt query))
           (run_requests (topLevel fuel w))
  ∧ Forall (λ req, well_paired (Messages req)) (run_requests (topLevel fuel w))
  ∧ whole_rounds messages (run_messages (subAgent messages w))
  ∧ whole_rounds (initialMessages systemPrompt query)
                 (run_messages (topLevel fuel w))
  ∧ well_paired (run_messages (topLevel fuel w)).
Proof.
  assert (Hreq : ∀ ms m tds mt, grown_by_rounds ms (chatRequest_of m ms tds mt)).
  { intros. exists []. split; [by rewrite app_nil_r|constructor]. }
  assert (Hext : ∀ ms ext req,
             well_paired ext → grown_by_rounds (ms ++ ext) req
             → grown_by_rounds ms req).
  { intros ms ext req Hwp (ext' & Heq & Hwp'). exists (ext ++ ext'). split.
    - by rewrite Heq, app_assoc.
    - by apply well_paired_app. }
  assert (Hinit : ∀ ext, well_paired ext
                         → well_paired (initialMessages systemPrompt query ++ ext)).
  { intros ext Hwp. apply well_paired_app; [|done].
    by repeat (apply wp_plain; [done|done|]); constructor. }
  split; [|split; [|split; [|split; [|split]]]].
  - apply (subAgentRounds_requests marshal NewRequest_error post unmarshal
             TrimSpace tools_Get quote
             baseURL model toolDefs maxTokens contextLimit maxToolResultChars
             execTool grown_by_rounds); [intros; apply Hreq|exact Hext].
  - apply (runQuery_loop_requests marshal NewRequest_error post unmarshal cfg
             modelID queryToolDefs
             queryExecTool grown_by_rounds); [intros; apply Hreq|exact Hext].
  - eapply Forall_impl.
    + apply (runQuery_loop_requests marshal NewRequest_error post unmarshal cfg
               modelID queryToolDefs
               queryExecTool grown_by_rounds); [intros; apply Hreq|exact Hext].
    + intros req (ext & -> & Hwp). by apply Hinit.
  - apply subAgentRounds_messages.
  - apply runQuery_loop_messages.
  - destruct (runQuery_loop_messages marshal NewRequest_error post unmarshal cfg
                modelID queryToolDefs queryExecTool fuel
                (initialMessages systemPrompt query) w) as (ext & Heq & Hwp).
    unfold runQuery. fold (initialMessages systemPrompt query).
    rewrite Heq. by apply Hinit.
Qed.

(** C6 (amended). Every request [doSubAgentWithTools] sends, each round
    and the forced final one, asks for [capMaxTokens] of the context
    limit, the configured output size and the conversation it carries.
    [runQuery] does not cap: every request it sends asks for the
    configured output size. *)
Theorem max_tokens_of_the_requests (messages : list Message) (w : World)
    (fuel : nat) :
  Forall (λ req, MaxTokens req
                 = capMaxTokens contextLimit maxTokens (Messages req))
         (run_requests (subAgent messages w))
  ∧ Forall (λ req, MaxTokens req = Output (Limit cfg))
           (run_requests (topLevel fuel w)).
Proof.
  split.
  - by apply (subAgentRounds_requests marshal NewRequest_error post unmarshal
                TrimSpace tools_Get quote
                baseURL model toolDefs maxTokens contextLimit maxToolResultChars
                execTool
                (λ _ req, MaxTokens req
                          = capMaxTokens contextLimit maxTokens (Messages req))).
  - by apply (runQuery_loop_requests marshal NewRequest_error post unmarshal cfg
                modelID queryToolDefs
                queryExecTool (λ _ req, MaxTokens req = Output (Limit cfg))).
Qed.

(** C7 (amended). After a turn with tool calls either loop dispatches
    the calls in order, each exactly once and in the world the call
    before it left, and appends after the assistant message of the turn,
    for each call in order, one tool-role message with the id of the
    call: its content is the result of that execution or, when it failed,
    ["error: "] and the text of the failure; only in
    [doSubAgentWithTools], and only for a positive [maxToolResultChars],
    a content longer than that, result or error, is cut to its first
    [maxToolResultChars] bytes followed by a line break and
    ["[...truncated]"]. Whatever the tools returned, the loop then goes
    on, in the world the last call left, to its next round: its next
    model request is sent unless it cannot be built. *)
Theorem tool_results_are_appended (n fuel : nat) (round : Z)
    (messages : list Message) (w : World) :
  match doStream marshal NewRequest_error post unmarshal baseURL model messages
                 toolDefs (capMaxTokens contextLimit maxTokens messages) w with
  | (Ok res, sent, w1) =>
    result_ToolCalls res = []
    ∨ ∃ tms w2,
        dispatched (truncateToolResult maxToolResultChars)
                   (default (defaultToolExec tools_Get quote) execTool)
                   w1 (result_ToolCalls res) tms w2
        ∧ subAgentLoop (S n) round messages w
          = after_requests sent
              (subAgentLoop n (round + 1)%Z
                 (messages ++ assistantMessage res :: tms) w2)
        ∧ (is_Some (requestError marshal NewRequest_error baseURL
                      (chatRequest_of model
                         (messages ++ assistantMessage res :: tms)
                         (match n with O => [] | S _ => toolDefs end)
                         (capMaxTokens contextLimit maxTokens
                            (messages ++ assistantMessage res :: tms))))
           ∨ run_requests
               (subAgentLoop n (round + 1)%Z
                  (messages ++ assistantMessage res :: tms) w2) ≠ [])
  | (Err _, _, _) => True
  end
  ∧ match doStream marshal NewRequest_error post unmarshal (BaseURL cfg) modelID
                   messages queryToolDefs (Output (Limit cfg)) w with
    | (Ok res, sent, w1) =>
      result_ToolCalls res = []
      ∨ ∃ tms w2,
          dispatched id queryExecTool w1 (result_ToolCalls res) tms w2
          ∧ queryLoop (S (S fuel)) messages w
            = after_requests sent
                (queryLoop (S fuel) (messages ++ assistantMessage res :: tms) w2)
          ∧ (is_Some (requestError marshal NewRequest_error (BaseURL cfg)
                        (chatRequest_of modelID
                           (messages ++ assistantMessage res :: tms)
                           queryToolDefs (Output (Limit cfg))))
             ∨ run_requests
                 (queryLoop (S fuel) (messages ++ assistantMessage res :: tms) w2)
               ≠ [])
    | (Err _, _, _) => True
    end.
Proof.
  split.
  - destruct (doStream _ _ _ _ baseURL _ _ _ _ _) as [[[res|err] sent] w1] eqn:Hd;
      [|done].
    destruct (decide (result_ToolCalls res = [])) as [Hnil|Hcalls]; [by left|right].
    destruct (execToolCalls_dispatched (truncateToolResult maxToolResultChars)
                (default (defaultToolExec tools_Get quote) execTool)
                (result_ToolCalls res) (messages ++ [assistantMessage res]) w1)
      as (tms & w2 & Hex & Hdis).
    rewrite <- app_assoc in Hex.
    exists tms, w2. split; [done|]. split.
    + cbn [subAgentRounds]. rewrite Hd.
      rewrite bool_decide_eq_false_2 by by destruct (result_ToolCalls res).
      fold (assistantMessage res). by rewrite Hex.
    + destruct (requestError _ _ _ _) as [err|] eqn:Hb; [left; by eexists|right].
      intros Hnone. apply subAgentRounds_first in Hnone.
      rewrite Hb in Hnone. by destruct Hnone.
  - destruct (doStream _ _ _ _ (BaseURL cfg) _ _ _ _ _)
      as [[[res|err] sent] w1] eqn:Hd; [|done].
    destruct (decide (result_ToolCalls res = [])) as [Hnil|Hcalls]; [by left|right].
    destruct (execToolCalls_dispatched id queryExecTool
                (result_ToolCalls res) (messages ++ [assistantMessage res]) w1)
      as (tms & w2 & Hex & Hdis).
    rewrite <- app_assoc in Hex.
    exists tms, w2. split; [done|]. split.
    + rewrite runQuery_loop_S. rewrite Hd.
      rewrite bool_decide_eq_false_2 by by destruct (result_ToolCalls res).
      by rewrite Hex.
    + destruct (requestError _ _ _ _) as [err|] eqn:Hb; [left; by eexists|right].
      intros Hnone. apply runQuery_loop_first in Hnone.
      rewrite Hb in Hnone. by destruct Hnone.
Qed.

End AgentLoop.


(** ** The loops against a scripted server *)




(** The scenario of a first turn with the two calls [a] and [b]: the
    second request carries the system and the user message, the assistant
    message with the two calls, then the tool messages of [a] and of [b]. *)
Example two_calls_scenario :
  Messages <$> run_requests (toy_runQuery two_then_text (str "q") 5)
  = [ initialMessages (str "sys") (str "q");
      initialMessages (str "sys") (str "q")
      ++ [ assistantMessage toy_turn;
           {| Role := str "tool"; Content := str "found";
              ToolCalls := []; ToolCallID := str "a" |};
           {| Role := str "tool"; Content := str "error: boom";
              ToolCalls := []; ToolCallID := str "b" |} ] ]
  ∧ ID <$> result_ToolCalls toy_turn = [str "a"; str "b"]
  ∧ run_result (toy_runQuery two_then_text (str "q") 5) = Some (Ok (str "done")).
Proof. by vm_compute. Qed.

(** C6 as stated fails for [runQuery]: the request of its second round
    asks for the configured 500 tokens where [capMaxTokens] of the context
    limit 1000 and the conversation, then over 3000 characters long, is
    256. *)
Lemma runQuery_does_not_cap :
  ∃ req,
    run_requests (toy_runQuery two_then_text (replicate 3000 "a"%char) 2) !! 1
    = Some req
    ∧ MaxTokens req = 500%Z
    ∧ capMaxTokens (Context (Limit toy_cfg)) (Output (Limit toy_cfg)) (Messages req)
      = 256%Z
    ∧ MaxTokens req
      ≠ capMaxTokens (Context (Limit toy_cfg)) (Output (Limit toy_cfg)) (Messages req).
Proof.
  eexists. split; [by vm_compute|]. by vm_compute.
Qed.

(** The first turn of [two_then_text] in either loop: the calls [a] and
    [b] are dispatched from the world the model request left, the failure
    of [b] is answered with its text, cut in [doSubAgentWithTools], and
    the next request goes out. *)
Lemma tool_results_are_appended_witness :
  (∃ tms w2,
      dispatched (truncateToolResult 5)
                 (default (defaultToolExec (λ _, None) id) (Some toy_exec))
                 1 (result_ToolCalls toy_turn) tms w2
      ∧ subAgentRounds toy_marshal toy_NewRequest_error (toy_post two_then_text)
          toy_unmarshal id (λ _, None) id
          (str "http://localhost") (str "m") toy_tools 500 1000 5 (Some toy_exec)
          2 0 (initialMessages (str "sys") (str "q")) 0
        = after_requests
            [chatRequest_of (str "m") (initialMessages (str "sys") (str "q"))
               toy_tools (capMaxTokens 1000 500 (initialMessages (str "sys") (str "q")))]
            (subAgentRounds toy_marshal toy_NewRequest_error
               (toy_post two_then_text) toy_unmarshal id (λ _, None) id
               (str "http://localhost") (str "m") toy_tools 500 1000 5
               (Some toy_exec) 1 (0 + 1)%Z
               (initialMessages (str "sys") (str "q") ++ assistantMessage toy_turn :: tms)
               w2)
      ∧ run_requests
          (subAgentRounds toy_marshal toy_NewRequest_error
             (toy_post two_then_text) toy_unmarshal id (λ _, None) id
             (str "http://localhost") (str "m") toy_tools 500 1000 5
             (Some toy_exec) 1 (0 + 1)%Z
             (initialMessages (str "sys") (str "q") ++ assistantMessage toy_turn :: tms)
             w2) ≠ [])
  ∧ (∃ tms w2,
      dispatched id toy_exec 1 (result_ToolCalls toy_turn) tms w2
      ∧ runQuery_loop toy_marshal toy_NewRequest_error (toy_post two_then_text)
          toy_unmarshal toy_cfg (str "m")
          toy_tools toy_exec 2 (initialMessages (str "sys") (str "q")) 0
        = after_requests
            [chatRequest_of (str "m") (initialMessages (str "sys") (str "q"))
               toy_tools (Output (Limit toy_cfg))]
            (runQuery_loop toy_marshal toy_NewRequest_error
               (toy_post two_then_text) toy_unmarshal toy_cfg (str "m")
               toy_tools toy_exec 1
               (initialMessages (str "sys") (str "q") ++ assistantMessage toy_turn :: tms)
               w2)
      ∧ run_requests
          (runQuery_loop toy_marshal toy_NewRequest_error
             (toy_post two_then_text) toy_unmarshal toy_cfg (str "m")
             toy_tools toy_exec 1
             (initialMessages (str "sys") (str "q") ++ assistantMessage toy_turn :: tms)
             w2) ≠ []).
Proof.
  destruct (tool_results_are_appended toy_marshal toy_NewRequest_error
              (toy_post two_then_text) toy_unmarshal id
              (λ _, None) id (str "http://localhost") (str "m") toy_tools 500 1000 5
              (Some toy_exec) toy_cfg (str "m") toy_tools toy_exec 1 0 0
              (initialMessages (str "sys") (str "q")) 0) as [H1 H2].
  split.
  - destruct H1 as [H1|(tms & w2 & Hdis & Heq & [[err Herr]|Hne])];
      [discriminate H1|discriminate Herr|].
    by exists tms, w2.
  - destruct H2 as [H2|(tms & w2 & Hdis & Heq & [[err Herr]|Hne])];
      [discriminate H2|discriminate Herr|].
    by exists tms, w2.
Defined.

(** C7 as stated fails in [doSubAgentWithTools]: the text of a failure is
    cut like a result. With [maxToolResultChars] 5 the failure ["boom"] of
    the call [b] is appended as ["error"], a line break and
    ["[...truncated]"], not as ["error: boom"]. *)
Lemma long_error_is_truncated :
  toy_exec (str "fail") (str "{}") 0 = (Err (str "boom"), 0)
  ∧ ∃ m,
      run_messages (toy_subAgent two_then_text 5 5
                      (initialMessages (str "sys") (str "q")) 0) !! 4 = Some m
      ∧ Role m = str "tool"
      ∧ ToolCallID m = str "b"
      ∧ Content m = str "error" ++ "010"%char :: str "[...truncated]"
      ∧ Content m ≠ str "error: " ++ str "boom".
Proof.
  split; [reflexivity|]. eexists. split; [by vm_compute|]. by vm_compute.
Qed.


(** ** The MCP client *)

Section ClientFacts.
Context {World : Type}.
Variable Do : mcp.httpRequest → World → result mcp.httpResponse * World.
Variable marshal : mcp.jsonRPCRequest → result gostring.
Variable NewRequest_error : gostring → option error.
Variable canon : gostring → gostring.
Variable unmarshal : gostring → option mcp.response.jsonRPCResponse.
Variable decode : gostring → result mcp.response.jsonRPCResponse.

Local Abbreviation rpcCall := (mcp.rpcCall Do marshal NewRequest_error canon unmarshal decode).
Local Abbreviation rpcNotify := (mcp.rpcNotify Do marshal NewRequest_error canon).
Local Abbreviation exchanges :=
  (mcp.exchanges Do marshal NewRequest_error canon unmarshal decode).

Lemma parseSSE_lines_cons line rest :
  mcp.parseSSE_lines unmarshal (line :: rest)
  = match mcp.carried unmarshal line with
    | Some rpcResp => Some rpcResp
    | None => mcp.parseSSE_lines unmarshal rest
    end.
Proof.
  cbn [mcp.parseSSE_lines]. unfold mcp.carried, strings.TrimPrefix.
  destruct (strings.HasPrefix line (str "data: ")); [|done].
  cbn [negb]. destruct (unmarshal _) as [rpcResp|]; [|done].
  cbn. by destruct (mcp.response.ID rpcResp).
Qed.







Lemma newRequest_session (s : mcp.MCPServer) payload :
  mcp.sessionID s ≠ [] →
  mcp.session_of canon (mcp.newRequest canon s payload) = Some (mcp.sessionID s).
Proof.
  intros Hs. unfold mcp.session_of, mcp.newRequest. cbn [mcp.req_Header].
  rewrite bool_decide_eq_true_2 by done. unfold mcp.Header_Set at 1.
  apply lookup_insert_eq.
Qed.

Lemma rpcCall_sent s req w r :
  mcp.ex_sent (rpcCall s req w) = Some r →
  ∃ payload, r = mcp.newRequest canon s payload.
Proof.
  unfold mcp.rpcCall. destruct (marshal req) as [payload|err]; [|done].
  destruct (NewRequest_error _); [done|].
  destruct (Do _ w) as [[resp|err] w1]; [|intros [= <-]; by eexists].
  case_bool_decide; intros [= <-]; by eexists.
Qed.

Lemma rpcNotify_sent s req w r :
  mcp.ex_sent (rpcNotify s req w) = Some r →
  ∃ payload, r = mcp.newRequest canon s payload.
Proof.
  unfold mcp.rpcNotify. destruct (marshal req) as [payload|err]; [|done].
  destruct (NewRequest_error _); [done|].
  destruct (Do _ w) as [[resp|err] w1]; intros [= <-]; by eexists.
Qed.

(** [rpcCall] stores the token of a response with status 200, and
    nothing else changes what is stored. *)
Lemma rpcCall_stores s req w :
  mcp.sessionID (mcp.ex_server (rpcCall s req w))
  = last_nonempty (mcp.sessionID s)
      [mcp.accepted canon
         {| mcp.lg_call := mcp.Call req; mcp.lg_stored := mcp.sessionID s;
            mcp.lg_sent := mcp.ex_sent (rpcCall s req w);
            mcp.lg_response := mcp.ex_response (rpcCall s req w) |}].
Proof.
  unfold mcp.accepted, last_nonempty. cbn [foldl mcp.lg_call mcp.lg_response].
  unfold mcp.rpcCall. destruct (marshal req) as [payload|err]; [|done].
  destruct (NewRequest_error _); [done|].
  destruct (Do _ w) as [[resp|err] w1]; [|done].
  case_bool_decide as Hst; cbn [mcp.ex_server mcp.ex_response].
  - rewrite (bool_decide_eq_false_2 (mcp.StatusCode resp = 200%Z)) by done.
    by rewrite bool_decide_eq_false_2 by (intros Hne; by apply Hne).
  - rewrite (bool_decide_eq_true_2 (mcp.StatusCode resp = 200%Z)) by done.
    by case_bool_decide.
Qed.

Lemma rpcNotify_keeps s req w :
  mcp.sessionID (mcp.ex_server (rpcNotify s req w)) = mcp.sessionID s.
Proof.
  unfold mcp.rpcNotify. destruct (marshal req) as [payload|err]; [|done].
  destruct (NewRequest_error _); [done|].
  by destruct (Do _ w) as [[resp|err] w1].
Qed.

(** Through a sequence of exchanges: what is stored before each, what
    each request carries, what is stored at the end. *)
Lemma exchanges_sessions calls s w :
  let '(log, s', _) := exchanges s calls w in
  mcp.sessionID s' = last_nonempty (mcp.sessionID s) (mcp.accepted canon <$> log)
  ∧ ∀ pre e post,
      log = pre ++ e :: post →
      mcp.lg_stored e
      = last_nonempty (mcp.sessionID s) (mcp.accepted canon <$> pre)
      ∧ ∀ r, mcp.lg_sent e = Some r → mcp.lg_stored e ≠ [] →
             mcp.session_of canon r = Some (mcp.lg_stored e).
Proof.
  revert s w. induction calls as [|c calls IH]; intros s w.
  { cbn. split; [done|]. by intros [|??] ???. }
  cbn [mcp.exchanges].
  set (step := match c with
               | mcp.Call req =>
                 (mcp.ex_sent (rpcCall s req w), mcp.ex_response (rpcCall s req w),
                  mcp.ex_server (rpcCall s req w), mcp.ex_world (rpcCall s req w))
               | mcp.Notify req =>
                 (mcp.ex_sent (rpcNotify s req w), mcp.ex_response (rpcNotify s req w),
                  mcp.ex_server (rpcNotify s req w), mcp.ex_world (rpcNotify s req w))
               end).
  assert (Hstep :
    mcp.sessionID step.1.2
    = last_nonempty (mcp.sessionID s)
        [mcp.accepted canon
           {| mcp.lg_call := c; mcp.lg_stored := mcp.sessionID s;
              mcp.lg_sent := step.1.1.1; mcp.lg_response := step.1.1.2 |}]
    ∧ ∀ r, step.1.1.1 = Some r → ∃ payload, r = mcp.newRequest canon s payload).
  { unfold step. destruct c as [req|req]; cbn [fst snd].
    - split; [apply rpcCall_stores|apply rpcCall_sent].
    - split; [by rewrite rpcNotify_keeps|apply rpcNotify_sent]. }
  destruct step as [[[sent resp] s1] w1]. cbn [fst snd] in Hstep.
  destruct Hstep as [Hstored Hsent].
  specialize (IH s1 w1). destruct (exchanges s1 calls w1) as [[log s2] w2].
  destruct IH as [IHfinal IHlog]. split.
  - rewrite IHfinal, Hstored. done.
  - intros [|e0 pre] e post Heq.
    + injection Heq as <- <-. cbn. split; [done|].
      intros r Hr Hne. destruct (Hsent r Hr) as [payload ->].
      by apply newRequest_session.
    + injection Heq as <- Heq. destruct (IHlog pre e post Heq) as [Hst Hcarry].
      split; [|done]. rewrite Hst, Hstored. done.
Qed.

(** C9 (amended). Through every sequence of rpc calls and notifications
    of a connection, each outgoing request carries the session token the
    connection holds, once it holds one: the token of the latest
    response to an [rpcCall] that came with status 200 and a token, or
    the token the connection started with. Such a response replaces the
    stored token; the response to a notification, and a response with
    another status, never do. *)
Theorem session_token_is_echoed (s : mcp.MCPServer) (calls : list mcp.call)
    (w : World) (pre post : list mcp.logged) (e : mcp.logged)
    (r : mcp.httpRequest) :
  (exchanges s calls w).1.1 = pre ++ e :: post →
  mcp.lg_sent e = Some r →
  last_nonempty (mcp.sessionID s) (mcp.accepted canon <$> pre) ≠ [] →
  mcp.session_of canon r
  = Some (last_nonempty (mcp.sessionID s) (mcp.accepted canon <$> pre))
  ∧ mcp.sessionID (exchanges s calls w).1.2
    = last_nonempty (mcp.sessionID s)
        (mcp.accepted canon <$> (exchanges s calls w).1.1).
Proof.
  intros Hlog Hsent Hne. pose proof (exchanges_sessions calls s w) as H.
  destruct (exchanges s calls w) as [[log s'] w']. cbn [fst snd] in *.
  destruct H as [Hfinal Hall]. split; [|done].
  destruct (Hall pre e post Hlog) as [Hst Hcarry].
  rewrite <- Hst. apply Hcarry; [done|]. by rewrite Hst.
Qed.

End ClientFacts.




Lemma session_token_is_echoed_witness :
  ∃ e1 e2 e3 r,
    (toy_exchanges toy_server toy_handshake).1.1 = [e1; e2] ++ e3 :: []
    ∧ mcp.lg_sent e3 = Some r
    ∧ last_nonempty (mcp.sessionID toy_server) (mcp.accepted id <$> [e1; e2]) = str "S1"
    ∧ mcp.session_of id r
      = Some (last_nonempty (mcp.sessionID toy_server) (mcp.accepted id <$> [e1; e2]))
    ∧ mcp.sessionID (toy_exchanges toy_server toy_handshake).1.2
      = last_nonempty (mcp.sessionID toy_server)
          (mcp.accepted id <$> (toy_exchanges toy_server toy_handshake).1.1).
Proof.
  eexists _, _, _, _.
  split; [by vm_compute|]. split; [reflexivity|]. split; [by vm_compute|].
  eapply (session_token_is_echoed toy_Do (λ req, Ok (mcp.Method req)) (λ _, None) id
            toy_rpc_unmarshal (λ _, Err (str "not JSON")) toy_server toy_handshake 0).
  - reflexivity.
  - reflexivity.
  - by vm_compute.
Defined.

(** C9 as stated fails: a token that comes with the response to a
    notification is not stored. In the handshake the server sends [S1]
    with the answer to [initialize] and [S2] with the answer to the
    notification; the [tools/list] request still carries [S1]. *)
Lemma notification_token_is_dropped :
  ∃ e1 e2 e3 r,
    (toy_exchanges toy_server toy_handshake).1.1 = [e1; e2; e3]
    ∧ mcp.received id e1 = str "S1"
    ∧ mcp.received id e2 = str "S2"
    ∧ mcp.lg_sent e3 = Some r
    ∧ mcp.session_of id r = Some (str "S1")
    ∧ mcp.session_of id r ≠ Some (mcp.received id e2).
Proof.
  eexists _, _, _, _. split; [by vm_compute|]. by vm_compute.
Qed.


(* ================================================================== *)
(** * Further properties of the code *)
(* ================================================================== *)

(** ** thinkFilter and partialSuffix *)

Lemma occurs_at_split (s sub : gostring) (i : nat) :
  occurs_at s sub i → s = take i s ++ sub ++ drop (i + length sub) s.
Proof.
  unfold occurs_at. intros Ho.
  rewrite <- (take_drop i s) at 1. f_equal.
  rewrite <- (take_drop (length sub) (drop i s)), Ho. f_equal.
  by rewrite drop_drop.
Qed.

Lemma render_app (o1 o2 : list emit) : render (o1 ++ o2) = render o1 ++ render o2.
Proof. unfold render. by rewrite fmap_app, concat_app. Qed.

Lemma render_cons (e : emit) (o : list emit) :
  render (e :: o) = render_emit e ++ render o.
Proof. done. Qed.

Lemma process_loop_render (fuel : nat) (f f' : thinkFilter) (out : list emit) :
  process_loop fuel f = Some (f', out) → render out ++ pending f' = pending f.
Proof.
  revert f f' out. induction fuel as [|fuel IH]; intros [a p] f' out.
  - cbn. destruct p; [|done]. by intros [= <- <-].
  - cbn [process_loop pending active]. destruct p as [|c p]; [by intros [= <- <-]|].
    generalize (c :: p). clear c p. intros q. destruct a; cbn [negb].
    + destruct (strings.Index q tagClose) as [idx|] eqn:Hidx.
      * destruct (process_loop fuel _) as [[f1 o1]|] eqn:Hrec; [|done].
        cbn [mbind option_bind]. intros [= <- <-]. apply IH in Hrec. cbn [pending] in Hrec.
        apply Index_Some in Hidx as [Ho _]. apply occurs_at_split in Ho.
        rewrite render_app, render_cons. cbn [render_emit].
        rewrite <- !app_assoc, Hrec. rewrite Ho at 3. f_equal.
        destruct idx; [by rewrite take_0|]. cbn [Nat.ltb Nat.leb].
        by rewrite render_cons, app_nil_r.
      * cbv zeta. generalize (length q - partialSuffix q tagClose). intros k.
        destruct (0 <? partialSuffix q tagClose).
        -- intros [= <- <-]. cbn [pending]. case_bool_decide as Hsafe.
           ++ change (render []) with (@nil ascii). rewrite app_nil_l.
              rewrite <- (take_drop k q) at 2. by rewrite Hsafe.
           ++ rewrite render_cons. cbn [render_emit]. change (render []) with (@nil ascii).
              by rewrite app_nil_r, take_drop.
        -- rewrite process_loop_nil. cbn [mbind option_bind]. intros [= <- <-].
           rewrite render_cons. cbn [render_emit pending]. change (render []) with (@nil ascii).
           by rewrite !app_nil_r.
    + destruct (strings.Index q tagOpen) as [idx|] eqn:Hidx.
      * destruct (process_loop fuel _) as [[f1 o1]|] eqn:Hrec; [|done].
        cbn [mbind option_bind]. intros [= <- <-]. apply IH in Hrec. cbn [pending] in Hrec.
        apply Index_Some in Hidx as [Ho _]. apply occurs_at_split in Ho.
        rewrite render_app, render_cons. cbn [render_emit].
        rewrite <- !app_assoc, Hrec. rewrite Ho at 3. f_equal.
        destruct idx; [by rewrite take_0|]. cbn [Nat.ltb Nat.leb].
        by rewrite render_cons, app_nil_r.
      * cbv zeta. generalize (length q - partialSuffix q tagOpen). intros k.
        destruct (0 <? partialSuffix q tagOpen).
        -- intros [= <- <-]. cbn [pending].
           rewrite render_cons. cbn [render_emit]. change (render []) with (@nil ascii).
           by rewrite app_nil_r, take_drop.
        -- rewrite process_loop_nil. cbn [mbind option_bind]. intros [= <- <-].
           rewrite render_cons. cbn [render_emit pending]. change (render []) with (@nil ascii).
           by rewrite !app_nil_r.
Qed.

(** X1. [process] loses and reorders nothing: the text of its callbacks,
    with the recognized tags put back, followed by what it leaves in
    [pending], is what was in [pending] followed by the chunk. *)
Theorem process_keeps_every_byte (f : thinkFilter) (chunk : gostring) :
  ∃ f' out,
    process f chunk = Some (f', out)
    ∧ render out ++ pending f' = pending f ++ chunk.
Proof.
  destruct (process_total f chunk) as [[f' out] Hproc].
  exists f', out. split; [done|].
  unfold process in Hproc. by apply process_loop_render in Hproc.
Qed.


(** X2. A text in which ["<think>"] does not occur reaches [writeContent]
    whole and unchanged, however it is cut into chunks. *)
Theorem text_without_think_passes_through (chunks : list gostring) :
  strings.Index (concat chunks) tagOpen = None →
  ∃ out, run_filter chunks = Some out ∧ visible out = concat chunks.
Proof.
  intros Hnone.
  assert (Hp0 : proper_prefix [] (tag_of false)) by (split; [simpl; lia|done]).
  destruct (process_all_scan false [] chunks Hp0) as (f1 & o1 & Hall & Hs).
  rewrite app_nil_l, (scan_None false _ Hnone) in Hs. cbv zeta in Hs.
  unfold run_filter. rewrite Hall. cbn [mbind option_bind].
  eexists. split; [reflexivity|]. rewrite visible_app.
  revert Hs.
  generalize (length (concat chunks) - partialSuffix (concat chunks) (tag_of false)).
  intros k [= <- Hv]. rewrite <- Hv. unfold keep, flush. cbn [pending active].
  pose proof (take_drop k (concat chunks)) as Htd.
  destruct (drop k (concat chunks)) as [|c rest].
  - exact Htd.
  - cbn [snd visible]. by rewrite app_nil_r.
Qed.

Lemma text_without_think_passes_through_witness :
  strings.Index (concat (str <$> ["a < b, and <thi"; "s> is no tag"]%string)) tagOpen
  = None
  ∧ ∃ out,
      run_filter (str <$> ["a < b, and <thi"; "s> is no tag"]%string) = Some out
      ∧ visible out = concat (str <$> ["a < b, and <thi"; "s> is no tag"]%string).
Proof.
  split; [by vm_compute|].
  apply (text_without_think_passes_through
           (str <$> ["a < b, and <thi"; "s> is no tag"]%string)).
  by vm_compute.
Defined.

Lemma protocol_app (a : bool) (o1 o2 : list emit) :
  protocol a (o1 ++ o2) = protocol a o1 ≫= λ a', protocol a' o2.
Proof.
  revert a. induction o1 as [|e o1 IH]; intros a; [done|].
  destruct e, a; cbn; done || apply IH.
Qed.

Lemma process_loop_protocol (fuel : nat) (f f' : thinkFilter) (out : list emit) :
  process_loop fuel f = Some (f', out) → protocol (active f) out = Some (active f').
Proof.
  revert f f' out. induction fuel as [|fuel IH]; intros [a p] f' out.
  - cbn. destruct p; [|done]. by intros [= <- <-].
  - cbn [process_loop pending active]. destruct p as [|c p]; [by intros [= <- <-]|].
    generalize (c :: p). clear c p. intros q. destruct a; cbn [negb].
    + destruct (strings.Index q tagClose) as [idx|].
      * destruct (process_loop fuel _) as [[f1 o1]|] eqn:Hrec; [|done].
        cbn [mbind option_bind]. intros [= <- <-]. apply IH in Hrec.
        cbn [active] in Hrec. rewrite protocol_app.
        by destruct (0 <? idx).
      * cbv zeta. generalize (length q - partialSuffix q tagClose). intros k.
        destruct (0 <? partialSuffix q tagClose).
        -- intros [= <- <-]. by case_bool_decide.
        -- rewrite process_loop_nil. cbn [mbind option_bind]. by intros [= <- <-].
    + destruct (strings.Index q tagOpen) as [idx|].
      * destruct (process_loop fuel _) as [[f1 o1]|] eqn:Hrec; [|done].
        cbn [mbind option_bind]. intros [= <- <-]. apply IH in Hrec.
        cbn [active] in Hrec. rewrite protocol_app.
        by destruct (0 <? idx).
      * cbv zeta. generalize (length q - partialSuffix q tagOpen). intros k.
        destruct (0 <? partialSuffix q tagOpen).
        -- by intros [= <- <-].
        -- rewrite process_loop_nil. cbn [mbind option_bind]. by intros [= <- <-].
Qed.

Lemma process_all_protocol (chunks : list gostring) (f f' : thinkFilter)
    (out : list emit) :
  process_all f chunks = Some (f', out) →
  protocol (active f) out = Some (active f').
Proof.
  revert f f' out. induction chunks as [|c cs IH]; intros f f' out.
  - by intros [= <- <-].
  - cbn [process_all]. destruct (process f c) as [[f1 o1]|] eqn:Hp; [|done].
    cbn [mbind option_bind]. destruct (process_all f1 cs) as [[f2 o2]|] eqn:Hall; [|done].
    cbn [mbind option_bind]. intros [= <- <-].
    unfold process in Hp. apply process_loop_protocol in Hp. cbn [active] in Hp.
    apply IH in Hall. by rewrite protocol_app, Hp.
Qed.

(** X3. The callbacks of a filter keep to the two modes: content is
    written only outside a think block and thinking only inside, a block
    is opened only outside and closed only inside, so [onThinkStart] and
    [onThinkEnd] alternate; the mode the callbacks end in is the [active]
    the filter is left with. This holds for each [process], for [flush],
    and for a whole stream pushed through a fresh filter. *)
Theorem callbacks_follow_the_modes (f : thinkFilter) (chunk : gostring)
    (chunks : list gostring) :
  (∃ f' out, process f chunk = Some (f', out)
             ∧ protocol (active f) out = Some (active f'))
  ∧ protocol (active f) (flush f).2 = Some (active (flush f).1)
  ∧ ∃ out a, run_filter chunks = Some out ∧ protocol false out = Some a.
Proof.
  split; [|split].
  - destruct (process_total f chunk) as [[f' out] Hproc]. exists f', out.
    split; [done|]. unfold process in Hproc.
    by apply process_loop_protocol in Hproc.
  - destruct f as [a p]. unfold flush. cbn [pending active].
    destruct p; [done|]. by destruct a.
  - assert (Hp0 : proper_prefix [] (tag_of false)) by (split; [simpl; lia|done]).
    destruct (process_all_scan false [] chunks Hp0) as (f1 & o1 & Hall & _).
    unfold run_filter. rewrite Hall. cbn [mbind option_bind].
    apply process_all_protocol in Hall. cbn [active] in Hall.
    exists (o1 ++ (flush f1).2), (active (flush f1).1). split; [done|].
    rewrite protocol_app, Hall. cbn [mbind option_bind].
    destruct f1 as [a p]. unfold flush. cbn [pending active].
    destruct p; [done|]. by destruct a.
Qed.

(** X4. For a non-empty tag [partialSuffix] returns the length of the
    longest suffix of [s] that is a proper prefix of [tag] (0 when there
    is none): the whole tag at the end of [s] does not count. *)
Theorem partialSuffix_longest_proper_prefix (s tag : gostring) :
  0 < length tag →
  partialSuffix s tag < length tag
  ∧ partialSuffix s tag ≤ length s
  ∧ drop (length s - partialSuffix s tag) s = take (partialSuffix s tag) tag
  ∧ ∀ m, m < length tag → m ≤ length s →
         drop (length s - m) s = take m tag → m ≤ partialSuffix s tag.
Proof.
  intros Hpos. destruct (partialSuffix_border s tag Hpos) as (H1 & H2 & H3).
  repeat split; [done..|].
  intros m Hm1 Hm2 Hm3. by apply partialSuffix_longest.
Qed.

Lemma partialSuffix_longest_proper_prefix_witness :
  0 < length tagOpen
  ∧ partialSuffix (str "ab<think><th") tagOpen = 3
  ∧ partialSuffix (str "ab<think><th") tagOpen < length tagOpen
  ∧ partialSuffix (str "ab<think><th") tagOpen ≤ length (str "ab<think><th")
  ∧ drop (length (str "ab<think><th") - partialSuffix (str "ab<think><th") tagOpen)
         (str "ab<think><th")
    = take (partialSuffix (str "ab<think><th") tagOpen) tagOpen
  ∧ ∀ m, m < length tagOpen → m ≤ length (str "ab<think><th") →
         drop (length (str "ab<think><th") - m) (str "ab<think><th") = take m tagOpen →
         m ≤ partialSuffix (str "ab<think><th") tagOpen.
Proof.
  split; [simpl; lia|]. split; [by vm_compute|].
  apply (partialSuffix_longest_proper_prefix (str "ab<think><th") tagOpen).
  simpl; lia.
Defined.


(** ** stripThinkTags *)

Lemma Index_drop_None (s sub : gostring) (k : nat) :
  strings.Index s sub = None → strings.Index (drop k s) sub = None.
Proof.
  rewrite !Index_None. intros Hnone j Ho. apply (Hnone (k + j)).
  unfold occurs_at in *. by rewrite <- drop_drop.
Qed.

Lemma skip_re_space_drop (s : gostring) : ∃ k, skip_re_space s = drop k s.
Proof.
  induction s as [|c s [k IH]]; [by exists 0|].
  cbn. destruct (is_re_space c); [by exists (S k)|by exists 0].
Qed.

Lemma cutThinkTags_no_open (fuel : nat) (s : gostring) :
  strings.Index s tagOpen = None → cutThinkTags fuel s = s.
Proof. intros H. destruct fuel; [done|]. cbn [cutThinkTags]. by rewrite H. Qed.

(** The first match of a tag that begins with ["<"], after a text
    without ["<"]. *)
Lemma Index_after_plain (pre tag rest : gostring) :
  "<"%char ∉ pre → head tag = Some "<"%char →
  strings.Index (pre ++ tag ++ rest) tag = Some (length pre).
Proof.
  intros Hpre Htag. apply Index_Some. split.
  - unfold occurs_at. rewrite drop_app_length. apply take_app_length.
  - intros j Hj Ho. apply Hpre. unfold occurs_at in Ho.
    destruct tag as [|t tag]; [done|]. injection Htag as ->.
    assert (Hl : take (length ("<"%char :: tag)) (drop j (pre ++ ("<"%char :: tag) ++ rest)) !! 0
                 = Some "<"%char) by by rewrite Ho.
    rewrite lookup_take_lt in Hl by (simpl; lia).
    rewrite lookup_drop, Nat.add_0_r, lookup_app_l in Hl by done.
    by apply list_elem_of_lookup_2 in Hl.
Qed.

(** X5. [stripThinkTags] leaves a text that holds no ["<think>"], or no
    ["</think>"], to [strings.TrimSpace] alone: an unclosed think block is
    not removed. *)
Theorem stripThinkTags_without_block (TrimSpace : gostring → gostring) (s : gostring) :
  strings.Index s tagOpen = None ∨ strings.Index s tagClose = None →
  stripThinkTags TrimSpace s = TrimSpace s.
Proof.
  intros H. unfold stripThinkTags. f_equal.
  destruct (length s); [done|]. cbn [cutThinkTags].
  destruct (strings.Index s tagOpen) as [i|]; [|done].
  destruct H as [H|H]; [done|].
  by rewrite (Index_drop_None _ _ _ H).
Qed.

Lemma stripThinkTags_without_block_witness :
  (strings.Index (str "<think>still thinking") tagOpen = None
   ∨ strings.Index (str "<think>still thinking") tagClose = None)
  ∧ stripThinkTags id (str "<think>still thinking") = id (str "<think>still thinking").
Proof.
  split; [right; by vm_compute|].
  apply (stripThinkTags_without_block id (str "<think>still thinking")).
  right. by vm_compute.
Defined.

(** X6. [stripThinkTags] removes a think block together with the white
    space after it: for a text [pre<think>body</think>post] with no ["<"]
    in [pre] and [body] and no further ["<think>"] in [post], what is
    trimmed is [pre] followed by [post] without its leading white space. *)
Theorem stripThinkTags_removes_block (TrimSpace : gostring → gostring)
    (pre body post : gostring) :
  "<"%char ∉ pre → "<"%char ∉ body →
  strings.Index post tagOpen = None →
  stripThinkTags TrimSpace (pre ++ tagOpen ++ body ++ tagClose ++ post)
  = TrimSpace (pre ++ skip_re_space post).
Proof.
  intros Hpre Hbody Hpost. unfold stripThinkTags. f_equal.
  set (s := pre ++ tagOpen ++ body ++ tagClose ++ post).
  destruct (length s) as [|fuel] eqn:Hlen.
  { unfold s in Hlen. rewrite !length_app in Hlen. simpl in Hlen. lia. }
  cbn [cutThinkTags]. unfold s.
  rewrite (Index_after_plain pre tagOpen _ Hpre eq_refl).
  rewrite drop_app_add, drop_app_length.
  rewrite (Index_after_plain body tagClose _ Hbody eq_refl).
  rewrite drop_app_add, drop_app_length, take_app_length. f_equal.
  apply cutThinkTags_no_open.
  destruct (skip_re_space_drop post) as [k ->]. by apply Index_drop_None.
Qed.

Lemma stripThinkTags_removes_block_witness :
  ("<"%char ∉ str "Sure. ")
  ∧ ("<"%char ∉ str "the user wants a sum")
  ∧ strings.Index ("010"%char :: "010"%char :: str "2 + 2 = 4") tagOpen = None
  ∧ stripThinkTags id (str "Sure. " ++ tagOpen ++ str "the user wants a sum"
                        ++ tagClose ++ "010"%char :: "010"%char :: str "2 + 2 = 4")
    = id (str "Sure. " ++ skip_re_space ("010"%char :: "010"%char :: str "2 + 2 = 4")).
Proof.
  assert (H1 : "<"%char ∉ str "Sure. ") by (apply (bool_decide_unpack _); by vm_compute).
  assert (H2 : "<"%char ∉ str "the user wants a sum")
    by (apply (bool_decide_unpack _); by vm_compute).
  split; [done|]. split; [done|]. split; [by vm_compute|].
  apply (stripThinkTags_removes_block id (str "Sure. ") (str "the user wants a sum")
           ("010"%char :: "010"%char :: str "2 + 2 = 4")); [done|done|by vm_compute].
Defined.

(** ** doStream: lines and content *)

(** X7. Nothing after the line ["data: [DONE]"] is decoded: the chunks of
    a body are those of the lines before its first such line. *)
Theorem dataChunks_stops_at_DONE (unmarshal : gostring → option stream.streamChunk)
    (pre post : list gostring) :
  dataChunks unmarshal (pre ++ str "data: [DONE]" :: post)
  = dataChunks unmarshal pre
  ∧ decodeChunks (dataChunks unmarshal (pre ++ str "data: [DONE]" :: post))
    = decodeChunks (dataChunks unmarshal pre).
Proof.
  assert (H : dataChunks unmarshal (pre ++ str "data: [DONE]" :: post)
              = dataChunks unmarshal pre).
  { induction pre as [|line pre IH]; [done|].
    cbn [app dataChunks].
    destruct (negb (strings.HasPrefix line (str "data: "))); [done|].
    case_bool_decide; [done|].
    destruct (unmarshal _); by rewrite IH. }
  by rewrite H.
Qed.

Lemma dec_Content_decodeChoice (d : decoder) (ch : stream.streamChoice) :
  dec_Content (decodeChoice d ch)
  = dec_Content d ++ match stream.Content (stream.Delta ch) with
                     | Some c => c
                     | None => []
                     end.
Proof.
  unfold decodeChoice. cbn [dec_Content].
  destruct (stream.Content (stream.Delta ch)) as [c|]; [|by rewrite app_nil_r].
  case_bool_decide as Hc; [done|]. by rewrite Hc, app_nil_r.
Qed.

Lemma dec_Content_decodeChunks (d : decoder) (chunks : list stream.streamChunk) :
  dec_Content (foldl decodeChunk d chunks)
  = dec_Content d ++ concat (content_deltas chunks).
Proof.
  unfold content_deltas. revert d.
  induction chunks as [|chunk chunks IH]; intros d; [by rewrite app_nil_r|].
  cbn [foldl]. rewrite IH, bind_cons, concat_app, app_assoc. f_equal.
  unfold decodeChunk. generalize (stream.Choices chunk). clear. intros chs. revert d.
  induction chs as [|ch chs IH]; intros d; [by rewrite app_nil_r|].
  cbn [foldl]. rewrite IH, dec_Content_decodeChoice, bind_cons, concat_app, app_assoc.
  f_equal. f_equal. destruct (stream.Content (stream.Delta ch)); [|done].
  cbn. by rewrite app_nil_r.
Qed.

(** X8. The content [doStream] returns is the content deltas of all
    choices of all chunks, joined in arrival order; tool-call fragments,
    reasoning deltas and chunks without content add nothing to it. *)
Theorem decoded_content_is_the_deltas (chunks : list stream.streamChunk) :
  result_Content (decodeChunks chunks) = concat (content_deltas chunks).
Proof.
  unfold decodeChunks. cbn [result_Content].
  by rewrite dec_Content_decodeChunks.
Qed.


(** ** doStream: slots out of range *)

Lemma omap_lookup_length (m : gmap Z ToolCall) (l : list nat) :
  NoDup l → length (omap (λ i : nat, m !! Z.of_nat i) l) ≤ size m.
Proof.
  revert m. induction l as [|j l IH]; intros m Hnd; [simpl; lia|].
  apply NoDup_cons in Hnd as [Hj Hnd].
  change (omap (λ i : nat, m !! Z.of_nat i) (j :: l))
    with (match m !! Z.of_nat j with
          | Some y => y :: omap (λ i : nat, m !! Z.of_nat i) l
          | None => omap (λ i : nat, m !! Z.of_nat i) l
          end).
  destruct (m !! Z.of_nat j) as [tc|] eqn:Hm; [|by apply IH].
  cbn [length].
  assert (Heq : omap (λ i : nat, m !! Z.of_nat i) l
                = omap (λ i : nat, delete (Z.of_nat j) m !! Z.of_nat i) l).
  { apply list_omap_ext, Forall2_same_length_lookup_2; [done|].
    intros k a b Ha Hb. rewrite Ha in Hb. injection Hb as <-.
    rewrite lookup_delete_ne; [done|]. intros Heq%Nat2Z.inj. subst a.
    apply Hj. by eapply list_elem_of_lookup_2. }
  rewrite Heq. specialize (IH (delete (Z.of_nat j) m) Hnd).
  rewrite map_size_delete_Some in IH by done.
  assert (size m ≠ 0); [|lia].
  intros Hz. apply map_size_empty_inv in Hz. by rewrite Hz, lookup_empty in Hm.
Qed.

(** X9. The final loop of [doStream] runs over the slots [0 .. n-1], [n]
    the number of slots filled: when the server numbers a slot outside
    that range (a negative index, or a gap), fewer calls are returned than
    slots were filled; in no case more. *)
Theorem finalize_drops_slots_out_of_range (m : gmap Z ToolCall) (i : Z) :
  is_Some (m !! i) → (i < 0 ∨ Z.of_nat (size m) ≤ i)%Z →
  length (finalize m) < size m.
Proof.
  intros [tc Hi] Hout. unfold finalize.
  assert (Heq : omap (λ k : nat, m !! Z.of_nat k) (seq 0 (size m))
                = omap (λ k : nat, delete i m !! Z.of_nat k) (seq 0 (size m))).
  { apply list_omap_ext, Forall2_same_length_lookup_2; [done|].
    intros k a b Ha Hb. rewrite Ha in Hb. injection Hb as <-.
    apply lookup_seq in Ha as [-> Hk]. rewrite lookup_delete_ne; [done|]. lia. }
  rewrite Heq.
  pose proof (omap_lookup_length (delete i m) (seq 0 (size m)) (NoDup_seq _ _)) as Hle.
  rewrite map_size_delete_Some in Hle by done.
  assert (size m ≠ 0); [|lia].
  intros Hz. apply map_size_empty_inv in Hz. by rewrite Hz, lookup_empty in Hi.
Qed.

Lemma finalize_drops_slots_out_of_range_witness :
  is_Some (tcMap_of_sample !! 1%Z)
  ∧ (1 < 0 ∨ Z.of_nat (size tcMap_of_sample) ≤ 1)%Z
  ∧ finalize tcMap_of_sample = []
  ∧ length (finalize tcMap_of_sample) < size tcMap_of_sample.
Proof.
  assert (H1 : is_Some (tcMap_of_sample !! 1%Z)) by by eexists.
  assert (H2 : (1 < 0 ∨ Z.of_nat (size tcMap_of_sample) ≤ 1)%Z) by (right; by vm_compute).
  split; [done|]. split; [done|]. split; [by vm_compute|].
  by apply (finalize_drops_slots_out_of_range tcMap_of_sample 1).
Defined.


(** ** Token budget: what the cap guarantees *)

Lemma raw_chars_app (ms ext : list Message) :
  raw_chars (ms ++ ext) = (raw_chars ms + raw_chars ext)%Z.
Proof. induction ms as [|m ms IH]; simpl; [done|]. rewrite IH. lia. Qed.

(** X10. When the context limit is known and leaves room for at least the
    floor of 256 tokens, the capped output fits: the estimate of the
    conversation plus the value returned does not exceed the context
    limit, and the value returned does not exceed [maxTokens]. *)
Theorem capMaxTokens_fits_the_window (contextLimit maxTokens : Z)
    (messages : list Message) :
  (0 < contextLimit < 2 ^ 63)%Z →
  (raw_chars messages < 2 ^ 63)%Z →
  (256 ≤ contextLimit - estimateTokens messages)%Z →
  (estimateTokens messages + capMaxTokens contextLimit maxTokens messages
   ≤ contextLimit
   ∧ capMaxTokens contextLimit maxTokens messages ≤ maxTokens)%Z.
Proof.
  intros Hcl Hraw Hroom. rewrite capMaxTokens_cases by (lia || done).
  rewrite bool_decide_eq_false_2 by lia. rewrite bool_decide_eq_false_2 by lia. lia.
Qed.

Lemma capMaxTokens_fits_the_window_witness :
  (0 < 1000 < 2 ^ 63
   ∧ raw_chars [user_message 442] < 2 ^ 63
   ∧ 256 ≤ 1000 - estimateTokens [user_message 442]
   ∧ estimateTokens [user_message 442] + capMaxTokens 1000 4096 [user_message 442]
     ≤ 1000
   ∧ capMaxTokens 1000 4096 [user_message 442] ≤ 4096)%Z.
Proof.
  split; [lia|]. split; [by vm_compute|]. split; [by vm_compute|].
  apply (capMaxTokens_fits_the_window 1000 4096 [user_message 442]);
    [lia|by vm_compute|by vm_compute].
Defined.

(** X11. For a [maxTokens] of at least 256 the cap never grows with the
    conversation: after more messages are appended [capMaxTokens] returns
    at most what it returned before. *)
Theorem capMaxTokens_shrinks_as_conversation_grows (contextLimit maxTokens : Z)
    (messages ext : list Message) :
  (contextLimit < 2 ^ 63)%Z →
  (raw_chars (messages ++ ext) < 2 ^ 63)%Z →
  (256 ≤ maxTokens)%Z →
  (capMaxTokens contextLimit maxTokens (messages ++ ext)
   ≤ capMaxTokens contextLimit maxTokens messages)%Z.
Proof.
  intros Hcl Hraw Hmt.
  pose proof (raw_chars_nonneg messages). pose proof (raw_chars_nonneg ext).
  rewrite raw_chars_app in Hraw.
  rewrite !capMaxTokens_cases by (rewrite ?raw_chars_app; lia).
  case_bool_decide; [lia|].
  rewrite !estimateTokens_nowrap by (rewrite ?raw_chars_app; lia).
  rewrite raw_chars_app. rewrite !Z.quot_div_nonneg by lia.
  assert (raw_chars messages `div` 3 ≤ (raw_chars messages + raw_chars ext) `div` 3)%Z
    by (apply Z.div_le_mono; lia).
  repeat case_bool_decide; lia.
Qed.

Lemma capMaxTokens_shrinks_as_conversation_grows_witness :
  (1000 < 2 ^ 63
   ∧ raw_chars ([user_message 442] ++ [user_message 2000]) < 2 ^ 63
   ∧ 256 ≤ 500
   ∧ capMaxTokens 1000 500 ([user_message 442] ++ [user_message 2000])
     ≤ capMaxTokens 1000 500 [user_message 442])%Z.
Proof.
  split; [lia|]. split; [by vm_compute|]. split; [lia|].
  apply (capMaxTokens_shrinks_as_conversation_grows 1000 500
           [user_message 442] [user_message 2000]); [lia|by vm_compute|lia].
Defined.

(** ** The tool-calling loops: results and bounds *)

(** X12. With a positive [maxToolResultChars] a tool result appended by
    [doSubAgentWithTools] has at most that many bytes and the 15 of the
    marker, and it starts with the first [maxToolResultChars] bytes of the
    result; a result within the limit is appended unchanged. *)
Theorem truncateToolResult_bounds (maxToolResultChars : Z) (toolResult : gostring) :
  (0 < maxToolResultChars)%Z →
  length (truncateToolResult maxToolResultChars toolResult)
  ≤ Z.to_nat maxToolResultChars + 15
  ∧ take (Z.to_nat maxToolResultChars)
         (truncateToolResult maxToolResultChars toolResult)
    = take (Z.to_nat maxToolResultChars) toolResult
  ∧ (if bool_decide (len toolResult ≤ maxToolResultChars)%Z
     then truncateToolResult maxToolResultChars toolResult = toolResult
     else truncateToolResult maxToolResultChars toolResult
          = take (Z.to_nat maxToolResultChars) toolResult
            ++ "010"%char :: str "[...truncated]").
Proof.
  intros Hpos. unfold truncateToolResult, len.
  rewrite bool_decide_eq_true_2 by done. cbn [andb].
  case_bool_decide as Hlong.
  - rewrite bool_decide_eq_false_2 by lia.
    rewrite length_app, length_take. cbn [length].
    split; [simpl; lia|]. split; [|done].
    rewrite take_app_le by (rewrite length_take; lia).
    rewrite take_take. f_equal. lia.
  - rewrite bool_decide_eq_true_2 by lia. split; [lia|done].
Qed.

Lemma truncateToolResult_bounds_witness :
  (0 < 5)%Z
  ∧ length (truncateToolResult 5 (str "error: boom")) ≤ Z.to_nat 5 + 15
  ∧ take (Z.to_nat 5) (truncateToolResult 5 (str "error: boom"))
    = take (Z.to_nat 5) (str "error: boom")
  ∧ (if bool_decide (len (str "error: boom") ≤ 5)%Z
     then truncateToolResult 5 (str "error: boom") = str "error: boom"
     else truncateToolResult 5 (str "error: boom")
          = take (Z.to_nat 5) (str "error: boom")
            ++ "010"%char :: str "[...truncated]").
Proof.
  split; [lia|]. apply (truncateToolResult_bounds 5 (str "error: boom")). lia.
Defined.



(** X14. The loop over the tool calls of a turn runs every call exactly
    once and in the order of the calls, with the name and the arguments
    the model gave, and appends the messages in that order after the
    conversation, which it leaves as it was: seen with tools that record
    each call they receive. *)
Theorem execToolCalls_runs_each_call_once (finish : gostring → gostring)
    (answer : gostring → gostring → result gostring)
    (calls : list ToolCall) (messages : list Message)
    (w : list (gostring * gostring)) :
  execToolCalls finish (recording_exec answer) calls messages w
  = (messages
     ++ ((λ tc, toolMessage
                  (finish (toolResultText
                             (answer (Name (Function tc)) (Arguments (Function tc)))))
                  tc) <$> calls),
     w ++ ((λ tc, (Name (Function tc), Arguments (Function tc))) <$> calls)).
Proof.
  revert messages w. induction calls as [|tc calls IH]; intros messages w.
  - cbn. by rewrite !app_nil_r.
  - cbn [execToolCalls recording_exec]. rewrite IH.
    by rewrite !fmap_cons, <- !app_assoc.
Qed.

(** ** parseSSE: when it fails *)

Lemma parseSSE_lines_None {unmarshal : gostring → option mcp.response.jsonRPCResponse}
    (lines : list gostring) :
  mcp.parseSSE_lines unmarshal lines = None
  ↔ Forall (λ l, mcp.carried unmarshal l = None) lines.
Proof.
  induction lines as [|l lines IH].
  - split; [constructor|done].
  - rewrite parseSSE_lines_cons, Forall_cons.
    destruct (mcp.carried unmarshal l); [|by rewrite IH; split; [|intros []]].
    split; [done|]. by intros [? _].
Qed.

Lemma parseSSE_lines_Some {unmarshal : gostring → option mcp.response.jsonRPCResponse}
    (lines : list gostring) (rpcResp : mcp.response.jsonRPCResponse) :
  mcp.parseSSE_lines unmarshal lines = Some rpcResp →
  mcp.response.ID rpcResp ≠ None
  ∧ ∃ l, l ∈ lines ∧ mcp.carried unmarshal l = Some rpcResp.
Proof.
  induction lines as [|l lines IH]; [done|].
  rewrite parseSSE_lines_cons.
  destruct (mcp.carried unmarshal l) as [r|] eqn:Hc.
  - intros [= ->]. split.
    + unfold mcp.carried in Hc.
      destruct (strings.HasPrefix l (str "data: ")); [|done].
      destruct (unmarshal _) as [r|]; [|done]. cbn in Hc.
      case_bool_decide; [|done]. by injection Hc as ->.
    + exists l. split; [by left|done].
  - intros H. destruct (IH H) as [Hid (l' & Hin & Hl')].
    split; [done|]. exists l'. split; [by right|done].
Qed.

(** X15. [parseSSE] never returns a response without an id: what it
    returns is the response of one of the lines. It fails exactly when no
    line carries a response, with the error of the scanner when there is
    one and ["no JSON-RPC response found in SSE stream"] otherwise; a
    response found before the scanner failed is still returned. *)
Theorem parseSSE_result (unmarshal : gostring → option mcp.response.jsonRPCResponse)
    (body : mcp.httpResponse) :
  match mcp.parseSSE unmarshal body with
  | Ok rpcResp =>
    mcp.response.ID rpcResp ≠ None
    ∧ ∃ l, l ∈ mcp.body_lines body ∧ mcp.carried unmarshal l = Some rpcResp
  | Err err =>
    Forall (λ l, mcp.carried unmarshal l = None) (mcp.body_lines body)
    ∧ err = match mcp.body_err body with
            | Some e => str "SSE read: " ++ e
            | None => str "no JSON-RPC response found in SSE stream"
            end
  end.
Proof.
  unfold mcp.parseSSE.
  destruct (mcp.parseSSE_lines unmarshal (mcp.body_lines body)) as [r|] eqn:Hp.
  - by apply parseSSE_lines_Some.
  - apply parseSSE_lines_None in Hp. by destruct (mcp.body_err body).
Qed.


(** ** prefixWriter *)

Lemma IndexByte_None (s : gostring) (c : ascii) : IndexByte s c = None ↔ c ∉ s.
Proof.
  induction s as [|x s IH]; cbn; [by split; [intros _ ?%elem_of_nil|]|].
  rewrite not_elem_of_cons. case_bool_decide as Hx.
  - split; [done|]. by intros [? _].
  - destruct (IndexByte s c); cbn; split; try done.
    + intros [_ H]. by apply IH in H.
    + intros _. split; [done|]. by apply IH.
Qed.

Lemma IndexByte_Some (s : gostring) (c : ascii) (i : nat) :
  IndexByte s c = Some i →
  s = take i s ++ c :: drop (i + 1) s ∧ (c ∉ take i s) ∧ s !! i = Some c.
Proof.
  revert i. induction s as [|x s IH]; intros i; cbn; [done|].
  case_bool_decide as Hx.
  - intros [= <-]. subst x. split; [done|]. cbn. split; [apply not_elem_of_nil|done].
  - destruct (IndexByte s c) as [j|]; [|done]. cbn. intros [= <-].
    destruct (IH j eq_refl) as (Hs & Hn & Hl). cbn. split; [|split].
    + by rewrite <- Hs.
    + apply not_elem_of_cons. split; [done|done].
    + done.
Qed.

Lemma prefixed_no_newline (prefix : gostring) (b : bool) (s : gostring) :
  "010"%char ∉ s → s ≠ [] →
  prefixed prefix b s = ((if b then prefix else []) ++ s, false).
Proof.
  revert b. induction s as [|c s IH]; intros b Hnl Hne; [done|].
  apply not_elem_of_cons in Hnl as [Hc Hnl]. cbn [prefixed].
  rewrite bool_decide_eq_false_2 by done.
  destruct s as [|c' s]; [done|]. by rewrite IH.
Qed.

Lemma prefixed_line (prefix : gostring) (b : bool) (line rest : gostring) :
  "010"%char ∉ line →
  prefixed prefix b (line ++ "010"%char :: rest)
  = ((if b then prefix else []) ++ line ++ "010"%char :: (prefixed prefix true rest).1,
     (prefixed prefix true rest).2).
Proof.
  revert b. induction line as [|c line IH]; intros b Hnl.
  - cbn [app prefixed]. rewrite bool_decide_eq_true_2 by done.
    by destruct (prefixed prefix true rest).
  - apply not_elem_of_cons in Hnl as [Hc Hnl]. cbn [app prefixed].
    rewrite bool_decide_eq_false_2 by done. by rewrite IH.
Qed.

Lemma prefixed_app (prefix : gostring) (b : bool) (s1 s2 : gostring) :
  prefixed prefix b (s1 ++ s2)
  = ((prefixed prefix b s1).1 ++ (prefixed prefix (prefixed prefix b s1).2 s2).1,
     (prefixed prefix (prefixed prefix b s1).2 s2).2).
Proof.
  revert b. induction s1 as [|c s1 IH]; intros b.
  - cbn. by destruct (prefixed prefix b s2).
  - cbn [app prefixed]. rewrite IH.
    destruct (prefixed prefix (bool_decide (c = "010"%char)) s1) as [o1 b1]. cbn.
    by rewrite <- app_assoc.
Qed.

Lemma WriteString_loop_prefixed (fuel : nat) (pw : prefixWriter) (s : gostring) :
  length s ≤ fuel →
  WriteString_loop fuel pw s
  = Some {| pw_w := pw_w pw ++ (prefixed (pw_prefix pw) (bol pw) s).1;
            pw_prefix := pw_prefix pw;
            bol := (prefixed (pw_prefix pw) (bol pw) s).2 |}.
Proof.
  revert pw s. induction fuel as [|fuel IH]; intros [w prefix b] s Hlen.
  - destruct s; [|simpl in Hlen; lia]. cbn. by rewrite app_nil_r.
  - destruct s as [|c s]; [cbn; by rewrite app_nil_r|].
    cbn [WriteString_loop pw_w pw_prefix bol].
    remember (c :: s) as s0 eqn:Hs0.
    assert (Hne : s0 ≠ []) by by subst.
    clear Hs0 c s. rename s0 into s.
    destruct (IndexByte s "010"%char) as [idx|] eqn:Hidx.
    + apply IndexByte_Some in Hidx as (Hs & Hnl & Hl).
      assert (Htake : take (idx + 1) s = take idx s ++ ["010"%char]).
      { replace (idx + 1) with (S idx) by lia. by apply take_S_r. }
      pose proof (prefixed_line prefix b _ (drop (idx + 1) s) Hnl) as Hp.
      rewrite <- Hs in Hp. rewrite Hp, IH, Htake.
      2:{ rewrite length_drop. lia. }
      destruct b; cbn [pw_w pw_prefix bol fst snd]; f_equal; f_equal;
        rewrite <- ?app_assoc; try done.
    + apply IndexByte_None in Hidx.
      rewrite (prefixed_no_newline prefix b s Hidx) by done.
      destruct b; cbn; by rewrite <- ?app_assoc.
Qed.

(** X16. Writes compose: [WriteString] of a text and then of another
    writes the same bytes and leaves the writer in the same state as one
    [WriteString] of the two texts joined; both always return. *)
Theorem WriteString_composes (pw : prefixWriter) (s1 s2 : gostring) :
  ∃ pw1 pw2,
    WriteString pw s1 = Some pw1
    ∧ WriteString pw1 s2 = Some pw2
    ∧ WriteString pw (s1 ++ s2) = Some pw2.
Proof.
  unfold WriteString. rewrite !WriteString_loop_prefixed by done.
  eexists _, _. split; [done|].
  rewrite WriteString_loop_prefixed by done. split; [done|].
  cbn [pw_w pw_prefix bol]. rewrite prefixed_app. cbn [fst snd].
  by rewrite app_assoc.
Qed.

(** X17. With an empty prefix, or in the middle of a line for a text
    without line break, [WriteString] writes the text and nothing else. *)
Theorem WriteString_plain (pw : prefixWriter) (s : gostring) :
  pw_prefix pw = [] ∨ (bol pw = false ∧ "010"%char ∉ s) →
  ∃ pw', WriteString pw s = Some pw' ∧ pw_w pw' = pw_w pw ++ s.
Proof.
  intros H. unfold WriteString. rewrite WriteString_loop_prefixed by done.
  eexists. split; [done|]. cbn [pw_w]. f_equal.
  destruct H as [Hp|[Hb Hnl]].
  - rewrite Hp. generalize (bol pw). induction s as [|c s IH]; intros b; [done|].
    cbn [prefixed]. specialize (IH (bool_decide (c = "010"%char))).
    destruct (prefixed [] _ s) as [o b']. cbn in *. rewrite IH. by destruct b.
  - rewrite Hb. destruct s as [|c s]; [done|].
    by rewrite prefixed_no_newline.
Qed.

Lemma WriteString_plain_witness :
  (pw_prefix {| pw_w := str "> model: "; pw_prefix := str "> "; bol := false |} = []
   ∨ (bol {| pw_w := str "> model: "; pw_prefix := str "> "; bol := false |} = false
      ∧ "010"%char ∉ str "hello"))
  ∧ ∃ pw', WriteString {| pw_w := str "> model: "; pw_prefix := str "> "; bol := false |}
                       (str "hello") = Some pw'
           ∧ pw_w pw' = str "> model: " ++ str "hello".
Proof.
  assert (H : "010"%char ∉ str "hello") by (apply (bool_decide_unpack _); by vm_compute).
  split; [by right|].
  apply (WriteString_plain {| pw_w := str "> model: "; pw_prefix := str "> ";
                              bol := false |} (str "hello")).
  by right.
Defined.


(** ** dedup *)

Lemma dedup_inv_insert (seen : gmap gostring bool) (result : list gostring)
    (s : gostring) :
  dedup_inv seen result → default false (seen !! s) = false →
  dedup_inv (<[s := true]> seen) (result ++ [s]) ∧ s ∉ result.
Proof.
  intros [Hseen Hnd] Hs.
  assert (Hnot : s ∉ result).
  { intros Hin. apply Hseen in Hin. congruence. }
  split; [split|done].
  - intros x. rewrite elem_of_app, list_elem_of_singleton.
    destruct (decide (x = s)) as [->|Hne].
    + rewrite lookup_insert_eq. cbn. split; [by right|done].
    + rewrite lookup_insert_ne by done. rewrite Hseen. split; [by left|].
      by intros [?|?].
  - apply NoDup_app. split; [done|]. split; [|apply NoDup_singleton].
    intros x Hx ->%list_elem_of_singleton. done.
Qed.

Lemma dedup_loop_spec (l : list gostring) (seen : gmap gostring bool)
    (result : list gostring) :
  dedup_inv seen result →
  dedup_inv (dedup_loop seen result l).1 (dedup_loop seen result l).2
  ∧ (∀ x, x ∈ (dedup_loop seen result l).2 ↔ x ∈ result ∨ x ∈ l)
  ∧ result `prefix_of` (dedup_loop seen result l).2.
Proof.
  revert seen result. induction l as [|s l IH]; intros seen result Hinv.
  - cbn. split; [done|]. split; [|done]. intros x. rewrite elem_of_nil. tauto.
  - cbn [dedup_loop]. destruct (default false (seen !! s)) eqn:Hs; cbn [negb].
    + destruct (IH seen result Hinv) as (Hi & Hm & Hp).
      split; [done|]. split; [|done].
      intros x. rewrite Hm, elem_of_cons.
      assert (s ∈ result) by by apply Hinv.
      split; [tauto|]. intros [?|[->|?]]; tauto.
    + destruct (dedup_inv_insert _ _ _ Hinv Hs) as [Hinv' Hnot].
      destruct (IH _ _ Hinv') as (Hi & Hm & Hp).
      split; [done|]. split.
      * intros x. rewrite Hm, elem_of_app, list_elem_of_singleton, elem_of_cons. tauto.
      * etrans; [|exact Hp]. by apply prefix_app_r.
Qed.

Lemma dedup_inv_empty : dedup_inv ∅ [].
Proof.
  split; [|apply NoDup_nil_2]. intros x. rewrite lookup_empty, elem_of_nil. cbn.
  split; [done|tauto].
Qed.

Lemma filter_notin_snoc (result l : list gostring) (s : gostring) :
  s ∉ l →
  filter (λ x, x ∉ result ++ [s]) l = filter (λ x, x ∉ result) l.
Proof.
  induction l as [|y l IH]; intros Hs; [done|].
  apply not_elem_of_cons in Hs as [Hne Hs].
  destruct (decide (y ∈ result)) as [Hy|Hy].
  - rewrite !filter_cons_False; [by apply IH| |].
    + by intros H.
    + intros H. apply H. apply elem_of_app. by left.
  - rewrite !filter_cons_True; [by rewrite IH|done|].
    rewrite elem_of_app, list_elem_of_singleton. intros [?|?]; [done|]. by subst.
Qed.

Lemma dedup_loop_NoDup (l : list gostring) (seen : gmap gostring bool)
    (result : list gostring) :
  dedup_inv seen result → NoDup l →
  (dedup_loop seen result l).2 = result ++ filter (λ x, x ∉ result) l.
Proof.
  revert seen result. induction l as [|s l IH]; intros seen result Hinv Hnd.
  - cbn. by rewrite app_nil_r.
  - apply NoDup_cons in Hnd as [Hs Hnd]. cbn [dedup_loop].
    destruct (default false (seen !! s)) eqn:Hseen; cbn [negb].
    + rewrite filter_cons_False; [by apply IH|].
      intros H. apply H. by apply Hinv.
    + destruct (dedup_inv_insert _ _ _ Hinv Hseen) as [Hinv' Hnot].
      rewrite (IH _ _ Hinv' Hnd), filter_cons_True by done.
      rewrite filter_notin_snoc by done. by rewrite <- app_assoc.
Qed.

(** X18. [dedup] returns a list without duplicates that holds exactly the
    names of the two lists; the names of the first list come first. *)
Theorem dedup_merges_without_duplicates (a b : list gostring) :
  NoDup (dedup a b)
  ∧ (∀ x, x ∈ dedup a b ↔ x ∈ a ∨ x ∈ b)
  ∧ dedup a [] `prefix_of` dedup a b.
Proof.
  unfold dedup.
  destruct (dedup_loop_spec a ∅ [] dedup_inv_empty) as (Hi & Hm & _).
  destruct (dedup_loop ∅ [] a) as [seen result]. cbn [fst snd] in *.
  destruct (dedup_loop_spec b seen result Hi) as ((_ & Hnd) & Hm' & Hp).
  split; [done|]. split; [|done].
  intros x. rewrite Hm', Hm, elem_of_nil. tauto.
Qed.

(** X19. For two lists that have no duplicate each, [dedup] is the first
    list followed by the names of the second that the first does not
    have, in their order. *)
Theorem dedup_of_duplicate_free_lists (a b : list gostring) :
  NoDup a → NoDup b →
  dedup a b = a ++ filter (λ x, x ∉ a) b.
Proof.
  intros Ha Hb. unfold dedup.
  pose proof (dedup_loop_NoDup a ∅ [] dedup_inv_empty Ha) as Hr.
  destruct (dedup_loop_spec a ∅ [] dedup_inv_empty) as (Hi & _ & _).
  destruct (dedup_loop ∅ [] a) as [seen result]. cbn [fst snd] in *.
  rewrite (dedup_loop_NoDup b seen result Hi Hb). subst result. cbn [app].
  assert (Hf : ∀ l : list gostring, filter (λ x, x ∉ []) l = l).
  { induction l as [|y l IH]; [done|].
    rewrite filter_cons_True by apply not_elem_of_nil. by rewrite IH. }
  by rewrite Hf.
Qed.

Lemma dedup_of_duplicate_free_lists_witness :
  NoDup [str "time"; str "fetch"] ∧ NoDup [str "fetch"; str "search"]
  ∧ dedup [str "time"; str "fetch"] [str "fetch"; str "search"]
    = [str "time"; str "fetch"]
      ++ filter (λ x, x ∉ [str "time"; str "fetch"]) [str "fetch"; str "search"].
Proof.
  assert (Ha : NoDup [str "time"; str "fetch"])
    by (apply (bool_decide_unpack _); by vm_compute).
  assert (Hb : NoDup [str "fetch"; str "search"])
    by (apply (bool_decide_unpack _); by vm_compute).
  split; [exact Ha|]. split; [exact Hb|].
  exact (dedup_of_duplicate_free_lists _ _ Ha Hb).
Defined.


(** ** splitTelegramMessage *)

Lemma telegramMaxLen_pos : 1 ≤ telegramMaxLen.
Proof. unfold telegramMaxLen. lia. Qed.

Local Opaque telegramMaxLen.

Lemma cutBefore_spec (text : gostring) (cut i : nat) :
  cutBefore text cut i = cut
  ∨ (2 ≤ cutBefore text cut i ≤ i + 1
     ∧ text !! (cutBefore text cut i - 1) = Some "010"%char).
Proof.
  induction i as [|i IH]; [by left|].
  cbn [cutBefore]. case_bool_decide as Hnl.
  - right. split; [lia|]. by replace (S i + 1 - 1) with (S i) by lia.
  - destruct IH as [IH|[IH1 IH2]]; [by left|right]. split; [lia|done].
Qed.

Lemma split_loop_spec (fuel : nat) (chunks : list gostring) (text : gostring) :
  length text ≤ fuel →
  ∃ cs, split_loop fuel chunks text = Some (chunks ++ cs)
        ∧ concat cs = text
        ∧ Forall (λ c, 0 < length c ≤ telegramMaxLen) cs
        ∧ Forall cut_chunk (take (length cs - 1) cs).
Proof.
  revert chunks text. induction fuel as [|fuel IH]; intros chunks text Hlen.
  { destruct text; [|simpl in Hlen; lia]. exists []. cbn.
    by rewrite app_nil_r. }
  destruct text as [|c t].
  { exists []. cbn. by rewrite app_nil_r. }
  cbn [split_loop].
  remember (c :: t) as text eqn:Ht.
  assert (Hpos : 0 < length text) by (subst; simpl; lia). clear Ht c t.
  destruct (Nat.leb_spec (length text) telegramMaxLen) as [Hle|Hgt].
  { exists [text]. cbn. rewrite app_nil_r. repeat split; try done.
    apply Forall_singleton. lia. }
  pose proof telegramMaxLen_pos as Hmax.
  pose proof (cutBefore_spec text telegramMaxLen (telegramMaxLen - 1)) as Hspec.
  set (cut := cutBefore text telegramMaxLen (telegramMaxLen - 1)) in *.
  assert (Hcut : 1 ≤ cut ≤ telegramMaxLen ∧ cut_chunk (take cut text)).
  { destruct Hspec as [Heq|[Hr Hnl]].
    - split; [lia|]. left. rewrite length_take. lia.
    - split; [lia|]. right. rewrite last_lookup, length_take.
      replace (Init.Nat.pred (cut `min` length text)) with (cut - 1) by lia.
      rewrite lookup_take_lt by lia. done. }
  destruct Hcut as [Hcut Hchunk].
  destruct (IH (chunks ++ [take cut text]) (drop cut text)) as (cs & Hrun & Hcat & Hall & Hinit).
  { rewrite length_drop. lia. }
  exists (take cut text :: cs). split; [|split; [|split]].
  - rewrite Hrun. by rewrite <- app_assoc.
  - cbn. rewrite Hcat. apply take_drop.
  - apply Forall_cons. split; [|done]. rewrite length_take. lia.
  - destruct cs as [|c' cs'].
    { cbn in Hcat. assert (length (drop cut text) = 0) by by rewrite <- Hcat.
      rewrite length_drop in *. lia. }
    cbn [length]. replace (S (S (length cs')) - 1) with (S (length (c' :: cs') - 1))
      by (cbn [length]; lia).
    cbn [take]. apply Forall_cons. split; [done|done].
Qed.

(** X20. [splitTelegramMessage] always returns; its chunks joined are the
    text, every chunk is at most [telegramMaxLen] bytes long, only the
    chunk of an empty text is empty, and every chunk but the last is as
    long as the limit or ends with a line break. *)
Theorem splitTelegramMessage_chunks (text : gostring) :
  ∃ chunks,
    splitTelegramMessage text = Some chunks
    ∧ concat chunks = text
    ∧ Forall (λ c, length c ≤ telegramMaxLen) chunks
    ∧ (Forall (λ c, 0 < length c) chunks ∨ (text = [] ∧ chunks = [[]]))
    ∧ Forall cut_chunk (take (length chunks - 1) chunks).
Proof.
  unfold splitTelegramMessage.
  destruct (Nat.leb_spec (length text) telegramMaxLen) as [Hle|Hgt].
  - exists [text]. cbn. rewrite app_nil_r. repeat split; try done.
    + by apply Forall_singleton.
    + destruct text as [|c t]; [by right|left].
      apply Forall_singleton. simpl. lia.
  - destruct (split_loop_spec (length text) [] text) as (cs & Hrun & Hcat & Hall & Hinit);
      [done|].
    exists cs. split; [done|]. split; [done|]. split; [|split; [|done]].
    + eapply Forall_impl; [exact Hall|]. intros c Hc. cbn in Hc. lia.
    + left. eapply Forall_impl; [exact Hall|]. intros c Hc. cbn in Hc. lia.
Qed.


(** ** The MCP manager *)

(** The first match of a tag after a text that does not hold the first
    byte of the tag. *)
Lemma Index_after_free (c : ascii) (pre tag rest : gostring) :
  c ∉ pre → head tag = Some c →
  strings.Index (pre ++ tag ++ rest) tag = Some (length pre).
Proof.
  intros Hpre Htag. apply Index_Some. split.
  - unfold occurs_at. rewrite drop_app_length. apply take_app_length.
  - intros j Hj Ho. apply Hpre. unfold occurs_at in Ho.
    destruct tag as [|t tag]; [done|]. injection Htag as ->.
    assert (Hl : take (length (c :: tag)) (drop j (pre ++ (c :: tag) ++ rest)) !! 0
                 = Some c) by by rewrite Ho.
    rewrite lookup_take_lt in Hl by (simpl; lia).
    rewrite lookup_drop, Nat.add_0_r, lookup_app_l in Hl by done.
    by apply list_elem_of_lookup_2 in Hl.
Qed.

Lemma SplitN2_qualified (name tool : gostring) :
  "_"%char ∉ name →
  manager.SplitN2 (name ++ str "__" ++ tool) (str "__") = [name; tool].
Proof.
  intros Hname. unfold manager.SplitN2.
  rewrite (Index_after_free "_"%char) by done.
  rewrite take_app_length, drop_app_add. done.
Qed.

Section ManagerFacts.
Context {World : Type}.
Variable Do : mcp.httpRequest → World → result mcp.httpResponse * World.
Variable marshal : mcp.jsonRPCRequest → result gostring.
Variable NewRequest_error : gostring → option error.
Variable canon : gostring → gostring.
Variable unmarshal : gostring → option mcp.response.jsonRPCResponse.
Variable decode : gostring → result mcp.response.jsonRPCResponse.
Variable initialize_params : gostring.
Variable call_params : gostring → gostring → gostring.
Variable unmarshalCallResult : gostring → result manager.callResult.
Variable unmarshalTools : gostring → result (list mcp.mcpTool).
Variable tools_Get : gostring → option (gostring → World → result gostring * World).
Variable quote : gostring → gostring.

Local Abbreviation rpcCall :=
  (mcp.rpcCall Do marshal NewRequest_error canon unmarshal decode).
Local Abbreviation rpcNotify :=
  (mcp.rpcNotify Do marshal NewRequest_error canon).
Local Abbreviation initialize :=
  (manager.initialize Do marshal NewRequest_error canon unmarshal decode
                      initialize_params unmarshalTools).
Local Abbreviation callTool :=
  (manager.callTool Do marshal NewRequest_error canon unmarshal decode
                    call_params unmarshalCallResult).
Local Abbreviation ExecuteTool :=
  (manager.ExecuteTool Do marshal NewRequest_error canon unmarshal decode
                       call_params unmarshalCallResult quote).
Local Abbreviation makeToolExec :=
  (manager.makeToolExec Do marshal NewRequest_error canon unmarshal decode
                        call_params unmarshalCallResult tools_Get quote).
Local Abbreviation InitServers :=
  (manager.InitServers Do marshal NewRequest_error canon unmarshal decode
                       initialize_params unmarshalTools quote).
Local Abbreviation ValidateNames := (manager.ValidateNames quote).

Implicit Types (m : manager.MCPManager) (s srv : mcp.MCPServer) (w : World).

Lemma rpcCall_config s req w :
  config_of (mcp.ex_server (rpcCall s req w)) = config_of s.
Proof.
  unfold mcp.rpcCall. destruct (marshal req) as [payload|err]; [|done].
  destruct (NewRequest_error _); [done|].
  destruct (Do _ w) as [[resp|err] w1]; [|done].
  case_bool_decide; [done|]. cbn [mcp.ex_server]. by case_bool_decide.
Qed.

Lemma rpcNotify_server s req w :
  mcp.ex_server (rpcNotify s req w) = s.
Proof.
  unfold mcp.rpcNotify. destruct (marshal req) as [payload|err]; [|done].
  destruct (NewRequest_error _); [done|].
  by destruct (Do _ w) as [[resp|err] w1].
Qed.

Lemma option_list_length {A : Type} (x : option A) : length (option_list x) ≤ 1.
Proof. destruct x; simpl; lia. Qed.

Lemma callTool_config s toolName args w :
  config_of (manager.ran_state (callTool s toolName args w)) = config_of s
  ∧ length (manager.ran_sent (callTool s toolName args w)) ≤ 1.
Proof.
  unfold manager.callTool.
  set (e := rpcCall s _ w).
  assert (Hc : config_of (mcp.ex_server e) = config_of s) by apply rpcCall_config.
  pose proof (option_list_length (mcp.ex_sent e)) as Hl.
  destruct (mcp.ex_result e) as [resp|err]; [|done].
  destruct (mcp.response.Error resp); [done|].
  destruct (unmarshalCallResult _) as [cr|err]; [|done].
  by destruct (manager.IsError cr).
Qed.

Lemma initialize_inited s w :
  mcp.inited s = true →
  initialize s w
  = {| manager.ran_result := None; manager.ran_state := s;
       manager.ran_sent := []; manager.ran_world := w |}.
Proof. intros H. unfold manager.initialize. by rewrite H. Qed.

Lemma initialize_spec s w :
  (manager.ran_result (initialize s w) = None
   ↔ mcp.inited (manager.ran_state (initialize s w)) = true)
  ∧ length (manager.ran_sent (initialize s w)) ≤ 3
  ∧ mcp.name (manager.ran_state (initialize s w)) = mcp.name s
  ∧ mcp.cfg (manager.ran_state (initialize s w)) = mcp.cfg s.
Proof.
  unfold manager.initialize. destruct (mcp.inited s) eqn:Hin.
  { cbn. repeat split; try done. lia. }
  set (e1 := rpcCall s _ w).
  assert (H1 : config_of (mcp.ex_server e1) = config_of s) by apply rpcCall_config.
  pose proof (option_list_length (mcp.ex_sent e1)) as L1.
  injection H1 as Hn1 Hc1 Hi1 Ht1. rewrite Hin in Hi1.
  destruct (mcp.ex_result e1) as [initResp|err].
  2:{ cbn. rewrite Hi1. repeat split; try done. lia. }
  destruct (mcp.response.Error initResp).
  { cbn. rewrite Hi1. repeat split; try done. lia. }
  set (e2 := rpcNotify (mcp.ex_server e1) _ (mcp.ex_world e1)).
  assert (H2 : mcp.ex_server e2 = mcp.ex_server e1) by apply rpcNotify_server.
  pose proof (option_list_length (mcp.ex_sent e2)) as L2.
  rewrite H2.
  set (e3 := rpcCall (mcp.ex_server e1) _ (mcp.ex_world e2)).
  assert (H3 : config_of (mcp.ex_server e3) = config_of (mcp.ex_server e1))
    by apply rpcCall_config.
  pose proof (option_list_length (mcp.ex_sent e3)) as L3.
  injection H3 as Hn3 Hc3 Hi3 Ht3. rewrite Hi1 in Hi3.
  assert (Hlen : length (option_list (mcp.ex_sent e1) ++ option_list (mcp.ex_sent e2)
                         ++ option_list (mcp.ex_sent e3)) ≤ 3)
    by (rewrite !length_app; lia).
  destruct (mcp.ex_result e3) as [listResp|err].
  2:{ cbn. rewrite Hi3. repeat split; try done; congruence. }
  destruct (mcp.response.Error listResp).
  { cbn. rewrite Hi3. repeat split; try done; congruence. }
  destruct (unmarshalTools _) as [ts|err].
  - cbn. repeat split; try done; congruence.
  - cbn. rewrite Hi3. repeat split; try done; congruence.
Qed.

(** X21. [ActiveToolDefs] names a tool [server__tool] and [ExecuteTool]
    cuts at the first ["__"]: for a server whose name holds no underscore
    the qualified name of a tool, whatever the name of the tool, is
    routed to [callTool] of that server with the name of the tool, and the
    manager sees what the call did to the server. *)
Theorem ExecuteTool_routes_qualified_name m (name tool args : gostring) srv w :
  "_"%char ∉ name →
  manager.servers m !! name = Some srv →
  ExecuteTool m (name ++ str "__" ++ tool) args w
  = {| manager.ran_result := manager.ran_result (callTool srv tool args w);
       manager.ran_state :=
         {| manager.servers :=
              <[name := manager.ran_state (callTool srv tool args w)]>
                (manager.servers m) |};
       manager.ran_sent := manager.ran_sent (callTool srv tool args w);
       manager.ran_world := manager.ran_world (callTool srv tool args w) |}.
Proof.
  intros Hname Hsrv. unfold manager.ExecuteTool.
  rewrite SplitN2_qualified by done. by rewrite Hsrv.
Qed.

(** X22. A tool call changes nothing of a manager but session tokens:
    after [ExecuteTool] every server is there as before with its name, its
    configuration, its [inited] and its tools; and at most one request
    went out. *)
Theorem ExecuteTool_keeps_configuration m (qualifiedName args : gostring) w :
  (∀ n, config_of <$> manager.servers
                        (manager.ran_state (ExecuteTool m qualifiedName args w)) !! n
        = config_of <$> manager.servers m !! n)
  ∧ length (manager.ran_sent (ExecuteTool m qualifiedName args w)) ≤ 1.
Proof.
  unfold manager.ExecuteTool.
  destruct (manager.SplitN2 _ _) as [|serverName [|toolName [|? ?]]];
    cbn; try (split; [done|lia]).
  destruct (manager.servers m !! serverName) as [srv|] eqn:Hsrv;
    cbn; [|split; [done|lia]].
  destruct (callTool_config srv toolName args w) as [Hc Hl].
  split; [|done]. intros n. destruct (decide (n = serverName)) as [->|Hne].
  - rewrite lookup_insert_eq, Hsrv. cbn. by rewrite Hc.
  - by rewrite lookup_insert_ne.
Qed.

(** X23. The executor of [makeToolExec] sends a request only for a name
    that is no built-in tool, with a manager at hand, and whose part
    before the first ["__"] names a server of the manager; in every other
    case nothing goes out. *)
Theorem makeToolExec_sends_only_to_a_server (mcpMgr : option manager.MCPManager)
    (mcpNames : list gostring) (name args : gostring) w :
  manager.ran_sent (makeToolExec mcpMgr mcpNames name args w) ≠ [] →
  tools_Get name = None
  ∧ ∃ m i srv,
      mcpMgr = Some m
      ∧ strings.Index name (str "__") = Some i
      ∧ manager.servers m !! take i name = Some srv.
Proof.
  unfold manager.makeToolExec.
  destruct (tools_Get name) as [execute|].
  { by destruct (execute args w). }
  destruct mcpMgr as [m|]; [|done].
  unfold manager.Contains, manager.ExecuteTool, manager.SplitN2.
  destruct (strings.Index name (str "__")) as [i|]; [|done].
  rewrite bool_decide_eq_true_2 by done.
  destruct (manager.servers m !! take i name) as [srv|] eqn:Hsrv; [|done].
  intros _. split; [done|]. by exists m, i, srv.
Qed.

Lemma InitServers_keeps_inited names m w n srv :
  manager.servers m !! n = Some srv → mcp.inited srv = true →
  ∃ srv', manager.servers (manager.ran_state (InitServers m names w)) !! n = Some srv'
          ∧ mcp.inited srv' = true.
Proof.
  revert m w srv. induction names as [|name names IH]; intros m w srv Hn Hin.
  { by exists srv. }
  cbn [manager.InitServers].
  destruct (manager.servers m !! name) as [srv0|] eqn:Hsrv0; [|by exists srv].
  assert (Hn' : ∃ srv', <[name := manager.ran_state (initialize srv0 w)]>
                          (manager.servers m) !! n = Some srv'
                        ∧ mcp.inited srv' = true).
  { destruct (decide (n = name)) as [->|Hne].
    - rewrite lookup_insert_eq. eexists. split; [done|].
      assert (srv0 = srv) as -> by congruence.
      by rewrite initialize_inited.
    - rewrite lookup_insert_ne by done. by exists srv. }
  destruct Hn' as (srv' & Hl & Hi).
  destruct (manager.ran_result (initialize srv0 w)); [by exists srv'|].
  cbn [manager.ran_state]. by apply (IH {| manager.servers := _ |} _ srv' Hl Hi).
Qed.

Lemma ValidateNames_None m names :
  ValidateNames m names = None
  ↔ Forall (λ n, is_Some (manager.servers m !! n)) names.
Proof using Type.
  induction names as [|name names IH]; cbn.
  { split; [constructor|done]. }
  rewrite Forall_cons. destruct (manager.servers m !! name) as [srv|].
  - rewrite IH. split; [by split|by intros [_ ?]].
  - split; [done|]. by intros [[? ?] _].
Qed.

Lemma InitServers_success names m w :
  manager.ran_result (InitServers m names w) = None →
  Forall (λ n, is_Some (manager.servers m !! n)) names
  ∧ Forall (λ n, ∃ srv,
              manager.servers (manager.ran_state (InitServers m names w)) !! n
              = Some srv ∧ mcp.inited srv = true) names.
Proof.
  revert m w. induction names as [|name names IH]; intros m w.
  { intros _. split; constructor. }
  cbn [manager.InitServers].
  destruct (manager.servers m !! name) as [srv0|] eqn:Hsrv0; [|done].
  destruct (manager.ran_result (initialize srv0 w)) eqn:Hres; [done|].
  cbn [manager.ran_result manager.ran_state]. intros Hok.
  destruct (IH _ _ Hok) as [Hcfg Hall]. split.
  - apply Forall_cons. split; [by rewrite Hsrv0|].
    eapply Forall_impl; [exact Hcfg|]. intros n. cbn.
    destruct (decide (n = name)) as [->|Hne].
    + by rewrite Hsrv0.
    + by rewrite lookup_insert_ne.
  - apply Forall_cons. split; [|done].
    apply InitServers_keeps_inited
      with (srv := manager.ran_state (initialize srv0 w)).
    + cbn. by rewrite lookup_insert_eq.
    + by apply (initialize_spec srv0 w).
Qed.

(** X24. [initialize] marks a server as initialized exactly when it
    returns no error, sends at most three requests, none for a server
    that is initialized already, and keeps the name and the configuration
    of the server. *)
Theorem initialize_marks_success s w :
  (manager.ran_result (initialize s w) = None
   ↔ mcp.inited (manager.ran_state (initialize s w)) = true)
  ∧ length (manager.ran_sent (initialize s w))
    ≤ (if mcp.inited s then 0 else 3)
  ∧ mcp.name (manager.ran_state (initialize s w)) = mcp.name s
  ∧ mcp.cfg (manager.ran_state (initialize s w)) = mcp.cfg s.
Proof.
  destruct (initialize_spec s w) as (H1 & H2 & H3 & H4).
  split; [done|]. split; [|done].
  destruct (mcp.inited s) eqn:Hin; [|done].
  by rewrite initialize_inited.
Qed.

(** X25. When [InitServers] returns no error, every name it was given is
    a server of the manager, which [ValidateNames] accepts, and that
    server is initialized afterwards. *)
Theorem InitServers_initializes_all_names m (names : list gostring) w :
  manager.ran_result (InitServers m names w) = None →
  ValidateNames m names = None
  ∧ Forall (λ n, ∃ srv,
              manager.servers (manager.ran_state (InitServers m names w)) !! n
              = Some srv ∧ mcp.inited srv = true) names.
Proof using Type.
  intros Hok. destruct (InitServers_success _ _ _ Hok) as [Hcfg Hall].
  split; [|exact Hall]. apply ValidateNames_None. exact Hcfg.
Qed.

End ManagerFacts.

Lemma makeToolExec_sends_only_to_a_server_witness :
  manager.ran_sent (toy_makeToolExec (str "toy__search")) ≠ []
  ∧ (None : option (gostring → nat → result gostring * nat)) = None
  ∧ ∃ m i srv,
      Some toy_manager_inited = Some m
      ∧ strings.Index (str "toy__search") (str "__") = Some i
      ∧ manager.servers m !! take i (str "toy__search") = Some srv.
Proof.
  assert (H : manager.ran_sent (toy_makeToolExec (str "toy__search")) ≠ [])
    by (vm_compute; discriminate).
  split; [exact H|].
  exact (makeToolExec_sends_only_to_a_server _ _ _ _ _ _ _ _ _ _ _ _ _ _ _ H).
Defined.

Lemma InitServers_initializes_all_names_witness :
  manager.ran_result (toy_InitServers [str "toy"; str "toy"]) = None
  ∧ manager.ValidateNames id toy_manager [str "toy"; str "toy"] = None
  ∧ Forall (λ n, ∃ srv,
              manager.servers (manager.ran_state (toy_InitServers [str "toy"; str "toy"]))
                !! n = Some srv ∧ mcp.inited srv = true)
           [str "toy"; str "toy"].
Proof.
  assert (H : manager.ran_result (toy_InitServers [str "toy"; str "toy"]) = None)
    by (vm_compute; reflexivity).
  split; [exact H|].
  exact (InitServers_initializes_all_names _ _ _ _ _ _ _ _ _ _ _ _ H).
Defined.

Lemma ExecuteTool_routes_qualified_name_witness :
  ("_"%char ∉ str "toy")
  ∧ manager.servers toy_manager_inited !! str "toy"
    = Some (manager.set_tools toy_server [toy_tool])
  ∧ manager.ran_result
      (manager.ExecuteTool toy_ok_Do (λ req, Ok (mcp.Method req)) (λ _, None) id
         toy_rpc_unmarshal toy_decode (λ tool args, tool)
         (λ _, Err (str "not JSON")) id toy_manager_inited
         (str "toy" ++ str "__" ++ str "web__search") (str "{}") 0)
    = manager.ran_result
        (manager.callTool toy_ok_Do (λ req, Ok (mcp.Method req)) (λ _, None) id
           toy_rpc_unmarshal toy_decode (λ tool args, tool)
           (λ _, Err (str "not JSON"))
           (manager.set_tools toy_server [toy_tool]) (str "web__search") (str "{}") 0).
Proof.
  assert (H1 : "_"%char ∉ str "toy") by (apply (bool_decide_unpack _); by vm_compute).
  assert (H2 : manager.servers toy_manager_inited !! str "toy"
               = Some (manager.set_tools toy_server [toy_tool]))
    by (vm_compute; reflexivity).
  split; [exact H1|]. split; [exact H2|].
  exact (f_equal manager.ran_result
           (ExecuteTool_routes_qualified_name toy_ok_Do (λ req, Ok (mcp.Method req))
              (λ _, None) id toy_rpc_unmarshal toy_decode (λ tool args, tool)
              (λ _, Err (str "not JSON")) id toy_manager_inited (str "toy")
              (str "web__search") (str "{}") _ 0 H1 H2)).
Defined.


(** *** ActiveToolDefs *)

Lemma elem_of_active (m : manager.MCPManager) (extraNames : list gostring)
    (n : gostring) :
  n ∈ manager.active m extraNames
  ↔ (∃ srv, manager.servers m !! n = Some srv
            ∧ mcp.Enabled (mcp.cfg srv) = true ∧ mcp.inited srv = true)
    ∨ n ∈ extraNames.
Proof.
  unfold manager.active. rewrite elem_of_union, elem_of_dom, elem_of_list_to_set.
  unfold is_Some. setoid_rewrite map_lookup_filter_Some. cbn. done.
Qed.

Lemma defs_loop_is_Some (m : manager.MCPManager) (names : list gostring) :
  is_Some (manager.defs_loop m names)
  ↔ Forall (λ n, is_Some (manager.servers m !! n)) names.
Proof.
  induction names as [|name names IH]; cbn.
  { split; [constructor|by eexists]. }
  rewrite Forall_cons. destruct (manager.servers m !! name) as [srv|].
  - destruct (mcp.inited srv); cbn.
    + rewrite fmap_is_Some, IH. split; [by split|by intros [_ ?]].
    + rewrite IH. split; [by split|by intros [_ ?]].
  - split; [by intros [? ?]|]. by intros [[? ?] _].
Qed.

Lemma defs_loop_Some (m : manager.MCPManager) (names : list gostring)
    (defs : list tools.Definition_) :
  manager.defs_loop m names = Some defs →
  ∀ d, d ∈ defs
       ↔ ∃ name srv, name ∈ names ∧ manager.servers m !! name = Some srv
                     ∧ mcp.inited srv = true ∧ d ∈ manager.defs_of name srv.
Proof.
  revert defs. induction names as [|name names IH]; intros defs; cbn.
  { intros [= <-] d. split; [by intros ?%elem_of_nil|].
    by intros (? & ? & ?%elem_of_nil & _). }
  destruct (manager.servers m !! name) as [srv|] eqn:Hsrv; [|done].
  destruct (mcp.inited srv) eqn:Hin; cbn.
  - destruct (manager.defs_loop m names) as [defs'|]; [|done]. cbn.
    intros [= <-] d. rewrite elem_of_app, (IH defs' eq_refl d). split.
    + intros [Hd|(n & s & Hn & Hs & Hi & Hd)].
      * exists name, srv. split; [by left|done].
      * exists n, s. split; [by right|done].
    + intros (n & s & Hn & Hs & Hi & Hd).
      apply elem_of_cons in Hn as [->|Hn].
      * left. congruence.
      * right. by exists n, s.
  - intros Hdefs d. rewrite (IH defs Hdefs d). split.
    + intros (n & s & Hn & Hs & Hi & Hd). exists n, s. split; [by right|done].
    + intros (n & s & Hn & Hs & Hi & Hd).
      apply elem_of_cons in Hn as [->|Hn]; [congruence|]. by exists n, s.
Qed.

(** X26. The definitions [ActiveToolDefs] returns are those of the tools
    of the servers that are initialized and either enabled or named among
    the extra names: each as [defs_of] makes it, under the name
    [server__tool], and no other. *)
Theorem ActiveToolDefs_defs (m : manager.MCPManager) (extraNames : list gostring)
    (defs : list tools.Definition_) :
  manager.ActiveToolDefs m extraNames = Some defs →
  ∀ d, d ∈ defs
       ↔ ∃ name srv,
           manager.servers m !! name = Some srv
           ∧ mcp.inited srv = true
           ∧ (mcp.Enabled (mcp.cfg srv) = true ∨ name ∈ extraNames)
           ∧ d ∈ manager.defs_of name srv.
Proof.
  intros Hdefs d. unfold manager.ActiveToolDefs in Hdefs.
  rewrite (defs_loop_Some _ _ _ Hdefs d). split.
  - intros (n & s & Hn & Hs & Hi & Hd). exists n, s.
    split; [done|]. split; [done|]. split; [|done].
    apply elem_of_elements, elem_of_active in Hn as [(s' & Hs' & He & _)|Hn].
    + left. congruence.
    + by right.
  - intros (n & s & Hs & Hi & Hact & Hd). exists n, s.
    split; [|done]. apply elem_of_elements, elem_of_active.
    destruct Hact as [He|Hn]; [left|by right]. by exists s.
Qed.

Lemma ActiveToolDefs_defs_witness :
  manager.ActiveToolDefs toy_manager_inited []
  = Some (manager.defs_of (str "toy") (manager.set_tools toy_server [toy_tool]))
  ∧ ∀ d, d ∈ manager.defs_of (str "toy") (manager.set_tools toy_server [toy_tool])
         ↔ ∃ name srv,
             manager.servers toy_manager_inited !! name = Some srv
             ∧ mcp.inited srv = true
             ∧ (mcp.Enabled (mcp.cfg srv) = true ∨ name ∈ [])
             ∧ d ∈ manager.defs_of name srv.
Proof.
  assert (H : manager.ActiveToolDefs toy_manager_inited []
              = Some (manager.defs_of (str "toy")
                        (manager.set_tools toy_server [toy_tool])))
    by (vm_compute; reflexivity).
  split; [exact H|].
  exact (ActiveToolDefs_defs toy_manager_inited [] _ H).
Defined.

(** X27. [ActiveToolDefs] returns exactly when every extra name is a
    server of the manager, that is when [ValidateNames] accepts the extra
    names; it panics exactly when one of them is not. *)
Theorem ActiveToolDefs_needs_valid_names (quote : gostring → gostring)
    (m : manager.MCPManager) (extraNames : list gostring) :
  (is_Some (manager.ActiveToolDefs m extraNames)
   ↔ manager.ValidateNames quote m extraNames = None)
  ∧ (manager.ActiveToolDefs m extraNames = None
     ↔ ∃ n, n ∈ extraNames ∧ manager.servers m !! n = None).
Proof.
  assert (Hsome : is_Some (manager.ActiveToolDefs m extraNames)
                  ↔ Forall (λ n, is_Some (manager.servers m !! n)) extraNames).
  { unfold manager.ActiveToolDefs. rewrite defs_loop_is_Some, !Forall_forall.
    split.
    - intros H n Hn. apply H, elem_of_elements, elem_of_active. by right.
    - intros H n [(s & Hs & _)|Hn]%elem_of_elements%elem_of_active; [by eexists|].
      by apply H. }
  split.
  - by rewrite Hsome, ValidateNames_None.
  - rewrite eq_None_not_Some, Hsome, <- Exists_Forall_neg, Exists_exists.
    + split; intros (n & Hn & Hs); exists n; (split; [done|]).
      * by apply eq_None_not_Some.
      * by apply eq_None_not_Some.
    + intros n. destruct (manager.servers m !! n); [left; by eexists|right].
      by intros [? ?].
Qed.
